(** * Compendium tooling: insertion applier and citation footnotes

  A shallow embedding of the pure cores of the repository:

  - [formatMessageBlock] and [applyOperations] of the compendium
    curator script (the insertion applier working on an array of
    markdown lines),
  - [moveToSentenceEnd] and [applyWikipediaFootnotes] of
    [structure-compendium-topics.js] (the citation renderer), with
    [validateBatchCitations], [parseCompendiumMessages], [slugifyTopic]
    and [groupMessagesByTopic] of the same script,
  - [processFile] of the split script, and
  - the retry loops around the calls of the model.

  JavaScript strings are sequences of UTF-16 code units; they are
  modelled as [list N], one number per code unit, so that [length],
  [slice], [indexOf] and indexing have the positions the script sees.
  JavaScript [Map]s whose iteration order is irrelevant are [gmap]s;
  arrays are lists. *)

From Stdlib Require Import ZArith NArith Lia Ascii String DecimalString.
From stdpp Require Import base option list gmap sorting.

Local Open Scope nat_scope.

(** ** JavaScript strings *)

Module JsString.

(** A string literal of the script, ASCII only. *)
Definition js (s : string) : list N :=
  map N_of_ascii (list_ascii_of_string s).

Definition NL : N := 10%N.          (* line feed *)
Definition QUOTE : N := 34%N.       (* double quote *)
Definition APOSTROPHE : N := 39%N.
Definition RPAREN : N := 41%N.
Definition LBRACKET : N := 91%N.
Definition RBRACKET : N := 93%N.
Definition DOT : N := 46%N.
Definition BANG : N := 33%N.
Definition QUESTION : N := 63%N.
Definition UPPER_T : N := 84%N.

(** White space and line terminators removed by [String.prototype.trim]. *)
Definition isWhiteSpace (c : N) : bool :=
  ((9 <=? c) && (c <=? 13) || (c =? 32) || (c =? 160) || (c =? 5760)
   || (8192 <=? c) && (c <=? 8202) || (c =? 8232) || (c =? 8233)
   || (c =? 8239) || (c =? 8287) || (c =? 12288) || (c =? 65279))%N.

(** [\d] of a regular expression without the unicode flag. *)
Definition isDigit (c : N) : bool := ((48 <=? c) && (c <=? 57))%N.

Fixpoint dropWhile (p : N -> bool) (s : list N) : list N :=
  match s with
  | [] => []
  | c :: r => if p c then dropWhile p r else s
  end.

Fixpoint takeWhile (p : N -> bool) (s : list N) : list N :=
  match s with
  | [] => []
  | c :: r => if p c then c :: takeWhile p r else []
  end.

(** [s.trim()] *)
Definition trim (s : list N) : list N :=
  rev (dropWhile isWhiteSpace (rev (dropWhile isWhiteSpace s))).

(** [s.startsWith(p)] *)
Fixpoint startsWith (p s : list N) : bool :=
  match p, s with
  | [], _ => true
  | _ :: _, [] => false
  | a :: p', b :: s' => (a =? b)%N && startsWith p' s'
  end.

(** [s.indexOf(c)] for a one-character needle, and the index of the
    first match of a one-character class such as [/[.!?]/]; [None] is
    the script's [-1], respectively [null]. *)
Fixpoint indexWhere (p : N -> bool) (s : list N) : option nat :=
  match s with
  | [] => None
  | c :: r => if p c then Some 0 else S <$> indexWhere p r
  end.

(** [lines.join(sep)] *)
Fixpoint join (sep : list N) (parts : list (list N)) : list N :=
  match parts with
  | [] => []
  | [x] => x
  | x :: r => x ++ sep ++ join sep r
  end.

(** [String(n)] for a non-negative integer. *)
Definition ofNat (n : nat) : list N :=
  js (NilEmpty.string_of_uint (Nat.to_uint n)).

(** Truthiness of a value that is a string, [null] or [undefined]. *)
Definition truthy (v : option (list N)) : bool :=
  match v with
  | Some (_ :: _) => true
  | _ => false
  end.

End JsString.

Import JsString.

(** ** The insertion applier *)

Module Applier.

(** A message of the slim export, as [formatMessageBlock] reads it.
    [id] is [String(msg.id ?? '')] and [content] is
    [String(msg.content ?? '')]; the nullable fields are [None] when
    [null] or absent. *)
Record Message := {
  id : list N;
  timestamp : option (list N);
  author : option (list N);
  content : list N;
  replyTo : option (list N)
}.

(** [op.position]: a string, an object with optional [afterId] and
    [beforeId], or any other value ([undefined], [null], a number). *)
Inductive Position :=
| PosString (s : list N)
| PosObject (afterId beforeId : option (list N))
| PosOther.

(** One insertion operation; [messageId] is [String(op.messageId)] and
    [category] is a string, as the operation record of the curator
    prompt has it. *)
Record Operation := {
  messageId : list N;
  category : list N;
  position : Position
}.

(** What the script prints through [warn] and [log]. *)
Inductive Report :=
| WarnMessageNotFound (msgId : list N)
| LogAlreadyExists (msgId : list N)
| LogCreatedCategory (cat : list N)
| WarnAfterIdNotFound (afterId : list N)
| WarnBeforeIdNotFound (beforeId : list N)
| LogApplied (inserted requested : nat).

Definition isWarning (r : Report) : bool :=
  match r with
  | WarnMessageNotFound _ | WarnAfterIdNotFound _ | WarnBeforeIdNotFound _ => true
  | _ => false
  end.

(** The mutable variables of [applyOperations]. *)
Record State := {
  newLines : list (list N);
  categoryIndex : gmap (list N) nat;
  messageIdToLine : gmap (list N) nat;
  insertedCount : nat;
  reports : list Report
}.

Definition HEADER_PREFIX : list N := js "## ".

Definition isHeader (line : list N) : bool := startsWith HEADER_PREFIX line.

(** [line.match(/\[(\d+)\]$/)]: the captured digits when the line ends
    with an opening bracket, one or more digits and a closing bracket. *)
Definition anchorId (line : list N) : option (list N) :=
  match rev line with
  | c :: r =>
      if (c =? RBRACKET)%N then
        match takeWhile isDigit r, dropWhile isDigit r with
        | (_ :: _) as ds, o :: _ => if (o =? LBRACKET)%N then Some (rev ds) else None
        | _, _ => None
        end
      else None
  | [] => None
  end.

(** [buildMessageIndex]: the messages with a truthy id, keyed by id;
    a later message replaces an earlier one with the same id.  The ids
    of an export are strings, as [Message] has them, and a string is
    truthy when it is not empty; an id that is a number is outside
    [Message]. *)
Definition buildMessageIndex (messages : list Message) : gmap (list N) Message :=
  foldl (fun idx m => if truthy (Some (id m)) then <[id m := m]> idx else idx)
        ∅ messages.

(** [formatMessageBlock(msg, msgIndex)] *)
Definition formatMessageBlock (msg : Message) (msgIndex : gmap (list N) Message) : list N :=
  let dateStr :=
    match timestamp msg with
    | Some ((_ :: _) as ts) => takeWhile (fun c => negb (c =? UPPER_T)%N) ts
    | _ => js "UNKNOWN-DATE"
    end in
  let author :=
    match author msg with
    | Some ((_ :: _) as a) => [LBRACKET] ++ a ++ js "] "
    | _ => []
    end in
  let content := trim (content msg) in
  let block := [LBRACKET] ++ dateStr ++ js "] " ++ author ++ content
                 ++ [LBRACKET] ++ id msg ++ [RBRACKET] in
  match replyTo msg with
  | Some ((_ :: _) as r) =>
      match msgIndex !! r with
      | Some replyMsg =>
          let snippet := trim (take 60 (Applier.content replyMsg)) in
          js "> In reply to: " ++ [QUOTE] ++ snippet ++ [QUOTE; NL] ++ block
      | None => js "> (Reply to ID: " ++ r ++ js ")" ++ [NL] ++ block
      end
  | _ => block
  end.

(** The first loop of [applyOperations]: index the headers and the
    anchors of the lines, from line number [i] on. *)
Fixpoint indexLines (i : nat) (lines : list (list N))
    (cats ids : gmap (list N) nat) : gmap (list N) nat * gmap (list N) nat :=
  match lines with
  | [] => (cats, ids)
  | line :: rest =>
      let cats' := if isHeader line then <[trim line := i]> cats else cats in
      let ids' := match anchorId line with
                  | Some m => <[m := i]> ids
                  | None => ids
                  end in
      indexLines (S i) rest cats' ids'
  end.

Definition initialState (markdownLines : list (list N)) : State :=
  let '(cats, ids) := indexLines 0 markdownLines ∅ ∅ in
  {| newLines := markdownLines; categoryIndex := cats; messageIdToLine := ids;
     insertedCount := 0; reports := [] |}.

Definition report (st : State) (r : Report) : State :=
  {| newLines := newLines st; categoryIndex := categoryIndex st;
     messageIdToLine := messageIdToLine st; insertedCount := insertedCount st;
     reports := reports st ++ [r] |}.

(** The scan [for (j = catLine + 1; j < newLines.length; j++)]: the
    number of the first header among [rest], which starts at line [j]. *)
Fixpoint scanHeader (j : nat) (rest : list (list N)) : option nat :=
  match rest with
  | [] => None
  | line :: r => if isHeader line then Some j else scanHeader (S j) r
  end.

(** [nextCat]: the next header after [catLine], or the number of lines. *)
Definition nextCat (lines : list (list N)) (catLine : nat) : nat :=
  default (length lines) (scanHeader (S catLine) (drop (S catLine) lines)).

(** Section resolution: the lines, the header index, the header's line
    and the report, after the header was created if it was missing. *)
Record Resolved := {
  lines : list (list N);
  cats : gmap (list N) nat;
  catLine : nat;
  created : list Report
}.

Definition resolveSection (st : State) (cat : list N) : Resolved :=
  match categoryIndex st !! cat with
  | Some catLine =>
      {| lines := newLines st; cats := categoryIndex st; catLine := catLine;
         created := [] |}
  | None =>
      let lines := newLines st ++ [[]; cat; []] in
      let catLine := length lines - 2 in
      {| lines := lines; cats := <[cat := catLine]> (categoryIndex st);
         catLine := catLine; created := [LogCreatedCategory cat] |}
  end.

(** Position resolution: the line to insert at, and the warning. *)
Definition resolvePosition (pos : Position) (lines : list (list N))
    (ids : gmap (list N) nat) (catLine : nat) : nat * list Report :=
  match pos with
  | PosString s =>
      if decide (s = js "prepend") then (catLine + 1, [])
      else if decide (s = js "append") then (nextCat lines catLine, [])
      else (catLine + 1, [])
  | PosObject afterId beforeId =>
      match afterId with
      | Some ((_ :: _) as a) =>
          match ids !! a with
          | Some refLine => (refLine + 1, [])
          | None => (nextCat lines catLine, [WarnAfterIdNotFound a])
          end
      | _ =>
          match beforeId with
          | Some ((_ :: _) as b) =>
              match ids !! b with
              | Some refLine => (refLine, [])
              | None => (catLine + 1, [WarnBeforeIdNotFound b])
              end
          | _ => (catLine + 1, [])
          end
      end
  | PosOther => (catLine + 1, [])
  end.

(** [lines.splice(insertLine, 0, block)] *)
Definition splice (lines : list (list N)) (insertLine : nat) (block : list N)
    : list (list N) :=
  take insertLine lines ++ block :: drop insertLine lines.

(** The two index maintenance loops. *)
Definition shiftCategories (insertLine : nat) (cats : gmap (list N) nat)
    : gmap (list N) nat :=
  (fun idx => if decide (insertLine <= idx) then idx + 1 else idx) <$> cats.

Definition shiftMessages (insertLine : nat) (msgId : list N)
    (ids : gmap (list N) nat) : gmap (list N) nat :=
  map_imap (fun m ln =>
              Some (if decide (insertLine <= ln /\ m <> msgId) then ln + 1 else ln)) ids.

(** One iteration of the loop over [operations]. *)
Definition applyOperation (msgIndex : gmap (list N) Message) (st : State)
    (op : Operation) : State :=
  let msgId := messageId op in
  match msgIndex !! msgId with
  | None => report st (WarnMessageNotFound msgId)
  | Some msg =>
      match messageIdToLine st !! msgId with
      | Some _ => report st (LogAlreadyExists msgId)
      | None =>
          let block := formatMessageBlock msg msgIndex in
          let cat := trim (category op) in
          let sec := resolveSection st cat in
          let '(insertLine, warned) :=
            resolvePosition (position op) (lines sec) (messageIdToLine st) (catLine sec) in
          {| newLines := splice (lines sec) insertLine block;
             categoryIndex := shiftCategories insertLine (cats sec);
             messageIdToLine :=
               shiftMessages insertLine msgId (<[msgId := insertLine]> (messageIdToLine st));
             insertedCount := insertedCount st + 1;
             reports := reports st ++ created sec ++ warned |}
      end
  end.

(** The state after the operations [ops] were applied to the document. *)
Definition stateAfter (markdownLines : list (list N)) (ops : list Operation)
    (msgIndex : gmap (list N) Message) : State :=
  foldl (applyOperation msgIndex) (initialState markdownLines) ops.

(** The state after the loop and the final log line. *)
Definition runOperations (markdownLines : list (list N)) (operations : list Operation)
    (msgIndex : gmap (list N) Message) : State :=
  let st := stateAfter markdownLines operations msgIndex in
  report st (LogApplied (insertedCount st) (length operations)).

(** [applyOperations(markdownLines, operations, msgIndex)] *)
Definition applyOperations (markdownLines : list (list N)) (operations : list Operation)
    (msgIndex : gmap (list N) Message) : list N :=
  join [NL] (newLines (runOperations markdownLines operations msgIndex)).

(** [contextContent.split('\n')] of the caller. *)
Fixpoint splitLines (text : list N) : list (list N) :=
  match text with
  | [] => [[]]
  | c :: r =>
      if (c =? NL)%N then [] :: splitLines r
      else match splitLines r with
           | l :: ls => (c :: l) :: ls
           | [] => [[c]]
           end
  end.

End Applier.

(** ** The citation renderer *)

Module Footnotes.

(** One element of [entry.citationInserts]. [atChar] is [Some z] when
    [Number.isInteger(ins.atChar)] holds and [None] for every other
    value (absent, a string, a fraction, [NaN]); [sources] lists
    [String(s?.messageId ?? '')] of each source. *)
Record CitationInsert := {
  atChar : option Z;
  sources : list (list N)
}.

(** [entryId] is [String(entry?.entryId ?? '')], [text] is
    [String(entry?.text ?? '')], and [type] is [None] when the entry has
    no type. *)
Record Entry := {
  entryId : list N;
  type : option (list N);
  text : list N;
  citationInserts : list CitationInsert
}.

(** An element of [inserts], after the [map] and the [filter]; [at_] is
    its [atChar], an integer by then. *)
Record Insert := {
  at_ : Z;
  messageIds : list (list N)
}.

Record Rendered := {
  outEntryId : list N;
  outType : list N;
  outText : list N;
  footnotes : list (nat * list (list N))
}.

(** The predicate of the [filter]. *)
Definition validAtChar (baseText : list N) (ins : CitationInsert) : bool :=
  match atChar ins with
  | Some z => (0 <=? z)%Z && (z <=? Z.of_nat (length baseText))%Z
  | None => false
  end.

(** The [map] followed by the [filter]: [None] for a filtered element. *)
Definition normalizeInsert (baseText : list N) (ins : CitationInsert) : option Insert :=
  match atChar ins with
  | Some z =>
      if validAtChar baseText ins
      then Some {| at_ := z;
                   messageIds := filter (fun m => m <> []) (map trim (sources ins)) |}
      else None
  | None => None
  end.

Definition isTerminator (c : N) : bool :=
  ((c =? DOT) || (c =? BANG) || (c =? QUESTION))%N.

Definition isClosing (c : N) : bool :=
  ((c =? QUOTE) || (c =? APOSTROPHE) || (c =? RPAREN) || (c =? RBRACKET))%N.

Definition isNewline (c : N) : bool := (c =? NL)%N.

(** The loop [while (idx < n && closing.test(text[idx])) idx++], where
    [closing] is the class of the four closing characters and [rest] is
    the text from [idx] on. *)
Fixpoint skipClosing (rest : list N) (idx : nat) : nat :=
  match rest with
  | c :: r => if isClosing c then skipClosing r (S idx) else idx
  | [] => idx
  end.

(** [moveToSentenceEnd(text, atChar)] *)
Definition moveToSentenceEnd (text : list N) (atChar : Z) : nat :=
  let n := length text in
  let start := Z.to_nat (Z.max 0 (Z.min (Z.of_nat n) atChar)) in
  if decide (n <= start) then n
  else
    let tail := drop start text in
    match indexWhere isTerminator tail with
    | None =>
        match indexWhere isNewline tail with
        | None => n
        | Some nl => start + nl
        end
    | Some m =>
        let idx := start + m + 1 in
        skipClosing (drop idx text) idx
    end.

(** [groups]: a [Map] from snapped offset to the inserts snapped there,
    in insertion order of the keys. *)
Fixpoint groupPush (key : nat) (ins : Insert) (groups : list (nat * list Insert))
    : list (nat * list Insert) :=
  match groups with
  | [] => [(key, [ins])]
  | (k, l) :: rest =>
      if decide (k = key) then (k, l ++ [ins]) :: rest
      else (k, l) :: groupPush key ins rest
  end.

Definition buildGroups (baseText : list N) (inserts : list Insert)
    : list (nat * list Insert) :=
  foldl (fun groups ins => groupPush (moveToSentenceEnd baseText (at_ ins)) ins groups)
        [] inserts.

(** [groups.get(at) || []] *)
Fixpoint groupsGet (key : nat) (groups : list (nat * list Insert)) : list Insert :=
  match groups with
  | [] => []
  | (k, l) :: rest => if decide (k = key) then l else groupsGet key rest
  end.

(** [Array.from(groups.keys()).sort((a, b) => a - b)] *)
Definition sortedKeys (groups : list (nat * list Insert)) : list nat :=
  merge_sort Nat.le (map fst groups).

(** [Array.from(new Set(ids))]: first occurrences, in order. *)
Fixpoint uniqFrom (seen ids : list (list N)) : list (list N) :=
  match ids with
  | [] => []
  | x :: r => if decide (x ∈ seen) then uniqFrom seen r else x :: uniqFrom (x :: seen) r
  end.

Definition uniq (ids : list (list N)) : list (list N) := uniqFrom [] ids.

(** The inner loop [for (const ins of insList) { const n = refNumber++; ... }]:
    the inserts of a group with their numbers, and the next number. *)
Fixpoint numberInserts (insList : list Insert) (refNumber : nat)
    : list (nat * Insert) * nat :=
  match insList with
  | [] => ([], refNumber)
  | ins :: rest =>
      let '(more, next) := numberInserts rest (S refNumber) in
      ((refNumber, ins) :: more, next)
  end.

(** The outer loop [for (const at of atChars)]: each snapped offset with
    its numbered inserts. *)
Fixpoint numberGroups (atChars : list nat) (groups : list (nat * list Insert))
    (refNumber : nat) : list (nat * list (nat * Insert)) :=
  match atChars with
  | [] => []
  | a :: rest =>
      let '(numbered, next) := numberInserts (groupsGet a groups) refNumber in
      (a, numbered) :: numberGroups rest groups next
  end.

(** The numbering of an entry text: [refNumber] starts at 1. *)
Definition numbering (baseText : list N) (inserts : list Insert)
    : list (nat * list (nat * Insert)) :=
  let groups := buildGroups baseText inserts in
  numberGroups (sortedKeys groups) groups 1.

(** The marker text of one number. *)
Definition markerOf (n : nat) : list N := [LBRACKET] ++ ofNat n ++ [RBRACKET].

(** [footnotes[String(n)] = uniq] for every numbered insert. *)
Definition footnotesOf (numbered : list (nat * list (nat * Insert)))
    : list (nat * list (list N)) :=
  map (fun p => (p.1, uniq (messageIds p.2))) (concat (map snd numbered)).

(** [insertMarkers] *)
Definition insertMarkersOf (numbered : list (nat * list (nat * Insert)))
    : list (nat * list N) :=
  map (fun g => (g.1, concat (map (fun p => markerOf p.1) g.2))) numbered.

(** [text.slice(0, atChar) + marker + text.slice(atChar)] *)
Definition insertMarker (m : nat * list N) (textWith : list N) : list N :=
  take m.1 textWith ++ m.2 ++ drop m.1 textWith.

(** [applyWikipediaFootnotes(entry)]; the markers are inserted from the
    last one to the first one. *)
Definition applyWikipediaFootnotes (entry : Entry) : Rendered :=
  let baseText := text entry in
  let inserts := omap (normalizeInsert baseText) (citationInserts entry) in
  let numbered := numbering baseText inserts in
  {| outEntryId := entryId entry;
     outType := default (js "other") (type entry);
     outText := foldr insertMarker baseText (insertMarkersOf numbered);
     footnotes := footnotesOf numbered |}.

End Footnotes.

(** ** Vocabulary of the statements *)

Module Props.
Import Applier.

(** The part of the state that decides the document: everything but
    the console output. *)
Definition core (st : State) :=
  (newLines st, categoryIndex st, messageIdToLine st, insertedCount st).

(** Every recorded section index points at a line whose trimmed text is
    the section's key. *)
Definition headersIndexed (st : State) : Prop :=
  forall cat i, categoryIndex st !! cat = Some i ->
    exists line, newLines st !! i = Some line /\ trim line = cat.

(** [k] is the end of the section whose header is line [catLine]: the
    first header line after [catLine], or the number of lines. *)
Definition endOfSection (doc : list (list N)) (catLine k : nat) : Prop :=
  catLine < k <= length doc
  /\ (forall j line, catLine < j < k -> doc !! j = Some line -> isHeader line = false)
  /\ (k = length doc \/ exists line, doc !! k = Some line /\ isHeader line = true).

(** The block with identifier [m] is resident in the document: some
    line carries its anchor. *)
Definition resident (doc : list (list N)) (m : list N) : Prop :=
  exists i line, doc !! i = Some line /\ anchorId line = Some m.

(** The block is prefaced by a quoted line with a snippet. *)
Definition hasSnippetPreface (block : list N) : Prop :=
  exists snippet rest,
    block = js "> In reply to: " ++ [QUOTE] ++ snippet ++ [QUOTE; NL] ++ rest.

(** The block is prefaced by the lighter notation naming [r] only. *)
Definition hasReferencePreface (r block : list N) : Prop :=
  exists rest, block = js "> (Reply to ID: " ++ r ++ js ")" ++ [NL] ++ rest.

(** The operation left the document and the inserted count as they
    were. *)
Definition rejected (st st' : State) : Prop :=
  newLines st' = newLines st /\ insertedCount st' = insertedCount st.

Definition blank (s : list N) : Prop :=
  Forall (fun c => isWhiteSpace c = true) s.

(** The block of a message without its reply preface. *)
Definition plainBlock (msg : Message) : list N :=
  formatMessageBlock
    {| id := id msg; timestamp := timestamp msg; author := author msg;
       content := content msg; replyTo := None |} ∅.

(** *** Citations *)

(** [i] is the first position from [start] on whose character is in
    the class [p]. *)
Definition firstFrom (p : N -> bool) (text : list N) (start i : nat) : Prop :=
  start <= i
  /\ (exists c, text !! i = Some c /\ p c = true)
  /\ (forall j c, start <= j < i -> text !! j = Some c -> p c = false).

(** No character from [start] on is in the class [p]. *)
Definition noneFrom (p : N -> bool) (text : list N) (start : nat) : Prop :=
  forall j c, start <= j -> text !! j = Some c -> p c = false.

(** [k] is the end of the run of closing characters that starts at [i]. *)
Definition closingRun (text : list N) (i k : nat) : Prop :=
  i <= k <= length text
  /\ (forall j c, i <= j < k -> text !! j = Some c -> Footnotes.isClosing c = true)
  /\ (forall c, text !! k = Some c -> Footnotes.isClosing c = false).

(** The snapping as the claim words it: scan forward to the next
    terminator or line break, whichever comes first; after a terminator
    skip the closing characters; at a line break stop; otherwise stop at
    the end of the text. *)
Fixpoint claimedScan (rest : list N) (idx : nat) : nat :=
  match rest with
  | [] => idx
  | c :: r =>
      if Footnotes.isTerminator c then Footnotes.skipClosing r (S idx)
      else if Footnotes.isNewline c then idx
      else claimedScan r (S idx)
  end.

Definition claimedSentenceEnd (text : list N) (atChar : Z) : nat :=
  let start := Z.to_nat atChar in
  claimedScan (drop start text) start.

(** Offset [k] is strictly inside a run of characters of the class
    [alnum]: the characters before and after it are both in the class. *)
Definition insideWord (alnum : N -> bool) (text : list N) (k : nat) : Prop :=
  exists before after,
    0 < k /\ text !! (k - 1) = Some before /\ text !! k = Some after
    /\ alnum before = true /\ alnum after = true.

(** A class of word characters holds no sentence terminator, no closing
    character and no line feed. *)
Definition wordClass (alnum : N -> bool) : Prop :=
  forall c, alnum c = true ->
    Footnotes.isTerminator c = false /\ Footnotes.isClosing c = false
    /\ Footnotes.isNewline c = false.

(** ASCII digits and letters, and every code unit outside ASCII. *)
Definition isAlphanumeric (c : N) : bool :=
  ((48 <=? c) && (c <=? 57) || (65 <=? c) && (c <=? 90)
   || (97 <=? c) && (c <=? 122) || (128 <=? c))%N.

(** The snapped offset of an insert. *)
Definition snapOf (baseText : list N) (ins : Footnotes.Insert) : nat :=
  Footnotes.moveToSentenceEnd baseText (Footnotes.at_ ins).

(** The inserts with their reference numbers, in the order of the
    numbering loop. *)
Definition assigned (baseText : list N) (inserts : list Footnotes.Insert)
    : list (nat * Footnotes.Insert) :=
  concat (map snd (Footnotes.numbering baseText inserts)).

(** The request has an integer offset within the bounds of the text. *)
Definition validRequest (baseText : list N) (ins : Footnotes.CitationInsert) : Prop :=
  exists z, Footnotes.atChar ins = Some z /\ (0 <= z <= Z.of_nat (length baseText))%Z.

(** The entry with other citation requests. *)
Definition withInserts (entry : Footnotes.Entry)
    (requests : list Footnotes.CitationInsert) : Footnotes.Entry :=
  {| Footnotes.entryId := Footnotes.entryId entry;
     Footnotes.type := Footnotes.type entry;
     Footnotes.text := Footnotes.text entry;
     Footnotes.citationInserts := requests |}.

(** [normalizedEntries.map(applyWikipediaFootnotes)] of the caller. *)
Definition renderBatch (entries : list Footnotes.Entry) : list Footnotes.Rendered :=
  map Footnotes.applyWikipediaFootnotes entries.

End Props.

(** ** Sample data *)

Module Samples.
Import Applier.

Definition msgA : Message :=
  {| id := js "1"; timestamp := Some (js "2024-01-02T10:00:00.000Z");
     author := Some (js "bob"); content := js "Ramen is cheap"; replyTo := None |}.

Definition msgB : Message :=
  {| id := js "2"; timestamp := Some (js "2024-01-03T11:30:00.000Z");
     author := None; content := js "Agreed"; replyTo := Some (js "1") |}.

Definition msgC : Message :=
  {| id := js "3"; timestamp := None; author := None; content := js "Where";
     replyTo := Some (js "77") |}.

(** A reply to block 10, which is in [foodDocument] and not in the batch. *)
Definition msgD : Message :=
  {| id := js "4"; timestamp := None; author := None; content := js "Thanks";
     replyTo := Some (js "10") |}.

Definition index : gmap (list N) Message :=
  buildMessageIndex [msgA; msgB; msgC; msgD].

Definition blockA : list N := js "[2024-01-02] [bob] Ramen is cheap[1]".

Definition food : list N := js "## Food".

Definition appendA : Operation :=
  {| messageId := js "1"; category := food; position := PosString (js "append") |}.

Definition appendB : Operation :=
  {| messageId := js "2"; category := food; position := PosString (js "append") |}.

Definition afterMissing : Operation :=
  {| messageId := js "2"; category := food;
     position := PosObject (Some (js "999")) None |}.

Definition beforeMissing : Operation :=
  {| messageId := js "2"; category := food;
     position := PosObject None (Some (js "999")) |}.

Definition middleA : Operation :=
  {| messageId := js "1"; category := food; position := PosString (js "middle") |}.

Definition blankSection : Operation :=
  {| messageId := js "1"; category := js "   "; position := PosString (js "append") |}.

(** Two sentences on two lines; only the second one has a terminator. *)
Definition twoLines : list N := js "ab" ++ [NL] ++ js "cd.".

Definition ramen : list N := js "Ramen is cheap here. Yes".

Definition ramenEntry : Footnotes.Entry :=
  {| Footnotes.entryId := js "0:e1"; Footnotes.type := Some (js "tip");
     Footnotes.text := ramen;
     Footnotes.citationInserts :=
       [ {| Footnotes.atChar := Some 22%Z; Footnotes.sources := [js "9"] |};
         {| Footnotes.atChar := Some 6%Z; Footnotes.sources := [js "42"; js "7"; js "42"] |};
         {| Footnotes.atChar := Some 99%Z; Footnotes.sources := [js "5"] |};
         {| Footnotes.atChar := None; Footnotes.sources := [js "6"] |};
         {| Footnotes.atChar := Some 4%Z; Footnotes.sources := [js "42"] |} ] |}.

Definition ramenInserts : list Footnotes.Insert :=
  omap (Footnotes.normalizeInsert ramen) (Footnotes.citationInserts ramenEntry).

(** An entry whose requests are all invalid. *)
Definition brokenEntry : Footnotes.Entry :=
  {| Footnotes.entryId := js "0:e2"; Footnotes.type := Some (js "tip");
     Footnotes.text := ramen;
     Footnotes.citationInserts :=
       [ {| Footnotes.atChar := Some 25%Z; Footnotes.sources := [js "5"] |};
         {| Footnotes.atChar := Some (-1)%Z; Footnotes.sources := [js "5"] |};
         {| Footnotes.atChar := None; Footnotes.sources := [js "6"] |} ] |}.

(** The document read from an empty file: [''.split('\n')]. *)
Definition emptyDocument : list (list N) := splitLines [].

(** A document with one section and one block. *)
Definition foodDocument : list (list N) :=
  [[]; food; []; js "[2024-01-01] first[10]"; js "## Money"; []].

End Samples.

(** ** Vocabulary of the further statements on the applier *)

Module ApplierProps.
Import Applier.

(** The line ends with the anchor of the identifier [m]. *)
Definition endsWithAnchor (m line : list N) : Prop :=
  exists before, line = before ++ [LBRACKET] ++ m ++ [RBRACKET].

(** A decimal identifier: one or more digits. *)
Definition digits (m : list N) : Prop :=
  m <> [] /\ Forall (fun c => isDigit c = true) m.

(** Every recorded anchor index points at a line that ends with the
    anchor. *)
Definition anchorsIndexed (st : State) : Prop :=
  forall m i, messageIdToLine st !! m = Some i ->
    exists line, newLines st !! i = Some line /\ endsWithAnchor m line.

(** The operation names a block of the block source. *)
Definition known (msgIndex : gmap (list N) Message) (op : Operation) : Prop :=
  is_Some (msgIndex !! messageId op).

(** The block source is keyed by the identifiers of its messages, as
    [buildMessageIndex] builds it. *)
Definition keyed (msgIndex : gmap (list N) Message) : Prop :=
  forall k msg, msgIndex !! k = Some msg -> id msg = k.




Definition isNotFound (r : Report) : bool :=
  match r with WarnMessageNotFound _ => true | _ => false end.


(** The number of operations skipped for an unknown identifier. *)
Definition notFoundCount (st : State) : nat :=
  length (filter (fun r => isNotFound r = true) (reports st)).

End ApplierProps.

(** ** Further sample data *)

Module MoreSamples.
Import Applier.

(** Message 2 placed after, and before, block 10 of the food document. *)
Definition afterTen : Operation :=
  {| messageId := js "2"; category := js "## Money";
     position := PosObject (Some (js "10")) None |}.

Definition beforeTen : Operation :=
  {| messageId := js "2"; category := js "## Money";
     position := PosObject None (Some (js "10")) |}.

End MoreSamples.

(** ** Citation validation *)

Module Validation.
Import Footnotes.

(** The defects of one source list: the sources whose identifier is not
    a key of [messageById]. *)
Fixpoint badSources {A} (messageById : gmap (list N) A) (sources : list (list N)) : nat :=
  match sources with
  | [] => 0
  | mid :: rest =>
      match messageById !! mid with
      | None => S (badSources messageById rest)
      | Some _ => badSources messageById rest
      end
  end.

(** The defects of the requests of one entry text. *)
Fixpoint badInserts {A} (messageById : gmap (list N) A) (text : list N)
    (inserts : list CitationInsert) : nat :=
  match inserts with
  | [] => 0
  | ins :: rest =>
      (if validAtChar text ins then 0 else 1)
      + badSources messageById (sources ins)
      + badInserts messageById text rest
  end.

(** [validateBatchCitations({ entries, messageById })] *)
Fixpoint validateBatchCitations {A} (entries : list Entry)
    (messageById : gmap (list N) A) : nat :=
  match entries with
  | [] => 0
  | e :: rest =>
      badInserts messageById (text e) (citationInserts e)
      + validateBatchCitations rest messageById
  end.

End Validation.

(** ** Vocabulary of the further statements on citations *)

Module FootnotesProps.
Import Footnotes.

(** The text with the markers woven in from left to right: [text] is
    the part of the entry text from offset [consumed] on. *)
Fixpoint weave (consumed : nat) (text : list N) (markers : list (nat * list N))
    : list N :=
  match markers with
  | [] => text
  | (a, m) :: rest =>
      take (a - consumed) text ++ m ++ weave a (drop (a - consumed) text) rest
  end.

(** The offset the scan of [moveToSentenceEnd] starts at. *)
Definition clamp (text : list N) (atChar : Z) : nat :=
  Z.to_nat (Z.max 0 (Z.min (Z.of_nat (length text)) atChar)).

(** The markers of an entry, as [applyWikipediaFootnotes] computes them. *)
Definition markersOf (entry : Entry) : list (nat * list N) :=
  insertMarkersOf
    (numbering (text entry) (omap (normalizeInsert (text entry)) (citationInserts entry))).

End FootnotesProps.

(** ** Topics of the structuring script *)

Module Topics.

Definition HYPHEN : N := 45%N.
Definition AMPERSAND : N := 38%N.
Definition HASH : N := 35%N.

(** The class [[a-z0-9]]. *)
Definition isSlugChar (c : N) : bool :=
  ((97 <=? c) && (c <=? 122) || (48 <=? c) && (c <=? 57))%N.

(** [s.replace(/^##\s+/, '')]: two hashes and the white space after them
    are removed when there is at least one white space character. *)
Definition stripHashes (s : list N) : list N :=
  match s with
  | a :: b :: c :: r =>
      if (a =? HASH)%N && (b =? HASH)%N && isWhiteSpace c
      then dropWhile isWhiteSpace r
      else s
  | _ => s
  end.

(** [s.replace(/&/g, ' and ')] *)
Fixpoint replaceAmpersands (s : list N) : list N :=
  match s with
  | [] => []
  | c :: r =>
      if (c =? AMPERSAND)%N then js " and " ++ replaceAmpersands r
      else c :: replaceAmpersands r
  end.

(** [s.replace(/C+/g, '-')] for a class [C] of single characters: every
    maximal run of characters of the class becomes one hyphen; [inRun]
    tells that the previous character was of the class. *)
Fixpoint replaceRuns (inClass : N -> bool) (inRun : bool) (s : list N) : list N :=
  match s with
  | [] => []
  | c :: r =>
      if inClass c
      then (if inRun then replaceRuns inClass true r
            else HYPHEN :: replaceRuns inClass true r)
      else c :: replaceRuns inClass false r
  end.

(** [s.replace(/^-|-$/g, '')]: one hyphen at the start and one hyphen at
    the end are removed. *)
Definition stripLeadingHyphen (s : list N) : list N :=
  match s with
  | c :: r => if (c =? HYPHEN)%N then r else s
  | [] => []
  end.

Fixpoint stripTrailingHyphen (s : list N) : list N :=
  match s with
  | [] => []
  | [c] => if (c =? HYPHEN)%N then [] else [c]
  | c :: r => c :: stripTrailingHyphen r
  end.

Definition stripEdgeHyphens (s : list N) : list N :=
  stripTrailingHyphen (stripLeadingHyphen s).

(** [slugifyTopic(topicHeader)], for [String(topicHeader ?? '')]. The
    built-in [toLowerCase] is a parameter. *)
Definition slugifyTopic (toLowerCase : list N -> list N) (topicHeader : list N)
    : list N :=
  let t := trim topicHeader in
  let norm := toLowerCase (trim (stripHashes t)) in
  let slug :=
    stripEdgeHyphens
      (replaceRuns (fun c => (c =? HYPHEN)%N) false
         (replaceRuns (fun c => negb (isSlugChar c)) false
            (replaceAmpersands norm))) in
  match slug with
  | [] => js "unknown"
  | _ => slug
  end.

(** [toLowerCase] restricted to ASCII, for the samples. *)
Definition asciiLower (s : list N) : list N :=
  map (fun c => if (65 <=? c)%N && (c <=? 90)%N then (c + 32)%N else c) s.

(** A message of the compendium, as [parseCompendiumMessages] builds it. *)
Record ParsedMessage := {
  index : nat;
  messageId : list N;
  section : option (list N);
  sectionHeader : list N;
  date : option (list N);
  author : option (list N);
  raw : list N
}.

Definition UNCATEGORIZED : list N := js "## Uncategorized".

(** [m.sectionHeader || '## Uncategorized'] *)
Definition headerOf (m : ParsedMessage) : list N :=
  match sectionHeader m with
  | [] => UNCATEGORIZED
  | h => h
  end.

(** [groupMessagesByTopic(messages)]: the map and the order. *)
Definition groupStep (acc : gmap (list N) (list ParsedMessage) * list (list N))
    (m : ParsedMessage) : gmap (list N) (list ParsedMessage) * list (list N) :=
  let h := headerOf m in
  let '(map, order) := acc in
  match map !! h with
  | None => (<[h := [m]]> map, order ++ [h])
  | Some l => (<[h := l ++ [m]]> map, order)
  end.

Definition groupMessagesByTopic (messages : list ParsedMessage)
    : gmap (list N) (list ParsedMessage) * list (list N) :=
  foldl groupStep (∅, []) messages.

(** *** Parsing the compendium *)

Definition CR : N := 13%N.
Definition GREATER : N := 62%N.

(** [s.trimEnd()] and [s.trimStart()] *)
Definition trimEnd (s : list N) : list N := rev (dropWhile isWhiteSpace (rev s)).
Definition trimStart (s : list N) : list N := dropWhile isWhiteSpace s.

(** A line terminator, which the dot of a regular expression skips. *)
Definition isLineTerminator (c : N) : bool :=
  ((c =? 10) || (c =? 13) || (c =? 8232) || (c =? 8233))%N.

(** One carriage return at the end of a segment is part of the
    separator [/\r?\n/]. *)
Definition dropCarriageReturn (s : list N) : list N :=
  match rev s with
  | c :: r => if (c =? CR)%N then rev r else s
  | [] => s
  end.

Fixpoint dropCarriageReturns (segments : list (list N)) : list (list N) :=
  match segments with
  | [] => []
  | [s] => [s]
  | s :: rest => dropCarriageReturn s :: dropCarriageReturns rest
  end.

(** [markdown.split(/\r?\n/)] *)
Definition splitCrLf (markdown : list N) : list (list N) :=
  dropCarriageReturns (Applier.splitLines markdown).

(** [line.match(idAtLineEnd)] for [/\[(\d{10,})\]\s*$/]: the line without
    the match, and the captured digits. *)
Definition matchIdAtLineEnd (line : list N) : option (list N * list N) :=
  match dropWhile isWhiteSpace (rev line) with
  | c :: r =>
      if (c =? RBRACKET)%N then
        match dropWhile isDigit r with
        | o :: before =>
            if (o =? LBRACKET)%N && (10 <=? length (takeWhile isDigit r))
            then Some (rev before, rev (takeWhile isDigit r))
            else None
        | [] => None
        end
      else None
  | [] => None
  end.

(** The pattern [\d{4}-\d{2}-\d{2}] on exactly ten characters. *)
Definition isDate (d : list N) : bool :=
  match d with
  | [y1; y2; y3; y4; h1; m1; m2; h2; d1; d2] =>
      isDigit y1 && isDigit y2 && isDigit y3 && isDigit y4 && (h1 =? HYPHEN)%N
      && isDigit m1 && isDigit m2 && (h2 =? HYPHEN)%N && isDigit d1 && isDigit d2
  | _ => false
  end.

Definition notClosing (c : N) : bool := negb (c =? RBRACKET)%N.

(** White space, at least one character of it, and then no line
    terminator up to the end: the tail of the header pattern, one or more
    [\s] and then any number of dots up to the end. *)
Definition spaceThenRest (s : list N) : bool :=
  match s with
  | w :: _ =>
      isWhiteSpace w
      && forallb (fun c => negb (isLineTerminator c)) (dropWhile isWhiteSpace s)
  | [] => false
  end.

(** The date and the author of a first line, for the header pattern: a
    bracketed date, white space, a bracketed name of one or more
    characters other than the closing bracket, and the tail above. *)
Definition matchHeaderLine (s : list N) : option (list N * list N) :=
  match s with
  | open :: r =>
      if (open =? LBRACKET)%N && isDate (take 10 r) then
        match drop 10 r with
        | close :: (w :: _) as afterDate =>
            if (close =? RBRACKET)%N && isWhiteSpace w then
              match dropWhile isWhiteSpace afterDate with
              | open2 :: r2 =>
                  if (open2 =? LBRACKET)%N then
                    match takeWhile notClosing r2, dropWhile notClosing r2 with
                    | (_ :: _) as name, _ :: afterName =>
                        if spaceThenRest afterName
                        then Some (take 10 r, name)
                        else None
                    | _, _ => None
                    end
                  else None
              | [] => None
              end
            else None
        | _ => None
        end
      else None
  | [] => None
  end.

(** The variables of the loop of [parseCompendiumMessages]. *)
Record ParseState := {
  currentSection : option (list N);
  buf : list (list N);
  bufSection : option (list N);
  messages : list ParsedMessage
}.

(** [allLines.find(l => !l.trimStart().startsWith('>')) ?? ''] *)
Fixpoint firstNonReply (allLines : list (list N)) : list N :=
  match allLines with
  | [] => []
  | l :: rest => if startsWith [GREATER] (trimStart l) then firstNonReply rest else l
  end.

(** The message that [flushIfComplete] pushes, for the buffer with the
    last line cleaned. *)
Definition completeMessage (st : ParseState) (bufSection' : option (list N))
    (allLines : list (list N)) (id : list N) : ParsedMessage :=
  let header := matchHeaderLine (firstNonReply allLines) in
  let sec := match bufSection' with
             | Some s => Some s
             | None => currentSection st
             end in
  {| index := length (messages st);
     messageId := id;
     section := sec;
     sectionHeader := match sec with
                      | Some ((_ :: _) as s) => js "## " ++ s
                      | _ => UNCATEGORIZED
                      end;
     date := fst <$> header;
     author := snd <$> header;
     raw := join [NL] allLines |}.

(** One iteration of the loop over the lines. *)
Definition parseLine (st : ParseState) (rawLine : list N) : ParseState :=
  let trimmedEnd := trimEnd rawLine in
  if startsWith (js "## ") trimmedEnd then
    {| currentSection := Some (trim (drop 3 trimmedEnd));
       buf := buf st; bufSection := bufSection st; messages := messages st |}
  else
    let bufSection' := match buf st with
                       | [] => currentSection st
                       | _ => bufSection st
                       end in
    match matchIdAtLineEnd rawLine with
    | None =>
        {| currentSection := currentSection st;
           buf := buf st ++ [rawLine]; bufSection := bufSection';
           messages := messages st |}
    | Some (cleanedLastLine, id) =>
        {| currentSection := currentSection st;
           buf := []; bufSection := None;
           messages := messages st
                       ++ [completeMessage st bufSection' (buf st ++ [cleanedLastLine]) id] |}
    end.

(** [parseCompendiumMessages(markdown)], for [String(markdown ?? '')]. *)
Definition parseCompendiumMessages (markdown : list N) : list ParsedMessage :=
  messages (foldl parseLine
              {| currentSection := None; buf := []; bufSection := None; messages := [] |}
              (splitCrLf markdown)).

End Topics.

(** ** Vocabulary of the statements on topics *)

Module TopicsProps.
Import Topics.

(** Slug characters and hyphens only, and no hyphen right after a hyphen. *)
Fixpoint hyphenated (s : list N) : Prop :=
  match s with
  | [] => True
  | c :: r =>
      (isSlugChar c = true \/ (c = HYPHEN /\ head r <> Some HYPHEN)) /\ hyphenated r
  end.

(** The line is a section header for the parser. *)
Definition isSectionLine (line : list N) : bool :=
  startsWith (js "## ") (trimEnd line).

(** The line completes a message: it is no section header and it ends
    with an identifier of ten or more digits. *)
Definition completesMessage (line : list N) : Prop :=
  isSectionLine line = false /\ is_Some (matchIdAtLineEnd line).

(** What the loop keeps true, and how the list of messages grows. *)
Definition parseInvariant (st : ParseState) : Prop :=
  map index (messages st) = seq 0 (length (messages st))
  /\ Forall (fun m => 10 <= length (messageId m)
                      /\ Forall (fun c => isDigit c = true) (messageId m)) (messages st)
  /\ Forall (fun m => match section m with
                      | Some s => s <> [] /\ sectionHeader m = js "## " ++ s
                      | None => sectionHeader m = UNCATEGORIZED
                      end) (messages st)
  /\ currentSection st <> Some []
  /\ bufSection st <> Some [].

End TopicsProps.

(** ** Splitting an export into parts *)

(** [processFile] of the split script.  The stream delivers the elements
    of the messages array one by one; [isObject] is the test that the
    value is truthy and of type object, [fixPaths] is [fixPathsInObject]
    at the base name of the file.  The files written are kept as the
    list [written] of part numbers with their messages. *)
Module Splitter.

Definition MESSAGES_PER_FILE : nat := 100.

Record SplitState (A : Type) : Type := {
  messageBuffer : list A;
  partIndex : nat;
  totalMessages : nat;
  written : list (nat * list A)
}.
Arguments messageBuffer {A}.
Arguments partIndex {A}.
Arguments totalMessages {A}.
Arguments written {A}.

(** The handler of a data event. *)
Definition onData {A} (isObject : A -> bool) (fixPaths : A -> A)
    (st : SplitState A) (value : A) : SplitState A :=
  if isObject value then
    let buffer := messageBuffer st ++ [fixPaths value] in
    if MESSAGES_PER_FILE <=? length buffer then
      {| messageBuffer := [];
         partIndex := partIndex st + 1;
         totalMessages := totalMessages st + 1;
         written := written st ++ [(partIndex st, buffer)] |}
    else
      {| messageBuffer := buffer;
         partIndex := partIndex st;
         totalMessages := totalMessages st + 1;
         written := written st |}
  else st.

(** The handler of the end event: the files written, and the two numbers
    of the line that is logged, messages and parts. *)
Definition onEnd {A} (st : SplitState A) : list (nat * list A) * (nat * nat) :=
  let files := match messageBuffer st with
               | [] => written st
               | _ :: _ => written st ++ [(partIndex st, messageBuffer st)]
               end in
  (files, (totalMessages st, partIndex st)).

Definition processFile {A} (isObject : A -> bool) (fixPaths : A -> A)
    (values : list A) : list (nat * list A) * (nat * nat) :=
  onEnd (foldl (onData isObject fixPaths)
           {| messageBuffer := []; partIndex := 1; totalMessages := 0; written := [] |}
           values).

(** What holds between two data events: [q] full parts are written. *)
Definition splitInvariant {A} (isObject : A -> bool) (fixPaths : A -> A)
    (values : list A) (st : SplitState A) : Prop :=
  exists q,
    totalMessages st = MESSAGES_PER_FILE * q + length (messageBuffer st)
    /\ length (messageBuffer st) < MESSAGES_PER_FILE
    /\ partIndex st = q + 1
    /\ map fst (written st) = seq 1 q
    /\ map (fun p => length (snd p)) (written st) = replicate q MESSAGES_PER_FILE
    /\ concat (map snd (written st)) ++ messageBuffer st
       = map fixPaths (List.filter isObject values).

End Splitter.

(** ** Calling the model with retries *)

(** [generateTextWithRetry] of the curator and of the topic script, and
    [generateWithRetry] of the rating script.  [generateContent k] is
    what the body of the try block does at attempt [k]: it returns a
    text or throws.  The result carries the attempts made, in order; the
    log lines and the length of the sleep before the next attempt are
    left out, they do not influence the attempts. *)
Module Retry.

Inductive Outcome (T E : Type) : Type :=
| Returned (text : T)
| Thrown (error : E).
Arguments Returned {T E}.
Arguments Thrown {T E}.

Fixpoint generateTextWithRetry {T E} (generateContent : nat -> Outcome T E)
    (isRetryableError : E -> bool) (maxAttempts : Z)
    (fuel attempt : nat) : option (Outcome T E * list nat) :=
  match fuel with
  | 0 => None
  | S fuel' =>
      match generateContent attempt with
      | Returned text => Some (Returned text, [attempt])
      | Thrown error =>
          if (maxAttempts <? Z.of_nat attempt)%Z then Some (Thrown error, [attempt])
          else if isRetryableError error then
            match generateTextWithRetry generateContent isRetryableError maxAttempts
                    fuel' (attempt + 1) with
            | Some (r, attempts) => Some (r, attempt :: attempts)
            | None => None
            end
          else Some (Thrown error, [attempt])
      end
  end.


End Retry.

(** ** Facts on strings *)

Module JsStringFacts.

Lemma dropWhile_head p s c r : dropWhile p s = c :: r -> p c = false.
Proof.
  induction s as [|a s IH]; simpl; [discriminate|].
  destruct (p a) eqn:E; [exact IH|]. intros [= <- _]. exact E.
Qed.

Lemma dropWhile_stop p c r : p c = false -> dropWhile p (c :: r) = c :: r.
Proof. intros H. simpl. rewrite H. reflexivity. Qed.

Lemma takeWhile_dropWhile p s : takeWhile p s ++ dropWhile p s = s.
Proof.
  induction s as [|a s IH]; simpl; [reflexivity|].
  destruct (p a); simpl; [rewrite IH|]; reflexivity.
Qed.

Lemma dropWhile_all p s : Forall (fun c => p c = true) s -> dropWhile p s = [].
Proof.
  induction 1 as [|c s Hc _ IH]; simpl; [reflexivity|]. rewrite Hc. exact IH.
Qed.

(** A string of white space only trims to the empty string. *)
Lemma trim_blank s : Forall (fun c => isWhiteSpace c = true) s -> trim s = [].
Proof. intros H. unfold trim. rewrite (dropWhile_all _ s) by exact H. reflexivity. Qed.

(** A trimmed string starts and ends with no white space. *)
Lemma trim_idempotent s : trim (trim s) = trim s.
Proof.
  unfold trim.
  remember (dropWhile isWhiteSpace s) as t eqn:Et.
  remember (dropWhile isWhiteSpace (rev t)) as u eqn:Eu.
  assert (Hlead : dropWhile isWhiteSpace (rev u) = rev u).
  { destruct (rev u) as [|x w] eqn:Er; [reflexivity|].
    apply dropWhile_stop.
    assert (Hsplit := takeWhile_dropWhile isWhiteSpace (rev t)).
    rewrite <- Eu in Hsplit. apply (f_equal (@rev N)) in Hsplit.
    rewrite rev_app_distr, rev_involutive, Er in Hsplit. simpl in Hsplit.
    symmetry in Et. rewrite <- Hsplit in Et.
    eapply dropWhile_head, Et. }
  rewrite Hlead, rev_involutive.
  destruct u as [|x w]; [reflexivity|].
  rewrite dropWhile_stop; [reflexivity|].
  symmetry in Eu. eapply dropWhile_head, Eu.
Qed.

Lemma indexWhere_Some p s i :
  indexWhere p s = Some i ->
  (exists c, s !! i = Some c /\ p c = true)
  /\ (forall j c, j < i -> s !! j = Some c -> p c = false).
Proof.
  revert i. induction s as [|a s IH]; simpl; intros i; [discriminate|].
  destruct (p a) eqn:E.
  - intros [= <-]. split; [eauto|]. intros j c Hj. lia.
  - destruct (indexWhere p s) as [k|]; simpl; [|discriminate].
    intros [= <-]. destruct (IH k eq_refl) as [Hk Hbefore]. split; [exact Hk|].
    intros [|j] c Hj; simpl; [intros [= <-]; exact E|].
    apply Hbefore. lia.
Qed.

Lemma indexWhere_None p s :
  indexWhere p s = None -> forall j c, s !! j = Some c -> p c = false.
Proof.
  induction s as [|a s IH]; simpl; intros H j c; [rewrite lookup_nil; discriminate|].
  destruct (p a) eqn:E; [discriminate|].
  destruct (indexWhere p s); [discriminate|].
  destruct j as [|j]; simpl; [intros [= <-]; exact E|]. apply IH. reflexivity.
Qed.

End JsStringFacts.

(** ** Facts on the insertion applier *)

Module ApplierFacts.
Import Applier Props JsStringFacts.

Lemma core_report st r : core (report st r) = core st.
Proof. reflexivity. Qed.

(** One step reads the console output of the state nowhere. *)
Lemma applyOperation_core idx st st' op :
  core st = core st' ->
  core (applyOperation idx st op) = core (applyOperation idx st' op).
Proof.
  destruct st as [l c m n r], st' as [l' c' m' n' r'].
  unfold core; simpl. intros [= -> -> -> ->].
  unfold applyOperation; simpl.
  destruct (idx !! messageId op) as [msg|]; [|reflexivity].
  destruct (m' !! messageId op); [reflexivity|].
  unfold resolveSection; simpl.
  destruct (c' !! trim (category op)); simpl;
    match goal with |- context [resolvePosition ?a ?b ?c ?d] =>
      destruct (resolvePosition a b c d) end; reflexivity.
Qed.

Lemma foldl_core idx ops : forall st st',
  core st = core st' ->
  core (foldl (applyOperation idx) st ops) = core (foldl (applyOperation idx) st' ops).
Proof.
  induction ops as [|op ops IH]; intros st st' H; simpl; [exact H|].
  apply IH, applyOperation_core, H.
Qed.

Lemma shiftMessages_is_Some (k : nat) (m x : list N) (ids : gmap (list N) nat) :
  is_Some (shiftMessages k m ids !! x) <-> is_Some (ids !! x).
Proof.
  unfold shiftMessages. rewrite map_lookup_imap.
  destruct (ids !! x); simpl; split; intros [? ?]; eauto; discriminate.
Qed.

(** An anchored identifier stays anchored. *)
Lemma applyOperation_keeps_anchor idx st op x :
  is_Some (messageIdToLine st !! x) ->
  is_Some (messageIdToLine (applyOperation idx st op) !! x).
Proof.
  intros H. unfold applyOperation.
  destruct (idx !! messageId op); [|exact H].
  destruct (messageIdToLine st !! messageId op) eqn:E; [exact H|].
  destruct (resolvePosition _ _ _ _) as [k w]; simpl.
  apply shiftMessages_is_Some.
  destruct (decide (messageId op = x)) as [->|Hne].
  - rewrite lookup_insert_eq. eauto.
  - rewrite lookup_insert_ne; auto.
Qed.

Lemma foldl_keeps_anchor idx ops : forall st x,
  is_Some (messageIdToLine st !! x) ->
  is_Some (messageIdToLine (foldl (applyOperation idx) st ops) !! x).
Proof.
  induction ops as [|op ops IH]; intros st x H; simpl; [exact H|].
  apply IH, applyOperation_keeps_anchor, H.
Qed.

(** After an operation whose block exists, its identifier is anchored. *)
Lemma applyOperation_anchors idx st op msg :
  idx !! messageId op = Some msg ->
  is_Some (messageIdToLine (applyOperation idx st op) !! messageId op).
Proof.
  intros Hm. unfold applyOperation. rewrite Hm.
  destruct (messageIdToLine st !! messageId op) eqn:E; [simpl; rewrite E; eauto|].
  destruct (resolvePosition _ _ _ _) as [k w]; simpl.
  apply shiftMessages_is_Some. rewrite lookup_insert_eq. eauto.
Qed.

(** An operation on an anchored identifier only logs. *)
Lemma applyOperation_skips idx st op msg :
  idx !! messageId op = Some msg ->
  is_Some (messageIdToLine st !! messageId op) ->
  applyOperation idx st op = report st (LogAlreadyExists (messageId op)).
Proof.
  intros Hm [ln Hln]. unfold applyOperation. rewrite Hm, Hln. reflexivity.
Qed.

Lemma stateAfter_app doc ops1 ops2 idx :
  stateAfter doc (ops1 ++ ops2) idx
  = foldl (applyOperation idx) (stateAfter doc ops1 idx) ops2.
Proof. unfold stateAfter. apply foldl_app. Qed.

(** C1. A batch that contains the same operation twice, anywhere, gives
    the document text, the lines and the inserted count of the batch
    with the second occurrence removed: at its second occurrence the
    identifier is already anchored and the operation is skipped. *)
Theorem same_operation_twice idx doc pre mid post op msg :
  idx !! messageId op = Some msg ->
  let once := runOperations doc (pre ++ op :: mid ++ post) idx in
  let twice := runOperations doc (pre ++ op :: mid ++ op :: post) idx in
  let before := stateAfter doc (pre ++ op :: mid) idx in
  applyOperations doc (pre ++ op :: mid ++ op :: post) idx
    = applyOperations doc (pre ++ op :: mid ++ post) idx
  /\ newLines twice = newLines once
  /\ insertedCount twice = insertedCount once
  /\ is_Some (messageIdToLine before !! messageId op)
  /\ applyOperation idx before op = report before (LogAlreadyExists (messageId op)).
Proof.
  intros Hm once twice before.
  assert (Hanch : is_Some (messageIdToLine before !! messageId op)).
  { unfold before. rewrite stateAfter_app.
    change (foldl (applyOperation idx) ?s (op :: mid))
      with (foldl (applyOperation idx) (applyOperation idx s op) mid).
    apply foldl_keeps_anchor. eapply applyOperation_anchors, Hm. }
  assert (Hskip := applyOperation_skips idx before op msg Hm Hanch).
  assert (Hcore : core (stateAfter doc (pre ++ op :: mid ++ op :: post) idx)
                  = core (stateAfter doc (pre ++ op :: mid ++ post) idx)).
  { replace (pre ++ op :: mid ++ op :: post) with ((pre ++ op :: mid) ++ op :: post)
      by (rewrite <- app_assoc; reflexivity).
    replace (pre ++ op :: mid ++ post) with ((pre ++ op :: mid) ++ post)
      by (rewrite <- app_assoc; reflexivity).
    rewrite !(stateAfter_app doc (pre ++ op :: mid)). fold before.
    change (foldl (applyOperation idx) before (op :: post))
      with (foldl (applyOperation idx) (applyOperation idx before op) post).
    rewrite Hskip. apply foldl_core, core_report. }
  unfold core in Hcore. injection Hcore as Hl Hc Hi Hn.
  unfold applyOperations, twice, once, runOperations; simpl.
  rewrite Hl, Hn. auto.
Qed.

(** The claim at a sample: the block of message 1 appended twice. *)
Lemma same_operation_twice_witness :
  Samples.index !! messageId Samples.appendA = Some Samples.msgA
  /\ applyOperations Samples.emptyDocument [Samples.appendA; Samples.appendA] Samples.index
     = applyOperations Samples.emptyDocument [Samples.appendA] Samples.index.
Proof.
  split; [reflexivity|].
  apply (same_operation_twice Samples.index Samples.emptyDocument [] [] []
           Samples.appendA Samples.msgA).
  reflexivity.
Defined.

(** *** Lines and indexes *)

Lemma splice_lookup_before (doc : list (list N)) k block i line :
  i < k -> doc !! i = Some line -> splice doc k block !! i = Some line.
Proof.
  intros Hi Hl. unfold splice.
  assert (i < length doc) by (eapply lookup_lt_Some, Hl).
  rewrite lookup_app_l by (rewrite length_take; lia).
  rewrite lookup_take_lt by lia. exact Hl.
Qed.

Lemma splice_lookup_after (doc : list (list N)) k block i line :
  k <= i -> doc !! i = Some line -> splice doc k block !! (i + 1) = Some line.
Proof.
  intros Hi Hl. unfold splice.
  assert (i < length doc) by (eapply lookup_lt_Some, Hl).
  rewrite lookup_app_r by (rewrite length_take; lia).
  rewrite length_take. replace (i + 1 - k `min` length doc) with (S (i - k)) by lia.
  simpl. rewrite lookup_drop. replace (k + (i - k)) with i by lia. exact Hl.
Qed.

Lemma scanHeader_Some rest : forall j k,
  scanHeader j rest = Some k ->
  j <= k < j + length rest
  /\ (exists line, rest !! (k - j) = Some line /\ isHeader line = true)
  /\ (forall i line, i < k - j -> rest !! i = Some line -> isHeader line = false).
Proof.
  induction rest as [|l rest IH]; simpl; intros j k; [discriminate|].
  destruct (isHeader l) eqn:E.
  - intros [= <-]. replace (j - j) with 0 by lia. simpl.
    split; [lia|]. split; [eauto|]. intros i line Hi; lia.
  - intros H. destruct (IH _ _ H) as (Hr & (line & Hl & Hh) & Hb).
    split; [lia|]. replace (k - j) with (S (k - S j)) by lia. simpl.
    split; [eauto|]. intros [|i] line' Hi; simpl; [intros [= <-]; exact E|].
    apply Hb. lia.
Qed.

Lemma scanHeader_None rest : forall j,
  scanHeader j rest = None ->
  forall i line, rest !! i = Some line -> isHeader line = false.
Proof.
  induction rest as [|l rest IH]; simpl; intros j H i line;
    [rewrite lookup_nil; discriminate|].
  destruct (isHeader l) eqn:E; [discriminate|].
  destruct i as [|i]; simpl; [intros [= <-]; exact E|]. eapply IH, H.
Qed.

(** [nextCat] is the end of the section of an existing header line. *)
Lemma nextCat_endOfSection doc c :
  c < length doc -> endOfSection doc c (nextCat doc c).
Proof.
  intros Hc. unfold nextCat, endOfSection.
  destruct (scanHeader (S c) (drop (S c) doc)) as [k|] eqn:E; simpl.
  - destruct (scanHeader_Some _ _ _ E) as (Hr & (line & Hl & Hh) & Hb).
    rewrite length_drop in Hr. rewrite lookup_drop in Hl.
    replace (S c + (k - S c)) with k in Hl by lia.
    split; [lia|]. split; [|right; eauto].
    intros j l Hj Hjl. apply (Hb (j - S c) l); [lia|].
    rewrite lookup_drop. replace (S c + (j - S c)) with j by lia. exact Hjl.
  - split; [lia|]. split; [|left; reflexivity].
    intros j l Hj Hjl. apply (scanHeader_None _ _ E (j - S c) l).
    rewrite lookup_drop. replace (S c + (j - S c)) with j by lia. exact Hjl.
Qed.

(** *** The section index points at header lines *)

Lemma indexLines_headers (rest : list (list N)) : forall (pre : list (list N)) cats ids,
  (forall cat i, cats !! cat = Some i ->
     exists line, (pre ++ rest) !! i = Some line /\ trim line = cat) ->
  forall cat i, (indexLines (length pre) rest cats ids).1 !! cat = Some i ->
    exists line, (pre ++ rest) !! i = Some line /\ trim line = cat.
Proof.
  induction rest as [|l rest IH]; intros pre cats ids Hc; simpl; [exact Hc|].
  replace (pre ++ l :: rest) with ((pre ++ [l]) ++ rest)
    by (rewrite <- app_assoc; reflexivity).
  replace (S (length pre)) with (length (pre ++ [l]))
    by (rewrite length_app; simpl; lia).
  apply IH. intros cat i. rewrite <- app_assoc. simpl.
  destruct (isHeader l); [|apply Hc].
  destruct (decide (trim l = cat)) as [<-|Hne].
  - rewrite lookup_insert_eq. intros [= <-]. exists l. split; [|reflexivity].
    rewrite lookup_app_r by lia. replace (length pre - length pre) with 0 by lia.
    reflexivity.
  - rewrite lookup_insert_ne by exact Hne. apply Hc.
Qed.

Lemma initialState_headersIndexed doc : headersIndexed (initialState doc).
Proof.
  unfold headersIndexed, initialState. intros cat i.
  assert (H := indexLines_headers doc [] ∅ ∅). simpl in H.
  destruct (indexLines 0 doc ∅ ∅) as [cats ids]; simpl in *.
  apply H. intros c j. rewrite lookup_empty. discriminate.
Qed.

Lemma resolveSection_headers st cat :
  headersIndexed st -> trim cat = cat ->
  let sec := resolveSection st cat in
  (forall c i, cats sec !! c = Some i ->
     exists line, lines sec !! i = Some line /\ trim line = c)
  /\ cats sec !! cat = Some (catLine sec).
Proof.
  intros Hinv Hcat. unfold resolveSection.
  destruct (categoryIndex st !! cat) as [c0|] eqn:E; simpl.
  - split; [exact Hinv | exact E].
  - rewrite length_app. simpl.
    replace (length (newLines st) + 3 - 2) with (length (newLines st) + 1) by lia.
    split; [|apply lookup_insert_eq].
    intros c i. destruct (decide (cat = c)) as [<-|Hne].
    + rewrite lookup_insert_eq. intros [= <-]. exists cat. split; [|exact Hcat].
      rewrite lookup_app_r by lia.
      replace (length (newLines st) + 1 - length (newLines st)) with 1 by lia.
      reflexivity.
    + rewrite lookup_insert_ne by exact Hne. intros Hc.
      destruct (Hinv _ _ Hc) as (line & Hl & Ht). exists line. split; [|exact Ht].
      rewrite lookup_app_l; [exact Hl|]. eapply lookup_lt_Some, Hl.
Qed.

Lemma applyOperation_headersIndexed idx st op :
  headersIndexed st -> headersIndexed (applyOperation idx st op).
Proof.
  intros Hinv. unfold applyOperation.
  destruct (idx !! messageId op) as [msg|]; [|exact Hinv].
  destruct (messageIdToLine st !! messageId op); [exact Hinv|].
  destruct (resolveSection_headers st (trim (category op)) Hinv (trim_idempotent _))
    as [Hsec _].
  destruct (resolvePosition _ _ _ _) as [k w].
  unfold headersIndexed; simpl. intros cat i.
  unfold shiftCategories. rewrite lookup_fmap.
  destruct (cats (resolveSection st (trim (category op))) !! cat) as [i0|] eqn:E;
    simpl; [|discriminate].
  destruct (Hsec _ _ E) as (line & Hl & Ht).
  intros [= <-]. exists line. split; [|exact Ht].
  destruct (decide (k <= i0)).
  - apply splice_lookup_after; assumption.
  - apply splice_lookup_before; [lia | exact Hl].
Qed.

Lemma stateAfter_headersIndexed doc ops idx : headersIndexed (stateAfter doc ops idx).
Proof.
  unfold stateAfter.
  assert (H := initialState_headersIndexed doc). revert H.
  generalize (initialState doc). induction ops as [|op ops IH]; intros st H; simpl;
    [exact H|]. apply IH, applyOperation_headersIndexed, H.
Qed.

(** In a state of a run the resolved section is a line of the document
    whose trimmed text is the section name. *)
Lemma resolved_header doc pre idx cat :
  let sec := resolveSection (stateAfter doc pre idx) (trim cat) in
  exists header, lines sec !! catLine sec = Some header /\ trim header = trim cat.
Proof.
  destruct (resolveSection_headers (stateAfter doc pre idx) (trim cat)
              (stateAfter_headersIndexed doc pre idx) (trim_idempotent _))
    as [Hsec Hcat].
  apply Hsec, Hcat.
Qed.

(** The state after an operation that passes both checks. *)
Lemma applyOperation_inserts idx st op msg :
  idx !! messageId op = Some msg ->
  messageIdToLine st !! messageId op = None ->
  let sec := resolveSection st (trim (category op)) in
  let pos := resolvePosition (position op) (lines sec) (messageIdToLine st) (catLine sec) in
  let st' := applyOperation idx st op in
  newLines st' = splice (lines sec) pos.1 (formatMessageBlock msg idx)
  /\ insertedCount st' = insertedCount st + 1
  /\ reports st' = reports st ++ created sec ++ pos.2.
Proof.
  intros Hm Hn. unfold applyOperation. rewrite Hm, Hn.
  destruct (resolvePosition _ _ _ _) as [k w]; simpl. auto.
Qed.

(** *** Position fallbacks *)

(** C5. In any state of a run, for an operation that passes the
    existence and the idempotency check: when its [afterId] is not in
    the anchor index, the block is inserted at the end of the target
    section and a warning is reported; when it has no [afterId] and its
    [beforeId] is not in the anchor index, the block is inserted right
    after the section's header line and a warning is reported. In both
    cases the operation counts as inserted and the rest of the batch is
    applied to the resulting state. *)
Theorem unresolved_anchor_falls_back idx doc pre op msg :
  let st := stateAfter doc pre idx in
  idx !! messageId op = Some msg ->
  messageIdToLine st !! messageId op = None ->
  let st' := applyOperation idx st op in
  let sec := resolveSection st (trim (category op)) in
  let block := formatMessageBlock msg idx in
  (exists header,
      lines sec !! catLine sec = Some header /\ trim header = trim (category op))
  /\ (forall a b,
        position op = PosObject (Some a) b -> a <> [] ->
        messageIdToLine st !! a = None ->
        let k := nextCat (lines sec) (catLine sec) in
        endOfSection (lines sec) (catLine sec) k
        /\ newLines st' = take k (lines sec) ++ block :: drop k (lines sec)
        /\ reports st' = reports st ++ created sec ++ [WarnAfterIdNotFound a]
        /\ insertedCount st' = insertedCount st + 1)
  /\ (forall a b,
        position op = PosObject a (Some b) -> truthy a = false -> b <> [] ->
        messageIdToLine st !! b = None ->
        let k := catLine sec + 1 in
        newLines st' = take k (lines sec) ++ block :: drop k (lines sec)
        /\ reports st' = reports st ++ created sec ++ [WarnBeforeIdNotFound b]
        /\ insertedCount st' = insertedCount st + 1)
  /\ (forall rest,
        stateAfter doc (pre ++ op :: rest) idx = foldl (applyOperation idx) st' rest).
Proof.
  intros st Hm Hn st' sec block.
  destruct (applyOperation_inserts idx st op msg Hm Hn) as (Hl & Hc & Hr).
  assert (Hhead := resolved_header doc pre idx (category op)).
  fold st in Hhead. simpl in Hhead. fold sec in Hhead, Hl, Hr.
  split; [exact Hhead|]. split; [|split].
  - intros a b Hp Ha Hna k.
    rewrite Hp in Hl, Hr. simpl in Hl, Hr.
    destruct a as [|x a]; [congruence|]. rewrite Hna in Hl, Hr. simpl in Hl, Hr.
    split; [|auto].
    apply nextCat_endOfSection.
    destruct Hhead as (h & Hh & _). eapply lookup_lt_Some, Hh.
  - intros a b Hp Ha Hb Hnb k.
    rewrite Hp in Hl, Hr.
    destruct b as [|y b]; [congruence|].
    destruct a as [[|x a]|]; simpl in Ha; try discriminate;
      simpl in Hl, Hr; rewrite Hnb in Hl, Hr; simpl in Hl, Hr; auto.
  - intros rest. rewrite stateAfter_app. reflexivity.
Qed.

(** The claim at a sample: message 2 placed after, then before, the
    unknown block 999 in the section Food of a two-section document. *)
Lemma unresolved_anchor_falls_back_witness :
  let st := stateAfter Samples.foodDocument [] Samples.index in
  let blockB := formatMessageBlock Samples.msgB Samples.index in
  newLines (applyOperation Samples.index st Samples.afterMissing)
    = [[]; Samples.food; []; js "[2024-01-01] first[10]"; blockB; js "## Money"; []]
  /\ reports (applyOperation Samples.index st Samples.afterMissing)
    = [WarnAfterIdNotFound (js "999")]
  /\ newLines (applyOperation Samples.index st Samples.beforeMissing)
    = [[]; Samples.food; blockB; []; js "[2024-01-01] first[10]"; js "## Money"; []]
  /\ reports (applyOperation Samples.index st Samples.beforeMissing)
    = [WarnBeforeIdNotFound (js "999")].
Proof.
  intros st blockB.
  destruct (unresolved_anchor_falls_back Samples.index Samples.foodDocument []
              Samples.afterMissing Samples.msgB eq_refl eq_refl)
    as (_ & Hafter & _ & _).
  destruct (unresolved_anchor_falls_back Samples.index Samples.foodDocument []
              Samples.beforeMissing Samples.msgB eq_refl eq_refl)
    as (_ & _ & Hbefore & _).
  destruct (Hafter (js "999") None eq_refl) as (_ & Hl1 & Hr1 & _);
    [discriminate | reflexivity |].
  destruct (Hbefore None (js "999") eq_refl eq_refl) as (Hl2 & Hr2 & _);
    [discriminate | reflexivity |].
  split; [exact Hl1|]. split; [exact Hr1|]. split; [exact Hl2 | exact Hr2].
Defined.

(** C10. In any state of a run, for an operation that passes the
    existence and the idempotency check: when its position is a string
    other than append and prepend, an object whose [afterId] and
    [beforeId] are both absent or falsy, or no string and no object at
    all, the block is inserted right after the section's header line,
    nothing is reported beyond the creation of the section, and the
    operation counts as inserted. *)
Theorem unknown_position_prepends idx doc pre op msg :
  let st := stateAfter doc pre idx in
  idx !! messageId op = Some msg ->
  messageIdToLine st !! messageId op = None ->
  match position op with
  | PosString s => s <> js "append" /\ s <> js "prepend"
  | PosObject a b => truthy a = false /\ truthy b = false
  | PosOther => True
  end ->
  let st' := applyOperation idx st op in
  let sec := resolveSection st (trim (category op)) in
  let k := catLine sec + 1 in
  (exists header,
      lines sec !! catLine sec = Some header /\ trim header = trim (category op))
  /\ newLines st' = take k (lines sec) ++ formatMessageBlock msg idx :: drop k (lines sec)
  /\ reports st' = reports st ++ created sec
  /\ Forall (fun r => isWarning r = false) (created sec)
  /\ insertedCount st' = insertedCount st + 1.
Proof.
  intros st Hm Hn Hpos st' sec k.
  destruct (applyOperation_inserts idx st op msg Hm Hn) as (Hl & Hc & Hr).
  assert (Hhead := resolved_header doc pre idx (category op)).
  fold st in Hhead. simpl in Hhead. fold sec in Hhead, Hl, Hr.
  split; [exact Hhead|].
  assert (Hres : resolvePosition (position op) (lines sec) (messageIdToLine st)
                   (catLine sec) = (k, [])).
  { destruct (position op) as [s|a b|]; simpl; [| |reflexivity].
    - destruct Hpos as [Ha Hp].
      destruct (decide (s = js "prepend")); [reflexivity|].
      destruct (decide (s = js "append")); [contradiction | reflexivity].
    - destruct Hpos as [Ha Hb].
      destruct a as [[|x a]|], b as [[|y b]|]; simpl in Ha, Hb;
        try discriminate; reflexivity. }
  rewrite Hres in Hl, Hr. simpl in Hl, Hr. rewrite app_nil_r in Hr.
  split; [exact Hl|]. split; [exact Hr|]. split; [|exact Hc].
  unfold sec, resolveSection.
  destruct (categoryIndex st !! trim (category op)); simpl; repeat constructor.
Qed.

(** The claim at a sample: position middle in the section Food. *)
Lemma unknown_position_prepends_witness :
  let st := stateAfter Samples.foodDocument [] Samples.index in
  newLines (applyOperation Samples.index st Samples.middleA)
    = [[]; Samples.food; Samples.blockA; []; js "[2024-01-01] first[10]";
       js "## Money"; []]
  /\ reports (applyOperation Samples.index st Samples.middleA) = []
  /\ insertedCount (applyOperation Samples.index st Samples.middleA) = 1.
Proof.
  intros st.
  destruct (unknown_position_prepends Samples.index Samples.foodDocument []
              Samples.middleA Samples.msgA eq_refl eq_refl)
    as (_ & Hl & Hr & _ & Hc).
  - split; discriminate.
  - split; [exact Hl|]. split; [exact Hr | exact Hc].
Defined.

(** *** Section names *)

(** C6, as claimed, fails: an operation whose section name is three
    spaces is applied to the empty document like any other; the
    document gains four lines and the operation counts as inserted. *)
Lemma blank_section_counterexample :
  let st := initialState Samples.emptyDocument in
  let st' := applyOperation Samples.index st Samples.blankSection in
  blank (category Samples.blankSection)
  /\ newLines st' = [[]; []; []; []; Samples.blockA]
  /\ insertedCount st' = 1
  /\ ~ rejected st st'.
Proof.
  intros st st'. split; [repeat constructor|].
  split; [reflexivity|]. split; [reflexivity|].
  intros [Hl _]. discriminate Hl.
Qed.

(** C6, amended. In any state of a run, an operation whose section name
    is empty or white space only, and which passes the existence and the
    idempotency check, is not rejected: its section name is the empty
    string; when no section of that name is recorded, three empty lines
    are appended to the document first, and the line of the section is
    one that trims to the empty string; the block is spliced into these
    lines at the position that the position of the operation resolves
    to in that section, which for append is the end of the section and
    for prepend the line below its header; the operation counts as
    inserted; the reports are the creation of the section, if it was
    created, and the warnings of the position resolution, nothing else;
    and the rest of the batch is applied to the resulting state. *)
Theorem blank_section_is_inserted idx doc pre op msg :
  let st := stateAfter doc pre idx in
  blank (category op) ->
  idx !! messageId op = Some msg ->
  messageIdToLine st !! messageId op = None ->
  let st' := applyOperation idx st op in
  let sec := resolveSection st [] in
  let pos := resolvePosition (position op) (lines sec) (messageIdToLine st)
               (catLine sec) in
  trim (category op) = []
  /\ (categoryIndex st !! [] = None ->
      lines sec = newLines st ++ [[]; []; []]
      /\ catLine sec = length (newLines st) + 1
      /\ created sec = [LogCreatedCategory []])
  /\ (is_Some (categoryIndex st !! []) -> lines sec = newLines st /\ created sec = [])
  /\ (exists header, lines sec !! catLine sec = Some header /\ trim header = [])
  /\ newLines st' = take pos.1 (lines sec)
                    ++ formatMessageBlock msg idx :: drop pos.1 (lines sec)
  /\ (position op = PosString (js "append") ->
      pos.1 = nextCat (lines sec) (catLine sec))
  /\ (position op = PosString (js "prepend") -> pos.1 = catLine sec + 1)
  /\ insertedCount st' = insertedCount st + 1
  /\ reports st' = reports st ++ created sec ++ pos.2
  /\ Forall (fun r => match r with
                      | LogCreatedCategory c => c = []
                      | WarnAfterIdNotFound _ | WarnBeforeIdNotFound _ => True
                      | _ => False
                      end) (created sec ++ pos.2)
  /\ (forall rest,
        stateAfter doc (pre ++ op :: rest) idx = foldl (applyOperation idx) st' rest).
Proof.
  intros st Hb Hm Hn st' sec pos.
  assert (Ht : trim (category op) = []) by (apply trim_blank, Hb).
  destruct (applyOperation_inserts idx st op msg Hm Hn) as (Hl & Hc & Hr).
  assert (Hhead := resolved_header doc pre idx (category op)).
  fold st in Hhead. simpl in Hhead.
  rewrite Ht in Hl, Hr, Hhead. fold sec in Hl, Hr, Hhead. fold pos in Hl, Hr.
  split; [exact Ht|].
  split; [|split; [|split; [|split; [|split; [|split; [|split; [|split; [|split]]]]]]]].
  - intros E. unfold sec, resolveSection. rewrite E. simpl.
    rewrite length_app. simpl. repeat split. lia.
  - intros [c E]. unfold sec, resolveSection. rewrite E. split; reflexivity.
  - exact Hhead.
  - exact Hl.
  - intros E. unfold pos. rewrite E. reflexivity.
  - intros E. unfold pos. rewrite E. reflexivity.
  - exact Hc.
  - exact Hr.
  - apply Forall_app. split.
    + unfold sec, resolveSection. destruct (categoryIndex st !! []); simpl;
        repeat constructor.
    + unfold pos. destruct (position op) as [s|a b|]; simpl; [| |constructor].
      * repeat case_decide; constructor.
      * destruct a as [[|x a]|], b as [[|y b]|]; simpl;
          repeat match goal with
                 | |- context [?m !! ?key] => destruct (m !! key)
                 end; repeat constructor.
  - intros rest. unfold st', st. rewrite stateAfter_app. reflexivity.
Qed.

(** The amended claim at the sample of the counterexample: the three
    spaces name the empty section, the block lands on the fifth line,
    after the three empty lines of the new section, and the operation
    that follows in the batch is applied to that state. *)
Lemma blank_section_is_inserted_witness :
  let st := stateAfter Samples.emptyDocument [] Samples.index in
  let st' := applyOperation Samples.index st Samples.blankSection in
  blank (category Samples.blankSection)
  /\ trim (category Samples.blankSection) = []
  /\ newLines st' = [[]; []; []; []; Samples.blockA]
  /\ insertedCount st' = 1
  /\ stateAfter Samples.emptyDocument [Samples.blankSection; Samples.blankSection]
       Samples.index
     = foldl (applyOperation Samples.index) st' [Samples.blankSection].
Proof.
  intros st st'.
  assert (Hb : blank (category Samples.blankSection)) by repeat constructor.
  destruct (blank_section_is_inserted Samples.index Samples.emptyDocument []
              Samples.blankSection Samples.msgA Hb eq_refl eq_refl)
    as (Ht & _ & _ & _ & Hl & _ & _ & Hc & _ & _ & Hrest).
  split; [exact Hb|]. split; [exact Ht|]. split; [exact Hl|].
  split; [exact Hc|]. exact (Hrest [Samples.blankSection]).
Defined.

(** C7, as claimed, fails: the text gained by the empty document is
    not a line feed, the header, two line feeds, the block and a line
    feed, whether the empty document is read as one empty line or as
    no line at all, and whether the section is named with or without
    the header prefix. *)
Lemma empty_document_counterexample :
  let claimed := [NL] ++ js "## Food" ++ [NL; NL] ++ Samples.blockA ++ [NL] in
  let named cat := {| messageId := js "1"; category := cat;
                      position := PosString (js "append") |} in
  formatMessageBlock Samples.msgA Samples.index = Samples.blockA
  /\ applyOperations (splitLines []) [named (js "## Food")] Samples.index <> claimed
  /\ applyOperations [] [named (js "## Food")] Samples.index <> claimed
  /\ applyOperations (splitLines []) [named (js "Food")] Samples.index <> claimed
  /\ applyOperations [] [named (js "Food")] Samples.index <> claimed.
Proof.
  intros claimed named. split; [reflexivity|].
  repeat split; intros H; vm_compute in H; discriminate H.
Qed.

Lemma nextCat_created (old : list (list N)) cat :
  nextCat (old ++ [[]; cat; []]) (length (old ++ [[]; cat; []]) - 2)
  = length (old ++ [[]; cat; []]).
Proof.
  unfold nextCat. rewrite length_app. simpl.
  replace (S (length old + 3 - 2)) with (length old + 2) by lia.
  rewrite drop_app_add. reflexivity.
Qed.

(** C7, amended. For an operation with position append whose block
    exists: applied to a state where the block is not anchored and the
    trimmed section name is not recorded, the document gains four
    lines at its end, an empty line, the trimmed section name, an empty
    line and the block; so the empty document, read as one empty line,
    becomes two line feeds, the section name, two line feeds and the
    block, with no line feed at the end. Whatever the position, the
    missing section is appended as an empty line, the section name and
    an empty line. *)
Theorem missing_section_is_appended idx op msg :
  idx !! messageId op = Some msg ->
  position op = PosString (js "append") ->
  let cat := trim (category op) in
  let block := formatMessageBlock msg idx in
  (forall st, categoryIndex st !! cat = None ->
      lines (resolveSection st cat) = newLines st ++ [[]; cat; []]
      /\ catLine (resolveSection st cat) = length (newLines st) + 1)
  /\ (forall st, messageIdToLine st !! messageId op = None ->
        categoryIndex st !! cat = None ->
        newLines (applyOperation idx st op) = newLines st ++ [[]; cat; []; block])
  /\ applyOperations (splitLines []) [op] idx = [NL; NL] ++ cat ++ [NL; NL] ++ block
  /\ applyOperations [] [op] idx = [NL] ++ cat ++ [NL; NL] ++ block.
Proof.
  intros Hm Hp cat block.
  assert (Hsec : forall st, categoryIndex st !! cat = None ->
            lines (resolveSection st cat) = newLines st ++ [[]; cat; []]
            /\ catLine (resolveSection st cat) = length (newLines st) + 1).
  { intros st E. unfold resolveSection. rewrite E. simpl.
    split; [reflexivity|]. rewrite length_app. simpl. lia. }
  assert (Hins : forall st, messageIdToLine st !! messageId op = None ->
            categoryIndex st !! cat = None ->
            newLines (applyOperation idx st op) = newLines st ++ [[]; cat; []; block]).
  { intros st Hn E.
    destruct (applyOperation_inserts idx st op msg Hm Hn) as (Hl & _ & _).
    rewrite Hl, Hp. fold cat. unfold resolveSection. rewrite E. simpl.
    rewrite nextCat_created. unfold splice.
    rewrite take_ge, drop_ge by lia. rewrite <- app_assoc. reflexivity. }
  split; [exact Hsec|]. split; [exact Hins|].
  unfold applyOperations, runOperations, stateAfter. simpl.
  split.
  - rewrite (Hins (initialState [[]])) by reflexivity. simpl.
    destruct cat; reflexivity.
  - rewrite (Hins (initialState [])) by reflexivity. simpl.
    destruct cat; reflexivity.
Qed.

(** The amended claim at the sample of the claim. *)
Lemma missing_section_is_appended_witness :
  Samples.index !! messageId Samples.appendA = Some Samples.msgA
  /\ applyOperations Samples.emptyDocument [Samples.appendA] Samples.index
     = [NL; NL] ++ js "## Food" ++ [NL; NL] ++ Samples.blockA.
Proof.
  split; [reflexivity|].
  destruct (missing_section_is_appended Samples.index Samples.appendA Samples.msgA
              eq_refl eq_refl) as (_ & _ & H & _).
  exact H.
Defined.

(** *** Scenarios *)

(** A block appended to an existing section lands after the blocks of
    the section and before the next header. *)
Example append_lands_before_next_header :
  newLines (stateAfter Samples.foodDocument [Samples.appendA] Samples.index)
  = [[]; Samples.food; []; js "[2024-01-01] first[10]"; Samples.blockA;
     js "## Money"; []].
Proof. reflexivity. Qed.

(** The same operation applied twice inserts one block. *)
Example second_application_is_skipped :
  let st := runOperations Samples.foodDocument [Samples.appendA; Samples.appendA]
              Samples.index in
  insertedCount st = 1
  /\ reports st = [LogAlreadyExists (js "1"); LogApplied 1 2].
Proof. split; reflexivity. Qed.

(** *** Reply prefaces *)

Ltac not_resident :=
  let i := fresh "i" in let line := fresh "line" in
  let Hl := fresh "Hl" in let Ha := fresh "Ha" in
  intros (i & line & Hl & Ha);
  repeat (destruct i as [|i];
          [injection Hl as <-; vm_compute in Ha; discriminate Ha|]);
  discriminate Hl.

(** C9, as claimed, fails in both directions. Message 2 replies to
    message 1, which is in the batch and in no line of the document,
    before or after the insertion: its block has the snippet preface.
    Message 4 replies to block 10, which is resident in the document and
    not in the batch: its block has the reference notation. *)
Lemma reply_preface_counterexample :
  let blockB := formatMessageBlock Samples.msgB Samples.index in
  let blockD := formatMessageBlock Samples.msgD Samples.index in
  let docB := newLines (stateAfter Samples.emptyDocument [Samples.appendB] Samples.index) in
  (replyTo Samples.msgB = Some (js "1")
   /\ ~ (hasSnippetPreface blockB <-> resident Samples.emptyDocument (js "1"))
   /\ ~ (hasSnippetPreface blockB <-> resident docB (js "1")))
  /\ (replyTo Samples.msgD = Some (js "10")
      /\ hasReferencePreface (js "10") blockD
      /\ ~ (hasSnippetPreface blockD <-> resident Samples.foodDocument (js "10"))).
Proof.
  intros blockB blockD docB.
  assert (HB : hasSnippetPreface blockB).
  { exists (js "Ramen is cheap"), (plainBlock Samples.msgB). reflexivity. }
  assert (HD : ~ hasSnippetPreface blockD).
  { intros (sn & rest & H). vm_compute in H. discriminate H. }
  split; split; try reflexivity.
  - split.
    + intros [H _]. apply H in HB. revert HB. not_resident.
    + intros [H _]. apply H in HB. revert HB. not_resident.
  - split.
    + exists (plainBlock Samples.msgD). reflexivity.
    + intros [_ H]. apply HD, H. exists 3, (js "[2024-01-01] first[10]").
      split; reflexivity.
Qed.

(** C9, amended. For a block with a non-empty reply reference [r], the
    preface is the quoted snippet, the first 60 code units of the
    referenced content, trimmed, exactly when the batch's message index
    has [r]; otherwise it is the line naming [r] only. The document
    plays no part. *)
Theorem reply_preface_follows_block_source msg idx r :
  replyTo msg = Some r -> r <> [] ->
  let block := formatMessageBlock msg idx in
  (hasSnippetPreface block <-> is_Some (idx !! r))
  /\ (forall replyMsg, idx !! r = Some replyMsg ->
        block = js "> In reply to: " ++ [QUOTE] ++ trim (take 60 (content replyMsg))
                  ++ [QUOTE; NL] ++ plainBlock msg)
  /\ (idx !! r = None ->
        block = js "> (Reply to ID: " ++ r ++ js ")" ++ [NL] ++ plainBlock msg
        /\ hasReferencePreface r block).
Proof.
  intros Hr Hne block.
  assert (Hsome : forall replyMsg, idx !! r = Some replyMsg ->
            block = js "> In reply to: " ++ [QUOTE] ++ trim (take 60 (content replyMsg))
                      ++ [QUOTE; NL] ++ plainBlock msg).
  { intros m' E. unfold block, formatMessageBlock, plainBlock, formatMessageBlock.
    rewrite Hr. destruct r as [|x r]; [congruence|]. rewrite E. reflexivity. }
  assert (Hnone : idx !! r = None ->
            block = js "> (Reply to ID: " ++ r ++ js ")" ++ [NL] ++ plainBlock msg).
  { intros E. unfold block, formatMessageBlock, plainBlock, formatMessageBlock.
    rewrite Hr. destruct r as [|x r]; [congruence|]. rewrite E. reflexivity. }
  split; [|split; [exact Hsome|]].
  - split.
    + intros (sn & rest & H). destruct (idx !! r) as [m'|] eqn:E; [eauto|].
      rewrite (Hnone eq_refl) in H. simpl in H. discriminate H.
    + intros [m' E]. rewrite (Hsome m' E). eexists _, _. reflexivity.
  - intros E. split; [exact (Hnone E)|]. rewrite (Hnone E). eexists. reflexivity.
Qed.

(** The amended claim at the two samples of the counterexample. *)
Lemma reply_preface_follows_block_source_witness :
  replyTo Samples.msgB = Some (js "1")
  /\ formatMessageBlock Samples.msgB Samples.index
     = js "> In reply to: " ++ [QUOTE] ++ js "Ramen is cheap" ++ [QUOTE; NL]
         ++ js "[2024-01-03] Agreed[2]"
  /\ formatMessageBlock Samples.msgD Samples.index
     = js "> (Reply to ID: 10)" ++ [NL] ++ js "[UNKNOWN-DATE] Thanks[4]".
Proof.
  split; [reflexivity|].
  destruct (reply_preface_follows_block_source Samples.msgB Samples.index (js "1")
              eq_refl) as (_ & HB & _); [discriminate|].
  destruct (reply_preface_follows_block_source Samples.msgD Samples.index (js "10")
              eq_refl) as (_ & _ & HD); [discriminate|].
  split; [exact (HB Samples.msgA eq_refl) | exact (proj1 (HD eq_refl))].
Defined.

End ApplierFacts.

(** ** Facts on the citation renderer *)

Module FootnotesFacts.
Import Footnotes Props JsStringFacts.

Lemma skipClosing_spec rest : forall idx,
  let k := skipClosing rest idx in
  idx <= k <= idx + length rest
  /\ (forall i c, i < k - idx -> rest !! i = Some c -> isClosing c = true)
  /\ (forall c, rest !! (k - idx) = Some c -> isClosing c = false).
Proof.
  induction rest as [|a rest IH]; intros idx; simpl.
  - split; [lia|]. split; [intros i c Hi; lia|].
    intros c. rewrite lookup_nil. discriminate.
  - destruct (isClosing a) eqn:E.
    + destruct (IH (S idx)) as (Hr & Hrun & Hend).
      split; [lia|]. split.
      * intros [|i] c Hi; simpl; [intros [= <-]; exact E|]. apply Hrun. lia.
      * intros c.
        replace (skipClosing rest (S idx) - idx)
          with (S (skipClosing rest (S idx) - S idx)) by lia.
        simpl. apply Hend.
    + split; [lia|]. split; [intros i c Hi; lia|].
      replace (idx - idx) with 0 by lia. simpl. intros c [= <-]. exact E.
Qed.

Lemma skipClosing_run text i :
  i <= length text -> closingRun text i (skipClosing (drop i text) i).
Proof.
  intros Hi. destruct (skipClosing_spec (drop i text) i) as (Hr & Hrun & Hend).
  rewrite length_drop in Hr. unfold closingRun.
  split; [lia|]. split.
  - intros j c Hj Hc. apply (Hrun (j - i) c); [lia|].
    rewrite lookup_drop. replace (i + (j - i)) with j by lia. exact Hc.
  - intros c Hc. apply Hend. rewrite lookup_drop.
    replace (i + (skipClosing (drop i text) i - i))
      with (skipClosing (drop i text) i) by lia.
    exact Hc.
Qed.

(** The index found in the tail is the first position in the text. *)
Lemma indexWhere_firstFrom p text start m :
  indexWhere p (drop start text) = Some m -> firstFrom p text start (start + m).
Proof.
  intros H. destruct (indexWhere_Some _ _ _ H) as ((c & Hc & Hp) & Hb).
  rewrite lookup_drop in Hc. unfold firstFrom.
  split; [lia|]. split; [eauto|].
  intros j d Hj Hd. apply (Hb (j - start) d); [lia|].
  rewrite lookup_drop. replace (start + (j - start)) with j by lia. exact Hd.
Qed.

Lemma indexWhere_noneFrom p text start :
  indexWhere p (drop start text) = None -> noneFrom p text start.
Proof.
  intros H j c Hj Hc. apply (indexWhere_None _ _ H (j - start) c).
  rewrite lookup_drop. replace (start + (j - start)) with j by lia. exact Hc.
Qed.

Lemma firstFrom_unique p text start i j :
  firstFrom p text start i -> firstFrom p text start j -> i = j.
Proof.
  intros (Hi & (c & Hc & Hpc) & Hbi) (Hj & (d & Hd & Hpd) & Hbj).
  destruct (Nat.lt_trichotomy i j) as [Hlt|[Heq|Hgt]]; [|exact Heq|].
  - rewrite (Hbj i c) in Hpc by (lia || assumption). discriminate.
  - rewrite (Hbi j d) in Hpd by (lia || assumption). discriminate.
Qed.

Lemma firstFrom_noneFrom p text start i :
  firstFrom p text start i -> noneFrom p text start -> False.
Proof.
  intros (Hi & (c & Hc & Hpc) & _) Hn. rewrite (Hn i c Hi Hc) in Hpc. discriminate.
Qed.

(** *** Snapping *)

(** C2, as claimed, fails: in the two-line sample no terminator occurs
    before the line break at offset 2, which is where the claim snaps
    offset 0, and the resolver snaps it to offset 6, after the terminator
    of the second line. *)
Lemma line_break_counterexample :
  firstFrom isNewline Samples.twoLines 0 2
  /\ (forall j c, j < 2 -> Samples.twoLines !! j = Some c -> isTerminator c = false)
  /\ claimedSentenceEnd Samples.twoLines 0 = 2
  /\ moveToSentenceEnd Samples.twoLines 0 = 6
  /\ moveToSentenceEnd Samples.twoLines 0 <> claimedSentenceEnd Samples.twoLines 0.
Proof.
  assert (Hb : forall p j c, j < 2 -> Samples.twoLines !! j = Some c ->
                 p 97%N = false -> p 98%N = false -> p c = false).
  { intros p [|[|j]] c Hj; simpl; try lia; intros [= <-]; auto. }
  split.
  - split; [lia|]. split; [exists NL; split; reflexivity|].
    intros j c Hj Hc. apply (Hb isNewline j c); (lia || assumption || reflexivity).
  - split; [|repeat split; discriminate].
    intros j c Hj Hc. apply (Hb isTerminator j c); (assumption || reflexivity).
Qed.

(** C2, amended. For an offset within the text, let [k] be the snapped
    offset. If a terminator occurs anywhere at or after the offset, on
    the same line or on a later one, [k] is the end of the run of
    closing characters that follows the first such terminator. If no
    terminator occurs at or after the offset, [k] is the position of
    the first line break at or after the offset, and the end of the text
    when there is no line break either. *)
Theorem sentence_end_characterised text atChar :
  (0 <= atChar <= Z.of_nat (length text))%Z ->
  let start := Z.to_nat atChar in
  let k := moveToSentenceEnd text atChar in
  (forall i, firstFrom isTerminator text start i -> closingRun text (i + 1) k)
  /\ (noneFrom isTerminator text start ->
      forall i, firstFrom isNewline text start i -> k = i)
  /\ (noneFrom isTerminator text start -> noneFrom isNewline text start ->
      k = length text).
Proof.
  intros Hat start k. unfold k, moveToSentenceEnd.
  replace (Z.to_nat (Z.max 0 (Z.min (Z.of_nat (length text)) atChar))) with start
    by (unfold start; lia).
  assert (Hstart : start <= length text) by (unfold start; lia).
  destruct (decide (length text <= start)) as [Hend|Hin].
  { assert (Hno : forall p i, firstFrom p text start i -> False).
    { intros p i (Hi & (c & Hc & _) & _). apply lookup_lt_Some in Hc. lia. }
    split; [intros i H; destruct (Hno _ _ H)|].
    split; [intros _ i H; destruct (Hno _ _ H) | reflexivity]. }
  destruct (indexWhere isTerminator (drop start text)) as [m|] eqn:Et.
  - assert (Hfirst := indexWhere_firstFrom _ _ _ _ Et).
    split; [|split; intros Hn; destruct (firstFrom_noneFrom _ _ _ _ Hfirst Hn)].
    intros i Hi. rewrite <- (firstFrom_unique _ _ _ _ _ Hfirst Hi).
    apply skipClosing_run.
    destruct Hfirst as (_ & (c & Hc & _) & _). apply lookup_lt_Some in Hc. lia.
  - assert (Hnone := indexWhere_noneFrom _ _ _ Et).
    split; [intros i Hi; destruct (firstFrom_noneFrom _ _ _ _ Hi Hnone)|].
    destruct (indexWhere isNewline (drop start text)) as [nl|] eqn:En.
    + assert (Hfirst := indexWhere_firstFrom _ _ _ _ En).
      split; [intros _ i Hi; exact (firstFrom_unique _ _ _ _ _ Hfirst Hi)|].
      intros _ Hn. destruct (firstFrom_noneFrom _ _ _ _ Hfirst Hn).
    + assert (Hnl := indexWhere_noneFrom _ _ _ En).
      split; [|reflexivity].
      intros _ i Hi. destruct (firstFrom_noneFrom _ _ _ _ Hi Hnl).
Qed.

(** The amended claim at the sample of the counterexample: the first
    terminator from offset 0 is at offset 5, past the line break. *)
Lemma sentence_end_characterised_witness :
  (0 <= 0 <= Z.of_nat (length Samples.twoLines))%Z
  /\ closingRun Samples.twoLines 6 (moveToSentenceEnd Samples.twoLines 0).
Proof.
  assert (Hat : (0 <= 0 <= Z.of_nat (length Samples.twoLines))%Z) by (simpl; lia).
  split; [exact Hat|].
  destruct (sentence_end_characterised Samples.twoLines 0 Hat) as (H & _ & _).
  apply (H 5). split; [simpl; lia|]. split; [exists DOT; split; reflexivity|].
  intros j c Hj.
  do 5 (destruct j as [|j]; [simpl; intros [= <-]; reflexivity|]).
  simpl in Hj. lia.
Defined.

(** C4. Whatever class of word characters is taken, as long as it holds
    no sentence terminator, no closing character and no line feed, no
    snapped offset has a character of the class on both of its sides. *)
Theorem snapped_offset_never_splits_word alnum text atChar :
  wordClass alnum ->
  ~ insideWord alnum text (moveToSentenceEnd text atChar).
Proof.
  intros Hw (before & after & Hk & Hb & Ha & Hab & Haa).
  destruct (Hw _ Hab) as (Hbt & Hbc & _). destruct (Hw _ Haa) as (_ & _ & Han).
  revert Hk Hb Ha. unfold moveToSentenceEnd.
  set (start := Z.to_nat (Z.max 0 (Z.min (Z.of_nat (length text)) atChar))).
  destruct (decide (length text <= start)) as [Hend|Hin].
  { intros _ _ Ha. apply lookup_lt_Some in Ha. lia. }
  destruct (indexWhere isTerminator (drop start text)) as [m|] eqn:Et.
  - destruct (indexWhere_firstFrom _ _ _ _ Et) as (_ & (c & Hc & Hpc) & _).
    assert (Hlen : start + m + 1 <= length text)
      by (apply lookup_lt_Some in Hc; lia).
    destruct (skipClosing_run text (start + m + 1) Hlen) as (Hr & Hrun & _).
    set (k := skipClosing (drop (start + m + 1) text) (start + m + 1)) in *.
    intros Hk Hb _.
    destruct (decide (k = start + m + 1)) as [Heq|Hne].
    + rewrite Heq in Hb. replace (start + m + 1 - 1) with (start + m) in Hb by lia.
      congruence.
    + rewrite (Hrun (k - 1) before) in Hbc by (lia || assumption). discriminate.
  - destruct (indexWhere isNewline (drop start text)) as [nl|] eqn:En.
    + destruct (indexWhere_firstFrom _ _ _ _ En) as (_ & (c & Hc & Hpc) & _).
      intros _ _ Ha. congruence.
    + intros _ _ Ha. apply lookup_lt_Some in Ha. lia.
Qed.

Lemma isAlphanumeric_wordClass : wordClass isAlphanumeric.
Proof.
  intros c H. unfold isAlphanumeric in H.
  unfold isTerminator, isClosing, isNewline, DOT, BANG, QUESTION, QUOTE, APOSTROPHE,
    RPAREN, RBRACKET, NL.
  rewrite !orb_true_iff, !andb_true_iff, !N.leb_le in H.
  rewrite !orb_false_iff, !N.eqb_neq. lia.
Qed.

(** The claim at a sample: digits, letters and all code units outside
    ASCII as word characters, and an offset in the middle of a word. *)
Lemma snapped_offset_never_splits_word_witness :
  wordClass isAlphanumeric
  /\ ~ insideWord isAlphanumeric Samples.ramen (moveToSentenceEnd Samples.ramen 2).
Proof.
  split; [exact isAlphanumeric_wordClass|].
  apply (snapped_offset_never_splits_word isAlphanumeric Samples.ramen 2).
  exact isAlphanumeric_wordClass.
Defined.

(** *** Invalid requests *)

Lemma validAtChar_validRequest baseText ins :
  validAtChar baseText ins = true <-> validRequest baseText ins.
Proof.
  unfold validAtChar, validRequest. destruct (atChar ins) as [z|].
  - rewrite andb_true_iff, !Z.leb_le. split.
    + intros H. exists z. split; [reflexivity | exact H].
    + intros (z' & [= <-] & H). exact H.
  - split; [discriminate|]. intros (z & H & _). discriminate.
Qed.

Lemma normalizeInsert_invalid baseText ins :
  validAtChar baseText ins = false -> normalizeInsert baseText ins = None.
Proof.
  intros H. unfold normalizeInsert. rewrite H. destruct (atChar ins); reflexivity.
Qed.

Lemma omap_normalize_filter baseText (requests : list CitationInsert) :
  omap (normalizeInsert baseText)
       (filter (fun ins => validAtChar baseText ins = true) requests)
  = omap (normalizeInsert baseText) requests.
Proof.
  assert (Hcons : forall x (l : list CitationInsert),
            omap (normalizeInsert baseText) (x :: l)
            = match normalizeInsert baseText x with
              | Some y => y :: omap (normalizeInsert baseText) l
              | None => omap (normalizeInsert baseText) l
              end) by reflexivity.
  induction requests as [|ins requests IH]; [reflexivity|].
  destruct (validAtChar baseText ins) eqn:E.
  - rewrite filter_cons_True by exact E. rewrite !Hcons, IH. reflexivity.
  - rewrite filter_cons_False by (rewrite E; discriminate).
    rewrite Hcons, (normalizeInsert_invalid _ _ E). exact IH.
Qed.

(** C8. The rendering of an entry is the rendering of the entry with
    its valid requests only, a request being valid when its offset is
    an integer within the bounds of the text; when no request is valid
    the text is unchanged and the footnote table is empty; and a batch
    renders every entry, one by one. *)
Theorem invalid_requests_are_excluded entry :
  let valid := filter (fun ins => validAtChar (text entry) ins = true)
                      (citationInserts entry) in
  (forall ins, ins ∈ valid <-> ins ∈ citationInserts entry /\ validRequest (text entry) ins)
  /\ applyWikipediaFootnotes entry = applyWikipediaFootnotes (withInserts entry valid)
  /\ (valid = [] ->
        outText (applyWikipediaFootnotes entry) = text entry
        /\ footnotes (applyWikipediaFootnotes entry) = [])
  /\ (forall entries i e, entries !! i = Some e ->
        renderBatch entries !! i = Some (applyWikipediaFootnotes e)).
Proof.
  intros valid. split; [|split; [|split]].
  - intros ins. unfold valid. rewrite list_elem_of_filter, validAtChar_validRequest.
    tauto.
  - unfold applyWikipediaFootnotes, withInserts; simpl. unfold valid.
    rewrite omap_normalize_filter. reflexivity.
  - intros Hv. unfold applyWikipediaFootnotes; simpl.
    rewrite <- omap_normalize_filter. fold valid. rewrite Hv. split; reflexivity.
  - intros entries i e H. unfold renderBatch.
    change (map applyWikipediaFootnotes entries) with (applyWikipediaFootnotes <$> entries).
    rewrite list_lookup_fmap, H. reflexivity.
Qed.

(** *** Lists *)

Lemma filter_disjoint_Permutation {A} (P Q : A -> Prop)
    `{!forall x, Decision (P x)} `{!forall x, Decision (Q x)} (l : list A) :
  (forall x, P x -> Q x -> False) ->
  Permutation (filter P l ++ filter Q l) (filter (fun x => P x \/ Q x) l).
Proof.
  intros Hd. induction l as [|x l IH]; [reflexivity|].
  destruct (decide (P x)) as [Hp|Hp], (decide (Q x)) as [Hq|Hq].
  - destruct (Hd x Hp Hq).
  - rewrite (filter_cons_True P), (filter_cons_False Q) by assumption.
    rewrite (filter_cons_True (fun x => P x \/ Q x)) by (left; assumption).
    simpl. constructor. exact IH.
  - rewrite (filter_cons_False P), (filter_cons_True Q) by assumption.
    rewrite (filter_cons_True (fun x => P x \/ Q x)) by (right; assumption).
    rewrite <- Permutation_middle. constructor. exact IH.
  - rewrite (filter_cons_False P), (filter_cons_False Q) by assumption.
    rewrite (filter_cons_False (fun x => P x \/ Q x)) by tauto.
    exact IH.
Qed.

Lemma filter_all {A} (P : A -> Prop) `{!forall x, Decision (P x)} (l : list A) :
  (forall x, x ∈ l -> P x) -> filter P l = l.
Proof.
  induction l as [|x l IH]; intros Hall; [reflexivity|].
  rewrite filter_cons_True by (apply Hall, list_elem_of_here).
  rewrite IH; [reflexivity|]. intros y Hy. apply Hall, list_elem_of_further, Hy.
Qed.

Lemma filter_none {A} (P : A -> Prop) `{!forall x, Decision (P x)} (l : list A) :
  (forall x, x ∈ l -> ~ P x) -> filter P l = [].
Proof.
  induction l as [|x l IH]; intros Hall; [reflexivity|].
  rewrite filter_cons_False by (apply Hall, list_elem_of_here).
  apply IH. intros y Hy. apply Hall, list_elem_of_further, Hy.
Qed.

Lemma StronglySorted_lookup {A} (R : A -> A -> Prop) (l : list A) :
  StronglySorted R l ->
  forall i j x y, i < j -> l !! i = Some x -> l !! j = Some y -> R x y.
Proof.
  induction 1 as [|a l Hs IH Hall]; intros i j x y Hij Hi Hj.
  - rewrite lookup_nil in Hi. discriminate.
  - destruct j as [|j]; [lia|]. simpl in Hj. destruct i as [|i]; simpl in Hi.
    + injection Hi as <-. rewrite Forall_forall in Hall.
      apply Hall. eapply list_elem_of_lookup_2, Hj.
    + apply (IH i j); (lia || assumption).
Qed.

(** The second components of the pairs kept by a filter on the second
    component. *)
Lemma snd_filter_zip {A B} (P : B -> Prop) `{!forall x, Decision (P x)}
    (k : list B) : forall l : list A,
  length k <= length l ->
  map snd (filter (fun p => P p.2) (zip l k)) = filter P k.
Proof.
  induction k as [|y k IH]; intros [|x l] Hlen; simpl in *; try reflexivity; [lia|].
  destruct (decide (P y)) as [Hy|Hy].
  - rewrite (filter_cons_True P) by exact Hy.
    rewrite filter_cons_True by exact Hy. simpl. rewrite IH by lia. reflexivity.
  - rewrite (filter_cons_False P) by exact Hy.
    rewrite filter_cons_False by exact Hy. apply IH. lia.
Qed.

Lemma zip_seq_lookup {B} (k : list B) r (p : nat * B) :
  p ∈ zip (seq r (length k)) k -> exists i, p.1 = r + i /\ k !! i = Some p.2.
Proof.
  intros (i & Hi)%list_elem_of_lookup_1.
  apply lookup_zip_with_Some in Hi as (n & y & -> & Hn & Hy).
  apply lookup_seq in Hn as [-> _]. exists i. split; [reflexivity | exact Hy].
Qed.

(** *** Grouping and numbering *)

Section Numbering.
Variable baseText : list N.

Let snap := snapOf baseText.

Let step (groups : list (nat * list Insert)) (ins : Insert) :=
  groupPush (moveToSentenceEnd baseText (at_ ins)) ins groups.

Lemma groupsGet_push k key ins groups :
  groupsGet k (groupPush key ins groups)
  = if decide (k = key) then groupsGet k groups ++ [ins] else groupsGet k groups.
Proof.
  induction groups as [|[k0 l] groups IH]; simpl.
  - repeat case_decide; congruence.
  - destruct (decide (k0 = key)) as [->|Hne]; simpl.
    + repeat case_decide; congruence.
    + rewrite IH. repeat case_decide; congruence.
Qed.

Lemma keys_push key ins groups :
  map fst (groupPush key ins groups)
  = if decide (key ∈ map fst groups) then map fst groups
    else map fst groups ++ [key].
Proof.
  induction groups as [|[k0 l] groups IH]; simpl.
  - reflexivity.
  - destruct (decide (k0 = key)) as [->|Hne]; simpl.
    + rewrite decide_True by (apply list_elem_of_here). reflexivity.
    + rewrite IH. destruct (decide (key ∈ map fst groups)) as [Hin|Hout].
      * rewrite decide_True by (apply list_elem_of_further, Hin). reflexivity.
      * rewrite decide_False; [reflexivity|].
        intros [Heq|Hin]%elem_of_cons; [congruence | contradiction].
Qed.

(** Each group holds the inserts snapped to its offset, in the order
    of supply. *)
Lemma groupsGet_foldl inserts : forall groups k,
  groupsGet k (foldl step groups inserts)
  = groupsGet k groups ++ filter (fun ins => snap ins = k) inserts.
Proof.
  induction inserts as [|ins inserts IH]; intros groups k; simpl.
  - rewrite app_nil_r. reflexivity.
  - rewrite IH. unfold step. rewrite groupsGet_push.
    destruct (decide (k = moveToSentenceEnd baseText (at_ ins))) as [->|Hne].
    + rewrite filter_cons_True by reflexivity. rewrite <- app_assoc. reflexivity.
    + rewrite filter_cons_False by (unfold snap, snapOf; congruence). reflexivity.
Qed.

Lemma keys_foldl inserts : forall groups,
  NoDup (map fst groups) ->
  NoDup (map fst (foldl step groups inserts))
  /\ (forall ins, ins ∈ inserts -> snap ins ∈ map fst (foldl step groups inserts))
  /\ (forall k, k ∈ map fst groups -> k ∈ map fst (foldl step groups inserts)).
Proof.
  induction inserts as [|ins inserts IH]; intros groups Hnd; simpl.
  - split; [exact Hnd|]. split; [|auto]. intros ins Hin. inversion Hin.
  - assert (Hkeys := keys_push (moveToSentenceEnd baseText (at_ ins)) ins groups).
    fold (step groups ins) in Hkeys.
    assert (Hnd' : NoDup (map fst (step groups ins))).
    { rewrite Hkeys. case_decide; [exact Hnd|].
      apply NoDup_app. split; [exact Hnd|]. split; [|apply NoDup_singleton].
      intros x Hx ->%list_elem_of_singleton. contradiction. }
    assert (Hin' : snap ins ∈ map fst (step groups ins)).
    { rewrite Hkeys. unfold snap, snapOf. case_decide; [assumption|].
      apply elem_of_app. right. apply list_elem_of_here. }
    destruct (IH _ Hnd') as (H1 & H2 & H3).
    split; [exact H1|]. split.
    + intros x [->|Hx]%elem_of_cons; [apply H3, Hin' | apply H2, Hx].
    + intros k Hk. apply H3. rewrite Hkeys. case_decide; [exact Hk|].
      apply elem_of_app. left. exact Hk.
Qed.

Lemma numberInserts_zip insList : forall refNumber,
  numberInserts insList refNumber
  = (zip (seq refNumber (length insList)) insList, refNumber + length insList).
Proof.
  induction insList as [|ins insList IH]; intros r; simpl.
  - f_equal. lia.
  - rewrite IH. f_equal. lia.
Qed.

(** The numbering loop numbers the concatenated groups in sequence. *)
Lemma numberGroups_zip groups atChars : forall refNumber,
  let listed := concat (map (fun a => groupsGet a groups) atChars) in
  concat (map snd (numberGroups atChars groups refNumber))
  = zip (seq refNumber (length listed)) listed.
Proof.
  induction atChars as [|a atChars IH]; intros r; simpl; [reflexivity|].
  rewrite numberInserts_zip. simpl. rewrite IH.
  rewrite length_app, seq_app.
  symmetry. apply zip_with_app. rewrite length_seq. reflexivity.
Qed.

Lemma numberGroups_members groups atChars : forall refNumber,
  Forall (fun g => map snd g.2 = groupsGet g.1 groups)
         (numberGroups atChars groups refNumber).
Proof.
  induction atChars as [|a atChars IH]; intros r; simpl; [constructor|].
  rewrite numberInserts_zip. constructor; [|apply IH].
  simpl. apply snd_zip. rewrite length_seq. lia.
Qed.

(** *** Listing a list by sorted keys *)

Variable inserts : list Insert.

Let listed (keys : list nat) : list Insert :=
  concat (map (fun a => filter (fun ins => snap ins = a) inserts) keys).

Lemma listed_filter keys k :
  NoDup keys ->
  filter (fun ins => snap ins = k) (listed keys)
  = if decide (k ∈ keys) then filter (fun ins => snap ins = k) inserts else [].
Proof.
  unfold listed. induction keys as [|a keys IH]; intros Hnd; simpl.
  - reflexivity.
  - apply NoDup_cons in Hnd as [Ha Hnd]. rewrite filter_app, IH by exact Hnd.
    rewrite list_filter_filter.
    destruct (decide (k = a)) as [->|Hne].
    + destruct (decide (a ∈ keys)); [contradiction|].
      destruct (decide (a ∈ a :: keys)) as [_|Hn];
        [|destruct Hn; apply list_elem_of_here].
      rewrite app_nil_r. apply list_filter_iff. intros x. tauto.
    + replace (filter (fun x => snap x = k /\ snap x = a) inserts) with (@nil Insert).
      * simpl.
        destruct (decide (k ∈ keys)) as [Hin|Hout];
          destruct (decide (k ∈ a :: keys)) as [Hin'|Hout']; try reflexivity.
        -- destruct Hout'. apply list_elem_of_further, Hin.
        -- apply elem_of_cons in Hin' as [Heq|Hin']; [congruence | contradiction].
      * symmetry. clear -Hne. induction inserts as [|x l IHl]; [reflexivity|].
        rewrite filter_cons_False by (intros [H1 H2]; congruence). exact IHl.
Qed.

Lemma snap_filter a x :
  In x (map snap (filter (fun ins => snap ins = a) inserts)) -> x = a.
Proof.
  intros (y & <- & Hy)%in_map_iff.
  apply list_elem_of_In, list_elem_of_filter in Hy as [Hy _]. exact Hy.
Qed.

Lemma listed_sorted keys :
  StronglySorted le keys -> StronglySorted le (map snap (listed keys)).
Proof.
  unfold listed. induction 1 as [|a keys Hs IH Hall]; simpl; [constructor|].
  rewrite map_app. apply StronglySorted_app_2; [| | exact IH].
  - intros x y Hx%list_elem_of_In Hy%list_elem_of_In.
    apply snap_filter in Hx as ->.
    apply in_map_iff in Hy as (y' & <- & Hy).
    apply in_concat in Hy as (l & Hl & Hy).
    apply in_map_iff in Hl as (b & <- & Hb).
    apply list_elem_of_In, list_elem_of_filter in Hy as [Hy _].
    rewrite Forall_forall in Hall. apply list_elem_of_In in Hb.
    specialize (Hall b Hb). lia.
  - assert (Hconst := snap_filter a). revert Hconst.
    generalize (map snap (filter (fun ins => snap ins = a) inserts)).
    induction l as [|x l IHl]; intros Hc; constructor.
    + apply IHl. intros y Hy. apply Hc. right. exact Hy.
    + apply Forall_forall. intros y Hy%list_elem_of_In.
      rewrite (Hc x), (Hc y) by (simpl; auto). lia.
Qed.

Lemma listed_Permutation keys :
  NoDup keys -> (forall ins, ins ∈ inserts -> snap ins ∈ keys) ->
  Permutation (listed keys) inserts.
Proof.
  intros Hnd Hall.
  rewrite <- (filter_all (fun ins => snap ins ∈ keys) inserts Hall).
  clear Hall. unfold listed. induction keys as [|a keys IH]; simpl.
  - rewrite filter_none; [reflexivity|]. intros x _. apply not_elem_of_nil.
  - apply NoDup_cons in Hnd as [Ha Hnd]. rewrite (IH Hnd).
    rewrite filter_disjoint_Permutation by (intros x <- Hx; contradiction).
    erewrite list_filter_iff; [reflexivity|].
    intros x. rewrite elem_of_cons. tauto.
Qed.

End Numbering.

(** C3. The valid requests of an entry are numbered 1, 2, 3 and so on,
    each exactly once, in ascending order of their snapped offsets, and
    in the order of supply among the requests snapped to one offset; so
    of two requests with different snapped offsets the one with the
    larger offset has the larger number. Every group of the numbering
    loop holds the requests snapped to the group's offset. *)
Theorem reference_numbers_follow_offsets baseText inserts :
  let numbered := assigned baseText inserts in
  let snap := snapOf baseText in
  map fst numbered = seq 1 (length inserts)
  /\ Permutation (map snd numbered) inserts
  /\ (forall p q, p ∈ numbered -> q ∈ numbered -> p.1 < q.1 -> snap p.2 <= snap q.2)
  /\ (forall k, map snd (filter (fun p => snap p.2 = k) numbered)
                = filter (fun ins => snap ins = k) inserts)
  /\ (forall p q, p ∈ numbered -> q ∈ numbered -> snap p.2 < snap q.2 -> p.1 < q.1)
  /\ Forall (fun g => Forall (fun p => snap p.2 = g.1) g.2)
             (numbering baseText inserts).
Proof.
  intros numbered snap.
  set (groups := buildGroups baseText inserts).
  set (atChars := sortedKeys groups).
  destruct (keys_foldl baseText inserts [] (NoDup_nil_2)) as (Hnd & Hcover & _).
  fold (buildGroups baseText inserts) in Hnd, Hcover. fold groups in Hnd, Hcover.
  assert (Hget : forall k, groupsGet k groups
                           = filter (fun ins => snap ins = k) inserts).
  { intros k. apply (groupsGet_foldl baseText inserts [] k). }
  assert (Hperm : Permutation atChars (map fst groups))
    by apply merge_sort_Permutation.
  assert (Hnd' : NoDup atChars) by (rewrite Hperm; exact Hnd).
  assert (Hcover' : forall ins, ins ∈ inserts -> snap ins ∈ atChars).
  { intros ins Hin. rewrite Hperm. apply Hcover, Hin. }
  assert (Hsorted : StronglySorted le atChars)
    by (apply StronglySorted_merge_sort; apply _).
  set (listed := concat (map (fun a => filter (fun ins => snap ins = a) inserts)
                             atChars)).
  assert (Hzip : numbered = zip (seq 1 (length listed)) listed).
  { unfold numbered, assigned, numbering. fold groups. fold atChars.
    rewrite numberGroups_zip. unfold listed.
    rewrite (map_ext _ _ Hget). reflexivity. }
  assert (Hlisted : Permutation listed inserts)
    by (apply listed_Permutation; assumption).
  assert (Hlen : length listed = length inserts)
    by (apply Permutation_length, Hlisted).
  assert (Hss : StronglySorted le (map snap listed))
    by (apply listed_sorted, Hsorted).
  assert (Hat : forall p, p ∈ numbered ->
            exists i, p.1 = 1 + i /\ map snap listed !! i = Some (snap p.2)).
  { intros p Hp. rewrite Hzip in Hp.
    destruct (zip_seq_lookup _ _ _ Hp) as (i & Hi & Hl). exists i.
    split; [exact Hi|].
    change (map snap listed) with (snap <$> listed).
    rewrite list_lookup_fmap, Hl. reflexivity. }
  split; [|split; [|split; [|split; [|split]]]].
  - rewrite Hzip, <- Hlen.
    change (map fst ?l) with (fst <$> l). apply fst_zip. rewrite length_seq. lia.
  - rewrite Hzip. change (map snd ?l) with (snd <$> l).
    rewrite snd_zip by (rewrite length_seq; lia). exact Hlisted.
  - intros p q Hp Hq Hlt.
    destruct (Hat p Hp) as (i & Hi & Hsi). destruct (Hat q Hq) as (j & Hj & Hsj).
    apply (StronglySorted_lookup _ _ Hss i j); (lia || assumption).
  - intros k. rewrite Hzip.
    etransitivity;
      [apply (snd_filter_zip (fun ins => snap ins = k)
                (H := fun ins => decide_rel eq (snap ins) k));
       rewrite length_seq; lia|].
    etransitivity; [apply (listed_filter baseText inserts atChars k Hnd')|].
    destruct (decide (k ∈ atChars)) as [Hin|Hout]; [reflexivity|].
    symmetry. apply filter_none. intros ins Hins <-. apply Hout, Hcover', Hins.
  - intros p q Hp Hq Hlt.
    destruct (Hat p Hp) as (i & Hi & Hsi). destruct (Hat q Hq) as (j & Hj & Hsj).
    destruct (Nat.lt_trichotomy i j) as [Hij|[->|Hji]]; [lia| |].
    + rewrite Hsi in Hsj. injection Hsj as Heq. lia.
    + assert (snap q.2 <= snap p.2)
        by (apply (StronglySorted_lookup _ _ Hss j i); (lia || assumption)).
      lia.
  - unfold numbering. fold groups. fold atChars.
    eapply Forall_impl; [apply numberGroups_members|].
    intros [a members] Hm. simpl in *. rewrite Hget in Hm.
    apply Forall_forall. intros p Hp.
    assert (Hin : p.2 ∈ filter (fun ins => snap ins = a) inserts).
    { rewrite <- Hm. apply list_elem_of_In, in_map, list_elem_of_In, Hp. }
    apply list_elem_of_filter in Hin as [Hin _]. exact Hin.
Qed.

(** The numbering of the sample entry: the requests at offsets 6 and 4
    snap to offset 20 and get the numbers 1 and 2, in the order of
    supply; the request at offset 22 snaps to offset 24 and is number 3. *)
Example numbering_sample :
  map (fun p => (p.1, at_ p.2, snapOf Samples.ramen p.2))
      (assigned Samples.ramen Samples.ramenInserts)
  = [(1, 6%Z, 20); (2, 4%Z, 20); (3, 22%Z, 24)].
Proof. reflexivity. Qed.

(** One request in the middle of a word of a one-sentence text. *)
Example marker_after_the_period :
  let entry := {| entryId := js "0:e1"; type := None;
                  text := js "Ramen is cheap here.";
                  citationInserts := [{| atChar := Some 5%Z; sources := [js "42"] |}] |} in
  outText (applyWikipediaFootnotes entry) = js "Ramen is cheap here.[1]"
  /\ footnotes (applyWikipediaFootnotes entry) = [(1, [js "42"])]
  /\ outType (applyWikipediaFootnotes entry) = js "other".
Proof. repeat split; reflexivity. Qed.

Example rendering_sample :
  outText (applyWikipediaFootnotes Samples.ramenEntry)
  = js "Ramen is cheap here.[1][2] Yes[3]"
  /\ footnotes (applyWikipediaFootnotes Samples.ramenEntry)
    = [(1, [js "42"; js "7"]); (2, [js "42"]); (3, [js "9"])].
Proof. split; reflexivity. Qed.

End FootnotesFacts.

(** ** Further facts on the insertion applier *)

Module ApplierMore.
Import Applier Props ApplierProps JsStringFacts ApplierFacts.

(** *** The message index *)

Lemma buildMessageIndex_snoc (messages : list Message) (m : Message) :
  buildMessageIndex (messages ++ [m])
  = if truthy (Some (id m)) then <[id m := m]> (buildMessageIndex messages)
    else buildMessageIndex messages.
Proof. unfold buildMessageIndex. rewrite foldl_snoc. reflexivity. Qed.

Lemma buildMessageIndex_Some (messages : list Message) : forall k m,
  buildMessageIndex messages !! k = Some m -> id m = k /\ k <> [] /\ m ∈ messages.
Proof.
  induction messages as [|m' messages IH] using rev_ind; intros k m.
  - unfold buildMessageIndex. simpl. rewrite lookup_empty. discriminate.
  - rewrite buildMessageIndex_snoc. unfold truthy.
    destruct (id m') as [|c r] eqn:E.
    + intros H. destruct (IH _ _ H) as (H1 & H2 & H3).
      split; [exact H1|]. split; [exact H2|]. apply elem_of_app. left. exact H3.
    + destruct (decide (c :: r = k)) as [<-|Hne].
      * rewrite lookup_insert_eq. intros [= <-]. split; [exact E|].
        split; [discriminate|]. apply elem_of_app. right. apply list_elem_of_here.
      * rewrite lookup_insert_ne by exact Hne. intros H.
        destruct (IH _ _ H) as (H1 & H2 & H3).
        split; [exact H1|]. split; [exact H2|]. apply elem_of_app. left. exact H3.
Qed.

Lemma buildMessageIndex_is_Some (messages : list Message) : forall m,
  m ∈ messages -> id m <> [] -> is_Some (buildMessageIndex messages !! id m).
Proof.
  induction messages as [|m' messages IH] using rev_ind; intros m Hin Hid.
  - inversion Hin.
  - rewrite buildMessageIndex_snoc. unfold truthy.
    apply elem_of_app in Hin as [Hin|Hin%list_elem_of_singleton].
    + destruct (id m') as [|c r] eqn:E; [apply IH; assumption|].
      destruct (decide (c :: r = id m)) as [<-|Hne].
      * rewrite lookup_insert_eq. eauto.
      * rewrite lookup_insert_ne by exact Hne. apply IH; assumption.
    + subst m'. destruct (id m) as [|c r] eqn:E; [congruence|].
      rewrite lookup_insert_eq. eauto.
Qed.

Lemma buildMessageIndex_last (messages : list Message) m : forall later,
  id m <> [] -> (forall m', m' ∈ later -> id m' <> id m) ->
  buildMessageIndex (messages ++ m :: later) !! id m = Some m.
Proof.
  intros later Hid. induction later as [|m' later IH] using rev_ind; intros Hl.
  - rewrite buildMessageIndex_snoc. unfold truthy.
    destruct (id m) as [|c r] eqn:E; [congruence|]. apply lookup_insert_eq.
  - replace (messages ++ m :: later ++ [m']) with ((messages ++ m :: later) ++ [m'])
      by (rewrite <- app_assoc; reflexivity).
    rewrite buildMessageIndex_snoc.
    assert (Hne : id m' <> id m)
      by (apply Hl, elem_of_app; right; apply list_elem_of_here).
    assert (IH' : buildMessageIndex (messages ++ m :: later) !! id m = Some m).
    { apply IH. intros x Hx. apply Hl, elem_of_app. left. exact Hx. }
    destruct (truthy (Some (id m'))); [|exact IH'].
    rewrite lookup_insert_ne by exact Hne. exact IH'.
Qed.

(** X1. A lookup in the message index yields a message of the list that
    carries the looked-up identifier, which is not empty; every message
    with a non-empty identifier is found under its identifier; and of two
    messages with one identifier the later one is kept. *)
Theorem buildMessageIndex_lookup (messages : list Message) :
  (forall k m, buildMessageIndex messages !! k = Some m ->
      id m = k /\ k <> [] /\ m ∈ messages)
  /\ (forall m, m ∈ messages -> id m <> [] ->
        is_Some (buildMessageIndex messages !! id m))
  /\ (forall m later, id m <> [] ->
        (forall m', m' ∈ later -> id m' <> id m) ->
        buildMessageIndex (messages ++ m :: later) !! id m = Some m).
Proof.
  split; [apply buildMessageIndex_Some|].
  split; [apply buildMessageIndex_is_Some|].
  intros m later. apply buildMessageIndex_last.
Qed.

(** *** Anchors *)

Lemma takeWhile_app_stop p (a : list N) c r :
  Forall (fun x => p x = true) a -> p c = false ->
  takeWhile p (a ++ c :: r) = a /\ dropWhile p (a ++ c :: r) = c :: r.
Proof.
  intros Ha Hc. induction Ha as [|x a Hx _ IH]; simpl.
  - rewrite Hc. auto.
  - rewrite Hx. destruct IH as [-> ->]. auto.
Qed.

Lemma takeWhile_Forall p (s : list N) : Forall (fun x => p x = true) (takeWhile p s).
Proof.
  induction s as [|x s IH]; simpl; [constructor|].
  destruct (p x) eqn:E; constructor; assumption.
Qed.

(** A line carries the anchor of [m] exactly when [m] is a decimal
    identifier and the line ends with [m] in brackets. *)
Lemma anchorId_spec line m :
  anchorId line = Some m <-> digits m /\ endsWithAnchor m line.
Proof.
  unfold anchorId, digits, endsWithAnchor. split.
  - destruct (rev line) as [|c r] eqn:E; [discriminate|].
    destruct (N.eqb_spec c RBRACKET) as [->|]; [|discriminate].
    assert (Hsplit := takeWhile_dropWhile isDigit r).
    assert (Hdig := takeWhile_Forall isDigit r).
    destruct (takeWhile isDigit r) as [|d ds] eqn:Et; [discriminate|].
    destruct (dropWhile isDigit r) as [|o rest] eqn:Ed; [discriminate|].
    destruct (N.eqb_spec o LBRACKET) as [->|]; [|discriminate].
    intros [= <-]. split.
    + split.
      * intros H. apply app_eq_nil in H as [_ H]. discriminate.
      * exact (Forall_rev Hdig).
    + exists (rev rest). apply (f_equal (@rev N)) in E.
      rewrite rev_involutive in E. rewrite E, <- Hsplit. simpl.
      rewrite rev_app_distr. simpl. rewrite <- !app_assoc. reflexivity.
  - intros [[Hne Hdig] [before ->]].
    assert (Hrev : rev (before ++ [LBRACKET] ++ m ++ [RBRACKET])
                   = RBRACKET :: (rev m ++ LBRACKET :: rev before)).
    { rewrite !rev_app_distr. simpl. rewrite <- app_assoc. reflexivity. }
    rewrite Hrev.
    destruct (takeWhile_app_stop isDigit (rev m) LBRACKET (rev before)) as [Ht Hd];
      [apply Forall_rev, Hdig | reflexivity |].
    change (RBRACKET =? RBRACKET)%N with true. cbv iota. rewrite Ht, Hd.
    destruct (rev m) as [|x y] eqn:E.
    + apply (f_equal (@rev N)) in E. rewrite rev_involutive in E. simpl in E. congruence.
    + change (LBRACKET =? LBRACKET)%N with true. cbv iota.
      rewrite <- E, rev_involutive. reflexivity.
Qed.

Lemma formatMessageBlock_endsWithAnchor msg idx :
  endsWithAnchor (id msg) (formatMessageBlock msg idx).
Proof.
  unfold endsWithAnchor, formatMessageBlock.
  match goal with
  | |- context [[LBRACKET] ++ ?d ++ js "] " ++ ?a ++ ?c ++ [LBRACKET] ++ id msg ++ [RBRACKET]] =>
      set (head := [LBRACKET] ++ d ++ js "] " ++ a ++ c)
  end.
  assert (Hblock : forall d a c,
            [LBRACKET] ++ d ++ js "] " ++ a ++ c ++ [LBRACKET] ++ id msg ++ [RBRACKET]
            = ([LBRACKET] ++ d ++ js "] " ++ a ++ c) ++ [LBRACKET] ++ id msg ++ [RBRACKET]).
  { intros d a c. rewrite <- !app_assoc. reflexivity. }
  rewrite Hblock. fold head.
  destruct (replyTo msg) as [[|x r]|]; [eexists; reflexivity| |eexists; reflexivity].
  destruct (idx !! (x :: r)).
  - eexists. rewrite !app_assoc. reflexivity.
  - eexists. rewrite !app_assoc. reflexivity.
Qed.

(** X2. The anchor scan of the applier reads the identifier of a
    formatted block back exactly when the identifier is a non-empty
    string of digits: for any other identifier the scan finds no anchor
    or another identifier. *)
Theorem anchor_of_formatted_block msg idx :
  anchorId (formatMessageBlock msg idx) = Some (id msg) <-> digits (id msg).
Proof.
  rewrite anchorId_spec. split; [tauto|].
  intros H. split; [exact H | apply formatMessageBlock_endsWithAnchor].
Qed.

(** *** The anchor index points at anchored lines *)

Lemma buildMessageIndex_keyed messages : keyed (buildMessageIndex messages).
Proof.
  intros k msg H. apply (buildMessageIndex_Some messages k msg H).
Qed.

Lemma indexLines_anchors (rest : list (list N)) : forall (pre : list (list N)) cats ids,
  (forall m i, ids !! m = Some i ->
     exists line, (pre ++ rest) !! i = Some line /\ endsWithAnchor m line) ->
  forall m i, (indexLines (length pre) rest cats ids).2 !! m = Some i ->
    exists line, (pre ++ rest) !! i = Some line /\ endsWithAnchor m line.
Proof.
  induction rest as [|l rest IH]; intros pre cats ids Hc; simpl; [exact Hc|].
  replace (pre ++ l :: rest) with ((pre ++ [l]) ++ rest)
    by (rewrite <- app_assoc; reflexivity).
  replace (S (length pre)) with (length (pre ++ [l]))
    by (rewrite length_app; simpl; lia).
  apply IH. intros m i. rewrite <- app_assoc. simpl.
  destruct (anchorId l) as [a|] eqn:Ea; [|apply Hc].
  destruct (decide (a = m)) as [<-|Hne].
  - rewrite lookup_insert_eq. intros [= <-]. exists l. split.
    + rewrite lookup_app_r by lia. replace (length pre - length pre) with 0 by lia.
      reflexivity.
    + apply anchorId_spec in Ea as [_ Ha]. exact Ha.
  - rewrite lookup_insert_ne by exact Hne. apply Hc.
Qed.

Lemma initialState_anchorsIndexed doc : anchorsIndexed (initialState doc).
Proof.
  unfold anchorsIndexed, initialState. intros m i.
  assert (H := indexLines_anchors doc [] ∅ ∅). simpl in H.
  destruct (indexLines 0 doc ∅ ∅) as [cats ids]; simpl in *.
  apply H. intros c j. rewrite lookup_empty. discriminate.
Qed.

Lemma resolveSection_prefix st cat i line :
  newLines st !! i = Some line -> lines (resolveSection st cat) !! i = Some line.
Proof.
  intros H. unfold resolveSection. destruct (categoryIndex st !! cat); simpl; [exact H|].
  rewrite lookup_app_l; [exact H|]. eapply lookup_lt_Some, H.
Qed.

Lemma resolveSection_length st cat :
  length (newLines st) <= length (lines (resolveSection st cat)).
Proof.
  unfold resolveSection. destruct (categoryIndex st !! cat); simpl; [lia|].
  rewrite length_app. lia.
Qed.

Lemma nextCat_le doc c : nextCat doc c <= length doc.
Proof.
  unfold nextCat. destruct (scanHeader (S c) (drop (S c) doc)) as [k|] eqn:E; simpl; [|lia].
  destruct (scanHeader_Some _ _ _ E) as (Hr & _ & _). rewrite length_drop in Hr. lia.
Qed.

(** In a well indexed state the insertion line is within the lines. *)
Lemma resolvePosition_le st pos cat :
  headersIndexed st -> anchorsIndexed st -> trim cat = cat ->
  let sec := resolveSection st cat in
  (resolvePosition pos (lines sec) (messageIdToLine st) (catLine sec)).1
  <= length (lines sec).
Proof.
  intros Hh Ha Hcat sec.
  destruct (resolveSection_headers st cat Hh Hcat) as [Hsec Hc].
  destruct (Hsec _ _ Hc) as (h & Hl & _). apply lookup_lt_Some in Hl. fold sec in Hl.
  assert (Hids : forall m i, messageIdToLine st !! m = Some i -> i < length (lines sec)).
  { intros m i Hm. destruct (Ha _ _ Hm) as (line & Hline & _).
    apply lookup_lt_Some in Hline. pose proof (resolveSection_length st cat). fold sec in H.
    lia. }
  pose proof (nextCat_le (lines sec) (catLine sec)) as Hn.
  destruct pos as [s|a b|]; simpl; [| |lia].
  - repeat case_decide; simpl; lia.
  - destruct a as [[|x a]|], b as [[|y b]|]; simpl;
      repeat match goal with
             | |- context [messageIdToLine st !! ?key] =>
                 let E := fresh "E" in
                 destruct (messageIdToLine st !! key) eqn:E; [apply Hids in E|]
             end; simpl; lia.
Qed.

Lemma splice_lookup_at (doc : list (list N)) k block :
  k <= length doc -> splice doc k block !! k = Some block.
Proof.
  intros Hk. unfold splice. rewrite lookup_app_r by (rewrite length_take; lia).
  rewrite length_take. replace (k - k `min` length doc) with 0 by lia. reflexivity.
Qed.

Lemma applyOperation_anchorsIndexed idx st op :
  keyed idx -> headersIndexed st -> anchorsIndexed st ->
  anchorsIndexed (applyOperation idx st op).
Proof.
  intros Hkey Hh Ha. unfold applyOperation.
  destruct (idx !! messageId op) as [msg|] eqn:Em; [|exact Ha].
  destruct (messageIdToLine st !! messageId op) eqn:En; [exact Ha|].
  pose proof (resolvePosition_le st (position op) (trim (category op)) Hh Ha
                (trim_idempotent _)) as Hle. simpl in Hle.
  destruct (resolvePosition _ _ _ _) as [k w]. simpl in Hle.
  unfold anchorsIndexed; simpl. intros m i.
  unfold shiftMessages. rewrite map_lookup_imap.
  destruct (decide (messageId op = m)) as [<-|Hne].
  - rewrite lookup_insert_eq. simpl.
    rewrite decide_False by tauto. intros [= <-].
    exists (formatMessageBlock msg idx). split; [apply splice_lookup_at, Hle|].
    rewrite <- (Hkey _ _ Em). apply formatMessageBlock_endsWithAnchor.
  - rewrite lookup_insert_ne by exact Hne.
    destruct (messageIdToLine st !! m) as [i0|] eqn:E; simpl; [|discriminate].
    destruct (Ha _ _ E) as (line & Hl & Hend).
    apply (resolveSection_prefix st (trim (category op))) in Hl.
    intros [= <-]. exists line. split; [|exact Hend].
    destruct (decide (k <= i0 /\ m <> messageId op)) as [[Hk _]|Hn].
    + apply splice_lookup_after; assumption.
    + apply splice_lookup_before; [|exact Hl].
      destruct (decide (k <= i0)); [|lia]. destruct Hn. split; [assumption|congruence].
Qed.

Lemma stateAfter_wellIndexed doc ops idx :
  keyed idx ->
  headersIndexed (stateAfter doc ops idx) /\ anchorsIndexed (stateAfter doc ops idx).
Proof.
  intros Hkey. split; [apply stateAfter_headersIndexed|].
  unfold stateAfter.
  assert (Hh := initialState_headersIndexed doc).
  assert (Ha := initialState_anchorsIndexed doc). revert Hh Ha.
  generalize (initialState doc). induction ops as [|op ops IH]; intros st Hh Ha; simpl;
    [exact Ha|].
  apply IH; [apply applyOperation_headersIndexed, Hh|].
  apply applyOperation_anchorsIndexed; assumption.
Qed.

(** X3. Index maintenance: at every point of a batch run with a block
    source built by [buildMessageIndex], every entry of the anchor index
    points at a line of the current document that ends with the
    bracketed identifier, for the anchors read from the document and for
    the blocks inserted since. *)
Theorem anchor_index_is_maintained doc ops messages :
  let st := stateAfter doc ops (buildMessageIndex messages) in
  forall m i, messageIdToLine st !! m = Some i ->
    exists line before,
      newLines st !! i = Some line /\ line = before ++ [LBRACKET] ++ m ++ [RBRACKET].
Proof.
  intros st m i H.
  destruct (stateAfter_wellIndexed doc ops (buildMessageIndex messages)
              (buildMessageIndex_keyed messages)) as [_ Ha].
  destruct (Ha m i H) as (line & Hl & before & Hb). eauto.
Qed.

Lemma anchor_index_is_maintained_witness :
  let st := stateAfter Samples.foodDocument [Samples.appendA]
              (buildMessageIndex [Samples.msgA; Samples.msgB]) in
  messageIdToLine st !! js "10" = Some 3
  /\ exists line before,
       newLines st !! 3 = Some line
       /\ line = before ++ [LBRACKET] ++ js "10" ++ [RBRACKET].
Proof.
  intros st. split; [reflexivity|].
  apply (anchor_index_is_maintained Samples.foodDocument [Samples.appendA]
           [Samples.msgA; Samples.msgB] (js "10") 3).
  reflexivity.
Defined.

(** *** What a run never does *)

Lemma applyOperation_sublist idx st op :
  newLines st `sublist_of` newLines (applyOperation idx st op).
Proof.
  unfold applyOperation.
  destruct (idx !! messageId op); [|reflexivity].
  destruct (messageIdToLine st !! messageId op); [reflexivity|].
  destruct (resolvePosition _ _ _ _) as [k w]; simpl.
  transitivity (lines (resolveSection st (trim (category op)))).
  - unfold resolveSection. destruct (categoryIndex st !! _); simpl; [reflexivity|].
    apply sublist_inserts_r. reflexivity.
  - unfold splice.
    rewrite <- (take_drop k (lines (resolveSection st (trim (category op))))) at 1.
    apply sublist_app; [reflexivity|]. apply sublist_cons. reflexivity.
Qed.

Lemma initialState_fields doc :
  newLines (initialState doc) = doc /\ insertedCount (initialState doc) = 0
  /\ reports (initialState doc) = [].
Proof. unfold initialState. destruct (indexLines 0 doc ∅ ∅). simpl. auto. Qed.

(** X4. A run never removes, alters or reorders a line: the lines of the
    starting document are a subsequence of the lines after any batch. *)
Theorem existing_lines_are_kept doc ops idx :
  doc `sublist_of` newLines (stateAfter doc ops idx).
Proof.
  unfold stateAfter.
  destruct (initialState_fields doc) as (Hd & _ & _). rewrite <- Hd at 1.
  generalize (initialState doc). induction ops as [|op ops IH]; intros st; simpl;
    [reflexivity|].
  etransitivity; [apply applyOperation_sublist | apply IH].
Qed.

Lemma count_app (p : Report -> bool) (l1 l2 : list Report) :
  length (filter (fun r => p r = true) (l1 ++ l2))
  = length (filter (fun r => p r = true) l1) + length (filter (fun r => p r = true) l2).
Proof. rewrite filter_app, length_app. reflexivity. Qed.

Lemma resolvePosition_reports p pos doc ids c :
  (forall a, p (WarnAfterIdNotFound a) = false) ->
  (forall b, p (WarnBeforeIdNotFound b) = false) ->
  length (filter (fun r => p r = true) (resolvePosition pos doc ids c).2) = 0.
Proof.
  intros Ha Hb. destruct pos as [s|a b|]; simpl; [| |reflexivity].
  - repeat case_decide; reflexivity.
  - destruct a as [[|x a]|], b as [[|y b]|]; simpl;
      repeat match goal with
             | |- context [ids !! ?key] => destruct (ids !! key)
             end; simpl; try reflexivity;
      rewrite filter_cons_False by (rewrite ?Ha, ?Hb; discriminate); reflexivity.
Qed.



(** *** Unknown identifiers *)

Lemma applyOperation_unknown idx st op :
  ~ known idx op -> applyOperation idx st op = report st (WarnMessageNotFound (messageId op)).
Proof.
  unfold known, applyOperation. destruct (idx !! messageId op); [|reflexivity].
  intros H. destruct H. eauto.
Qed.

Lemma foldl_filter_known idx ops : forall st st',
  core st = core st' ->
  core (foldl (applyOperation idx) st ops)
  = core (foldl (applyOperation idx) st' (filter (known idx) ops)).
Proof.
  induction ops as [|op ops IH]; intros st st' H; [exact H|].
  destruct (decide (known idx op)) as [Hk|Hk].
  - rewrite filter_cons_True by exact Hk. simpl. apply IH, applyOperation_core, H.
  - rewrite filter_cons_False by exact Hk. simpl. apply IH.
    rewrite applyOperation_unknown by exact Hk. rewrite core_report. exact H.
Qed.

Lemma foldl_notFound idx ops : forall st,
  notFoundCount (foldl (applyOperation idx) st ops) + length (filter (known idx) ops)
  = notFoundCount st + length ops.
Proof.
  induction ops as [|op ops IH]; intros st; simpl; [lia|].
  specialize (IH (applyOperation idx st op)).
  destruct (decide (known idx op)) as [Hk|Hk].
  - rewrite filter_cons_True by exact Hk. simpl.
    assert (notFoundCount (applyOperation idx st op) = notFoundCount st); [|lia].
    destruct Hk as [msg Hm]. unfold applyOperation, notFoundCount. rewrite Hm.
    destruct (messageIdToLine st !! messageId op).
    { simpl. rewrite count_app. simpl. lia. }
    pose proof (resolvePosition_reports isNotFound (position op)
                  (lines (resolveSection st (trim (category op)))) (messageIdToLine st)
                  (catLine (resolveSection st (trim (category op))))
                  (fun _ => eq_refl) (fun _ => eq_refl)) as H1.
    destruct (resolvePosition _ _ _ _) as [k w]; simpl in *.
    rewrite !count_app, H1.
    unfold resolveSection. destruct (categoryIndex st !! _); simpl; lia.
  - rewrite filter_cons_False by exact Hk.
    assert (notFoundCount (applyOperation idx st op) = S (notFoundCount st)); [|lia].
    rewrite applyOperation_unknown by exact Hk. unfold notFoundCount. simpl.
    rewrite count_app. simpl. lia.
Qed.

(** X6. Operations that name no block of the block source have no effect
    on the document: a batch gives the text, the lines, both indexes and
    the inserted count of the batch without them, and each of them is
    reported once as not found. *)
Theorem unknown_operations_are_skipped doc ops idx :
  let kept := filter (known idx) ops in
  core (stateAfter doc ops idx) = core (stateAfter doc kept idx)
  /\ applyOperations doc ops idx = applyOperations doc kept idx
  /\ notFoundCount (stateAfter doc ops idx) = length ops - length kept
  /\ notFoundCount (stateAfter doc kept idx) = 0.
Proof.
  intros kept.
  assert (Hcore : core (stateAfter doc ops idx) = core (stateAfter doc kept idx))
    by (apply foldl_filter_known; reflexivity).
  split; [exact Hcore|]. split.
  - unfold applyOperations, runOperations. simpl.
    unfold core in Hcore. injection Hcore as Hl _ _ _. rewrite Hl. reflexivity.
  - pose proof (foldl_notFound idx ops (initialState doc)) as H1.
    pose proof (foldl_notFound idx kept (initialState doc)) as H2.
    assert (Hkk : filter (known idx) kept = kept).
    { unfold kept. apply FootnotesFacts.filter_all. intros op Hop%list_elem_of_filter. tauto. }
    rewrite Hkk in H2. fold (stateAfter doc ops idx) in H1.
    fold (stateAfter doc kept idx) in H2. fold kept in H1.
    destruct (initialState_fields doc) as (_ & _ & Hr).
    unfold notFoundCount at 2 in H1. unfold notFoundCount at 2 in H2.
    rewrite Hr in H1, H2. simpl in H1, H2.
    pose proof (length_filter (known idx) ops). fold kept in H. split; lia.
Qed.

(** *** Reading and writing the document text *)

Lemma splitLines_nonempty text : splitLines text <> [].
Proof.
  induction text as [|c r IH]; simpl; [discriminate|].
  destruct (c =? NL)%N; [discriminate|]. destruct (splitLines r); discriminate.
Qed.

Lemma join_cons_cons sep (x y : list N) rest :
  join sep (x :: y :: rest) = x ++ sep ++ join sep (y :: rest).
Proof. reflexivity. Qed.

Lemma join_splitLines text : join [NL] (splitLines text) = text.
Proof.
  induction text as [|c r IH]; [reflexivity|]. simpl.
  pose proof (splitLines_nonempty r) as Hne.
  destruct (splitLines r) as [|l ls]; [congruence|].
  destruct (N.eqb_spec c NL) as [->|Hc].
  - rewrite join_cons_cons, IH. reflexivity.
  - rewrite <- IH. destruct ls; reflexivity.
Qed.

Lemma splitLines_no_NL (s : list N) : NL ∉ s -> splitLines s = [s].
Proof.
  induction s as [|c s IH]; intros H; [reflexivity|]. simpl.
  apply not_elem_of_cons in H as [Hc Hs].
  destruct (N.eqb_spec c NL) as [Heq|_]; [symmetry in Heq; contradiction|].
  rewrite (IH Hs). reflexivity.
Qed.

Lemma splitLines_app_NL (x t : list N) :
  splitLines (x ++ NL :: t) = splitLines x ++ splitLines t.
Proof.
  induction x as [|c x IH]; simpl; [reflexivity|].
  rewrite IH. pose proof (splitLines_nonempty x) as Hne.
  destruct (splitLines x) as [|l ls]; [congruence|].
  destruct (c =? NL)%N; reflexivity.
Qed.

Lemma splitLines_join (ls : list (list N)) :
  ls <> [] -> splitLines (join [NL] ls) = concat (map splitLines ls).
Proof.
  induction ls as [|x ls IH]; intros Hne; [congruence|]. clear Hne.
  destruct ls as [|y ls].
  - simpl. rewrite app_nil_r. reflexivity.
  - change (join [NL] (x :: y :: ls)) with (x ++ NL :: join [NL] (y :: ls)).
    rewrite splitLines_app_NL, IH by discriminate. reflexivity.
Qed.

(** X7. The text written by [join] and read back by [split] is the list
    of lines that was written, provided there is at least one line and no
    line holds a line feed. *)
Theorem lines_round_trip (ls : list (list N)) :
  ls <> [] -> Forall (fun l => NL ∉ l) ls ->
  splitLines (join [NL] ls) = ls.
Proof.
  intros Hne Hall. rewrite splitLines_join by exact Hne. clear Hne.
  induction Hall as [|l ls Hl _ IH]; [reflexivity|].
  simpl. rewrite splitLines_no_NL by exact Hl. rewrite IH. reflexivity.
Qed.

Lemma lines_round_trip_witness :
  splitLines (join [NL] Samples.foodDocument) = Samples.foodDocument.
Proof.
  apply lines_round_trip; [discriminate|].
  apply (bool_decide_unpack _). vm_compute. exact I.
Defined.

(** *** How many blocks a batch inserts *)

Lemma dom_shiftMessages (k : nat) (m : list N) (ids : gmap (list N) nat) :
  dom (shiftMessages k m ids) = dom ids.
Proof.
  unfold shiftMessages. apply dom_imap_L. intros i. rewrite elem_of_dom.
  split.
  - intros [x Hx]. exists x. split; [exact Hx | eauto].
  - intros (x & Hx & _). eauto.
Qed.

Lemma applyOperation_dom idx st op :
  let st' := applyOperation idx st op in
  let m := messageId op in
  (m ∈ dom idx /\ (m ∉ dom (messageIdToLine st))
   /\ dom (messageIdToLine st') = ({[m]} ∪ dom (messageIdToLine st))
   /\ insertedCount st' = S (insertedCount st))
  \/ ((m ∉ dom idx \/ m ∈ dom (messageIdToLine st))
      /\ dom (messageIdToLine st') = dom (messageIdToLine st)
      /\ insertedCount st' = insertedCount st).
Proof.
  unfold applyOperation.
  destruct (idx !! messageId op) as [msg|] eqn:Em.
  2:{ right. split; [left; apply not_elem_of_dom, Em | split; reflexivity]. }
  destruct (messageIdToLine st !! messageId op) as [ln|] eqn:En.
  { right. split; [right; apply elem_of_dom; eauto | split; reflexivity]. }
  left. destruct (resolvePosition _ _ _ _) as [k w]; simpl.
  split; [apply elem_of_dom; eauto|]. split; [apply not_elem_of_dom, En|].
  split; [|lia]. rewrite dom_shiftMessages, dom_insert_L. reflexivity.
Qed.

(** X8. The number of blocks a batch inserts is the number of distinct
    identifiers of its operations that the block source knows and that
    the starting document has not anchored: each such identifier is
    inserted exactly once, however often it is named. *)
Theorem inserted_count_is_exact doc ops idx :
  let named : gset (list N) := list_to_set (map messageId ops) in
  let anchored := dom (messageIdToLine (initialState doc)) in
  insertedCount (stateAfter doc ops idx) = size ((named ∩ dom idx) ∖ anchored)
  /\ dom (messageIdToLine (stateAfter doc ops idx)) = anchored ∪ (named ∩ dom idx).
Proof.
  intros named anchored.
  assert (Hgen : forall st (seen : gset (list N)),
            dom (messageIdToLine st) = anchored ∪ (seen ∩ dom idx) ->
            size (dom (messageIdToLine st)) = size anchored + insertedCount st ->
            let st' := foldl (applyOperation idx) st ops in
            let seen' := seen ∪ list_to_set (map messageId ops) in
            dom (messageIdToLine st') = anchored ∪ (seen' ∩ dom idx)
            /\ size (dom (messageIdToLine st')) = size anchored + insertedCount st').
  { induction ops as [|op ops IH]; intros st seen Hd Hs; simpl.
    - split; [rewrite Hd; set_solver | exact Hs].
    - destruct (applyOperation_dom idx st op) as [(Hk & Hn & Hd' & Hc)|(Hk & Hd' & Hc)];
        simpl in *.
      + destruct (IH (applyOperation idx st op) (seen ∪ {[messageId op]})) as [H1 H2].
        * rewrite Hd', Hd. set_solver.
        * rewrite Hd', size_union by set_solver. rewrite size_singleton, Hc. lia.
        * split; [rewrite H1; set_solver | exact H2].
      + destruct (IH (applyOperation idx st op) (seen ∪ {[messageId op]})) as [H1 H2].
        * rewrite Hd', Hd. rewrite Hd in Hk. set_solver.
        * rewrite Hd', Hc. exact Hs.
        * split; [rewrite H1; set_solver | exact H2]. }
  destruct (Hgen (initialState doc) ∅) as [H1 H2].
  - fold anchored. set_solver.
  - fold anchored. destruct (initialState_fields doc) as (_ & -> & _). lia.
  - fold (stateAfter doc ops idx) in H1, H2. fold named in H1.
    split; [|rewrite H1; set_solver].
    assert (Hsplit : dom (messageIdToLine (stateAfter doc ops idx))
                     = anchored ∪ ((named ∩ dom idx) ∖ anchored)).
    { rewrite H1. apply set_eq. intros x.
      destruct (decide (x ∈ anchored)); set_solver. }
    rewrite Hsplit, size_union in H2 by set_solver. lia.
Qed.

(** *** The documented positions *)

(** X9. In any state of a run, for an operation that passes both checks:
    position append inserts the block at the end of the target section,
    before the next header line or at the end of the document; position
    prepend inserts it right below the header line. Neither reports
    anything beyond the creation of the section. *)
Theorem append_and_prepend idx doc pre op msg :
  let st := stateAfter doc pre idx in
  idx !! messageId op = Some msg ->
  messageIdToLine st !! messageId op = None ->
  let st' := applyOperation idx st op in
  let sec := resolveSection st (trim (category op)) in
  let block := formatMessageBlock msg idx in
  (position op = PosString (js "append") ->
     let k := nextCat (lines sec) (catLine sec) in
     endOfSection (lines sec) (catLine sec) k
     /\ newLines st' = take k (lines sec) ++ block :: drop k (lines sec)
     /\ newLines st' !! k = Some block
     /\ reports st' = reports st ++ created sec)
  /\ (position op = PosString (js "prepend") ->
       let k := catLine sec + 1 in
       newLines st' = take k (lines sec) ++ block :: drop k (lines sec)
       /\ (exists header, newLines st' !! catLine sec = Some header
                          /\ trim header = trim (category op))
       /\ newLines st' !! k = Some block
       /\ reports st' = reports st ++ created sec).
Proof.
  intros st Hm Hn st' sec block.
  destruct (applyOperation_inserts idx st op msg Hm Hn) as (Hl & Hc & Hr).
  assert (Hhead := resolved_header doc pre idx (category op)).
  fold st in Hhead. simpl in Hhead. fold sec in Hhead, Hl, Hr. fold st' in Hl, Hr.
  destruct Hhead as (h & Hh & Ht).
  assert (Hlt : catLine sec < length (lines sec)) by (eapply lookup_lt_Some, Hh).
  split.
  - intros Hp k. rewrite Hp in Hl, Hr. simpl in Hl, Hr. rewrite app_nil_r in Hr.
    pose proof (nextCat_endOfSection (lines sec) (catLine sec) Hlt) as He.
    split; [exact He|]. split; [exact Hl|]. split; [|exact Hr].
    rewrite Hl. apply splice_lookup_at. apply nextCat_le.
  - intros Hp k. rewrite Hp in Hl, Hr. simpl in Hl, Hr. rewrite app_nil_r in Hr.
    split; [exact Hl|]. split; [|split; [|exact Hr]].
    + exists h. split; [|exact Ht]. rewrite Hl.
      apply splice_lookup_before; [lia | exact Hh].
    + rewrite Hl. apply splice_lookup_at. lia.
Qed.

Lemma append_and_prepend_witness :
  let st := stateAfter Samples.foodDocument [] Samples.index in
  newLines (applyOperation Samples.index st Samples.appendA)
  = [[]; Samples.food; []; js "[2024-01-01] first[10]"; Samples.blockA;
     js "## Money"; []].
Proof.
  intros st.
  destruct (append_and_prepend Samples.index Samples.foodDocument []
              Samples.appendA Samples.msgA eq_refl eq_refl) as [Ha _].
  destruct (Ha eq_refl) as (_ & Hl & _). exact Hl.
Defined.

(** X10. In any state of a run with a block source keyed by identifier,
    for an operation that passes both checks: when its [afterId] is in
    the anchor index at line [refLine], the block is inserted right below
    that line, which still ends with the referenced anchor; when it has no
    [afterId] and its [beforeId] is in the anchor index at line
    [refLine], the block takes that line and the line with the referenced
    anchor moves right below it. In both cases the section of the
    operation plays no part in the placement and no warning is reported. *)
Theorem resolved_anchor_positions idx doc pre op msg :
  keyed idx ->
  let st := stateAfter doc pre idx in
  idx !! messageId op = Some msg ->
  messageIdToLine st !! messageId op = None ->
  let st' := applyOperation idx st op in
  let sec := resolveSection st (trim (category op)) in
  let block := formatMessageBlock msg idx in
  (forall a b refLine,
      position op = PosObject (Some a) b -> a <> [] ->
      messageIdToLine st !! a = Some refLine ->
      newLines st' = take (refLine + 1) (lines sec) ++ block :: drop (refLine + 1) (lines sec)
      /\ (exists line, newLines st' !! refLine = Some line /\ endsWithAnchor a line)
      /\ newLines st' !! (refLine + 1) = Some block
      /\ reports st' = reports st ++ created sec)
  /\ (forall a b refLine,
        position op = PosObject a (Some b) -> truthy a = false -> b <> [] ->
        messageIdToLine st !! b = Some refLine ->
        newLines st' = take refLine (lines sec) ++ block :: drop refLine (lines sec)
        /\ newLines st' !! refLine = Some block
        /\ (exists line, newLines st' !! (refLine + 1) = Some line
                         /\ endsWithAnchor b line)
        /\ reports st' = reports st ++ created sec).
Proof.
  intros Hkey st Hm Hn st' sec block.
  destruct (applyOperation_inserts idx st op msg Hm Hn) as (Hl & Hc & Hr).
  fold sec in Hl, Hr. fold st' in Hl, Hr.
  destruct (stateAfter_wellIndexed doc pre idx Hkey) as [_ Ha]. fold st in Ha.
  assert (Href : forall m i, messageIdToLine st !! m = Some i ->
            exists line, lines sec !! i = Some line /\ endsWithAnchor m line).
  { intros m i H. destruct (Ha m i H) as (line & Hline & He). exists line.
    split; [apply resolveSection_prefix, Hline | exact He]. }
  split.
  - intros a b refLine Hp Hne Hf. rewrite Hp in Hl, Hr.
    destruct a as [|x a]; [congruence|]. simpl in Hl, Hr. rewrite Hf in Hl, Hr.
    simpl in Hl, Hr. rewrite app_nil_r in Hr.
    destruct (Href _ _ Hf) as (line & Hline & He).
    assert (refLine < length (lines sec)) by (eapply lookup_lt_Some, Hline).
    split; [exact Hl|]. split; [|split; [|exact Hr]].
    + exists line. split; [|exact He]. rewrite Hl.
      apply splice_lookup_before; [lia | exact Hline].
    + rewrite Hl. apply splice_lookup_at. lia.
  - intros a b refLine Hp Hta Hne Hf. rewrite Hp in Hl, Hr.
    destruct b as [|y b]; [congruence|].
    destruct (Href _ _ Hf) as (line & Hline & He).
    assert (refLine < length (lines sec)) by (eapply lookup_lt_Some, Hline).
    destruct a as [[|x a]|]; simpl in Hta; try discriminate;
      simpl in Hl, Hr; rewrite Hf in Hl, Hr; simpl in Hl, Hr; rewrite app_nil_r in Hr;
      (split; [exact Hl|]; split; [|split; [|exact Hr]];
       [rewrite Hl; apply splice_lookup_at; lia
       |exists line; split; [|exact He]; rewrite Hl;
        apply splice_lookup_after; [lia | exact Hline]]).
Qed.

Lemma resolved_anchor_positions_witness :
  let st := stateAfter Samples.foodDocument [] Samples.index in
  let blockB := formatMessageBlock Samples.msgB Samples.index in
  keyed Samples.index
  /\ newLines (applyOperation Samples.index st MoreSamples.afterTen)
     = [[]; Samples.food; []; js "[2024-01-01] first[10]"; blockB; js "## Money"; []]
  /\ newLines (applyOperation Samples.index st MoreSamples.beforeTen)
     = [[]; Samples.food; []; blockB; js "[2024-01-01] first[10]"; js "## Money"; []].
Proof.
  intros st blockB.
  assert (Hkey : keyed Samples.index) by apply buildMessageIndex_keyed.
  split; [exact Hkey|].
  destruct (resolved_anchor_positions Samples.index Samples.foodDocument []
              MoreSamples.afterTen Samples.msgB Hkey eq_refl eq_refl) as [Hafter _].
  destruct (resolved_anchor_positions Samples.index Samples.foodDocument []
              MoreSamples.beforeTen Samples.msgB Hkey eq_refl eq_refl) as [_ Hbefore].
  destruct (Hafter (js "10") None 3 eq_refl) as (H1 & _); [discriminate | reflexivity |].
  destruct (Hbefore None (js "10") 3 eq_refl eq_refl) as (H2 & _);
    [discriminate | reflexivity |].
  split; [exact H1 | exact H2].
Defined.

(** *** Running a batch again *)

Lemma splitLines_suffix (b s : list N) :
  NL ∉ s -> exists pre seg, splitLines (b ++ s) = pre ++ [seg ++ s].
Proof.
  intros Hs. induction b as [|c b IH]; simpl.
  - exists [], []. apply splitLines_no_NL, Hs.
  - destruct IH as (pre & seg & ->).
    destruct (c =? NL)%N.
    + exists ([] :: pre), seg. reflexivity.
    + destruct pre as [|p pre]; simpl.
      * exists [], (c :: seg). reflexivity.
      * exists ((c :: p) :: pre), seg. reflexivity.
Qed.

Lemma digits_anchor_no_NL m : digits m -> NL ∉ [LBRACKET] ++ m ++ [RBRACKET].
Proof.
  intros [_ Hd] Hin. apply elem_of_cons in Hin as [Hin|Hin]; [discriminate|].
  apply elem_of_app in Hin as [Hin|Hin].
  - rewrite Forall_forall in Hd. specialize (Hd _ Hin). discriminate.
  - apply list_elem_of_singleton in Hin. discriminate.
Qed.

(** An anchored line keeps its anchor when the document is written and
    read back. *)
Lemma anchor_survives_round_trip (ls : list (list N)) line m :
  line ∈ ls -> digits m -> endsWithAnchor m line ->
  exists seg, seg ∈ splitLines (join [NL] ls) /\ anchorId seg = Some m.
Proof.
  intros Hin Hd [before ->].
  assert (Hne : ls <> []) by (intros ->; inversion Hin).
  rewrite splitLines_join by exact Hne.
  destruct (splitLines_suffix before ([LBRACKET] ++ m ++ [RBRACKET])
              (digits_anchor_no_NL m Hd)) as (pre & seg & Hsplit).
  exists (seg ++ [LBRACKET] ++ m ++ [RBRACKET]). split.
  - apply list_elem_of_In, in_concat. eexists. split.
    + apply in_map, list_elem_of_In, Hin.
    + rewrite Hsplit. apply in_or_app. right. left. reflexivity.
  - apply anchorId_spec. split; [exact Hd|]. exists seg. reflexivity.
Qed.

Lemma indexLines_has (rest : list (list N)) m : forall i cats ids,
  is_Some (ids !! m) \/ (exists line, line ∈ rest /\ anchorId line = Some m) ->
  is_Some ((indexLines i rest cats ids).2 !! m).
Proof.
  induction rest as [|l rest IH]; intros i cats ids H; simpl.
  - destruct H as [H|(line & Hin & _)]; [exact H | inversion Hin].
  - apply IH. destruct H as [H|(line & Hin & Ha)].
    + left. destruct (anchorId l) as [a|]; [|exact H].
      destruct (decide (a = m)) as [->|Hne];
        [rewrite lookup_insert_eq; eauto | rewrite lookup_insert_ne; auto].
    + apply elem_of_cons in Hin as [->|Hin]; [|right; eauto].
      left. rewrite Ha, lookup_insert_eq. eauto.
Qed.

Lemma initialState_has doc line m :
  line ∈ doc -> anchorId line = Some m ->
  is_Some (messageIdToLine (initialState doc) !! m).
Proof.
  intros Hin Ha. unfold initialState.
  pose proof (indexLines_has doc m 0 ∅ ∅) as H.
  destruct (indexLines 0 doc ∅ ∅) as [cats ids]; simpl in *.
  apply H. right. eauto.
Qed.

(** A batch whose known identifiers are all anchored changes nothing. *)
Lemma foldl_all_skipped idx ops : forall st,
  (forall op, op ∈ ops -> known idx op -> is_Some (messageIdToLine st !! messageId op)) ->
  core (foldl (applyOperation idx) st ops) = core st.
Proof.
  induction ops as [|op ops IH]; intros st H; simpl; [reflexivity|].
  assert (Hstep : exists r, applyOperation idx st op = report st r).
  { destruct (decide (known idx op)) as [Hk|Hk].
    - destruct Hk as [msg Hm]. eexists. eapply applyOperation_skips; [exact Hm|].
      apply H; [apply list_elem_of_here | eexists; exact Hm].
    - eexists. apply applyOperation_unknown, Hk. }
  destruct Hstep as [r ->]. rewrite IH; [apply core_report|].
  intros op' Hin Hk. simpl. apply H; [apply list_elem_of_further, Hin | exact Hk].
Qed.

(** X11. Running a batch a second time, on the document text the first
    run produced, changes nothing: provided the identifiers of the
    operations that name a block of the source are non-empty strings of
    digits, the second run inserts no block and returns the text as it
    was given. *)
Theorem second_run_changes_nothing doc ops messages :
  let idx := buildMessageIndex messages in
  (forall op, op ∈ ops -> known idx op -> digits (messageId op)) ->
  let out := applyOperations doc ops idx in
  applyOperations (splitLines out) ops idx = out
  /\ insertedCount (stateAfter (splitLines out) ops idx) = 0.
Proof.
  intros idx Hdig out.
  set (st := stateAfter doc ops idx).
  assert (Hout : out = join [NL] (newLines st)) by reflexivity.
  destruct (stateAfter_wellIndexed doc ops idx (buildMessageIndex_keyed messages))
    as [_ Ha]. fold st in Ha.
  assert (Hanch : forall op, op ∈ ops -> known idx op ->
            is_Some (messageIdToLine (initialState (splitLines out)) !! messageId op)).
  { intros op Hin Hk.
    assert (Hst : is_Some (messageIdToLine st !! messageId op)).
    { apply list_elem_of_split in Hin as (ops1 & ops2 & ->).
      unfold st. rewrite stateAfter_app.
      change (foldl (applyOperation idx) ?s (op :: ops2))
        with (foldl (applyOperation idx) (applyOperation idx s op) ops2).
      apply foldl_keeps_anchor. destruct Hk as [msg Hm].
      eapply applyOperation_anchors, Hm. }
    destruct Hst as [i Hi]. destruct (Ha _ _ Hi) as (line & Hline & Hend).
    destruct (anchor_survives_round_trip (newLines st) line (messageId op))
      as (seg & Hseg & Hid).
    - eapply list_elem_of_lookup_2, Hline.
    - apply Hdig; assumption.
    - exact Hend.
    - rewrite Hout. eapply initialState_has; eassumption. }
  pose proof (foldl_all_skipped idx ops (initialState (splitLines out)) Hanch) as Hcore.
  fold (stateAfter (splitLines out) ops idx) in Hcore.
  unfold core in Hcore. injection Hcore as Hl _ _ Hc.
  destruct (initialState_fields (splitLines out)) as (Hd & Hz & _).
  split; [|rewrite Hc; exact Hz].
  unfold applyOperations, runOperations. simpl. rewrite Hl, Hd. apply join_splitLines.
Qed.

Lemma second_run_changes_nothing_witness :
  let out := applyOperations Samples.foodDocument [Samples.appendA; Samples.appendB]
               Samples.index in
  applyOperations (splitLines out) [Samples.appendA; Samples.appendB] Samples.index = out.
Proof.
  intros out.
  apply (second_run_changes_nothing Samples.foodDocument
           [Samples.appendA; Samples.appendB]
           [Samples.msgA; Samples.msgB; Samples.msgC; Samples.msgD]).
  intros op Hin _.
  apply elem_of_cons in Hin as [->|Hin];
    [|apply list_elem_of_singleton in Hin as ->];
    (split; [discriminate | repeat constructor]).
Defined.

End ApplierMore.

(** ** Further facts on the citation renderer *)

Module FootnotesMore.
Import Footnotes Props Validation FootnotesProps JsStringFacts FootnotesFacts.

(** *** Where an offset snaps to *)

Lemma clamp_le text a b : (a <= b)%Z -> clamp text a <= clamp text b.
Proof. unfold clamp. lia. Qed.

Lemma snap_bounds text atChar :
  clamp text atChar <= moveToSentenceEnd text atChar <= length text.
Proof.
  unfold moveToSentenceEnd. fold (clamp text atChar).
  assert (Hc : clamp text atChar <= length text) by (unfold clamp; lia).
  destruct (decide (length text <= clamp text atChar)); [lia|].
  destruct (indexWhere isTerminator (drop (clamp text atChar) text)) as [m|] eqn:Et.
  - destruct (indexWhere_firstFrom _ _ _ _ Et) as (_ & (c & Hc' & _) & _).
    apply lookup_lt_Some in Hc'.
    destruct (skipClosing_run text (clamp text atChar + m + 1)) as (Hr & _); lia.
  - destruct (indexWhere isNewline (drop (clamp text atChar) text)) as [nl|] eqn:En;
      [|lia].
    destruct (indexWhere_firstFrom _ _ _ _ En) as (_ & (c & Hc' & _) & _).
    apply lookup_lt_Some in Hc'. lia.
Qed.

(** The four ways an offset is snapped. *)
Lemma snap_cases text atChar :
  let s := clamp text atChar in
  let k := moveToSentenceEnd text atChar in
  (length text <= s /\ k = length text)
  \/ (exists i, firstFrom isTerminator text s i /\ closingRun text (i + 1) k)
  \/ (noneFrom isTerminator text s /\ exists i, firstFrom isNewline text s i /\ k = i)
  \/ (noneFrom isTerminator text s /\ noneFrom isNewline text s /\ k = length text).
Proof.
  intros s k. unfold k, moveToSentenceEnd. fold (clamp text atChar). fold s.
  destruct (decide (length text <= s)); [left; auto|]. right.
  destruct (indexWhere isTerminator (drop s text)) as [m|] eqn:Et.
  - left. exists (s + m). split; [apply indexWhere_firstFrom, Et|].
    apply skipClosing_run.
    destruct (indexWhere_firstFrom _ _ _ _ Et) as (_ & (c & Hc & _) & _).
    apply lookup_lt_Some in Hc. lia.
  - right. pose proof (indexWhere_noneFrom _ _ _ Et) as Hn.
    destruct (indexWhere isNewline (drop s text)) as [nl|] eqn:En.
    + left. split; [exact Hn|]. exists (s + nl).
      split; [apply indexWhere_firstFrom, En | reflexivity].
    + right. split; [exact Hn|]. split; [apply indexWhere_noneFrom, En | reflexivity].
Qed.

Lemma closing_is_plain c :
  isClosing c = true -> isTerminator c = false /\ isNewline c = false.
Proof.
  unfold isClosing, isTerminator, isNewline, QUOTE, APOSTROPHE, RPAREN, RBRACKET,
    DOT, BANG, QUESTION, NL.
  rewrite !orb_true_iff, !orb_false_iff, !N.eqb_eq, !N.eqb_neq. lia.
Qed.

Lemma closingRun_unique text i k k' :
  closingRun text i k -> closingRun text i k' -> k = k'.
Proof.
  intros (Hr & Hrun & Hend) (Hr' & Hrun' & Hend').
  destruct (Nat.lt_trichotomy k k') as [Hlt|[Heq|Hgt]]; [|exact Heq|].
  - destruct (lookup_lt_is_Some_2 text k) as [c Hc]; [lia|].
    specialize (Hend c Hc). rewrite (Hrun' k c) in Hend by (lia || assumption).
    discriminate.
  - destruct (lookup_lt_is_Some_2 text k') as [c Hc]; [lia|].
    specialize (Hend' c Hc). rewrite (Hrun k' c) in Hend' by (lia || assumption).
    discriminate.
Qed.

Lemma firstFrom_later p text s s' i :
  firstFrom p text s i -> s <= s' <= i -> firstFrom p text s' i.
Proof.
  intros (Hi & Hc & Hb) Hs. split; [lia|]. split; [exact Hc|].
  intros j c Hj. apply Hb. lia.
Qed.

Lemma noneFrom_later p text s s' : noneFrom p text s -> s <= s' -> noneFrom p text s'.
Proof. intros H Hs j c Hj. apply H. lia. Qed.

Lemma snap_monotone text a b :
  (a <= b)%Z -> moveToSentenceEnd text a <= moveToSentenceEnd text b.
Proof.
  intros Hab. pose proof (clamp_le text a b Hab) as Hs.
  pose proof (snap_bounds text a) as Ba. pose proof (snap_bounds text b) as Bb.
  destruct (snap_cases text a) as [[Ha Hka]|[(i & Hi & Hrun)|[(Hn & i & Hi & Hka)|(Hn & Hnl & Hka)]]];
    simpl in *.
  - lia.
  - destruct (decide (clamp text b <= i)) as [Hle|Hgt].
    + pose proof (firstFrom_later _ _ _ _ _ Hi (conj Hs Hle)) as Hi'.
      destruct (snap_cases text b)
        as [[Hb _]|[(j & Hj & Hrun')|[(Hn & _)|(Hn & _)]]]; simpl in *.
      * destruct Hi as (_ & (c & Hc & _) & _). apply lookup_lt_Some in Hc. lia.
      * rewrite <- (firstFrom_unique _ _ _ _ _ Hi' Hj) in Hrun'.
        rewrite (closingRun_unique _ _ _ _ Hrun Hrun'). lia.
      * destruct (firstFrom_noneFrom _ _ _ _ Hi' Hn).
      * destruct (firstFrom_noneFrom _ _ _ _ Hi' Hn).
    + destruct (decide (moveToSentenceEnd text a <= clamp text b)); [lia|].
      destruct Hrun as (Hr & Hclose & _).
      assert (Hplain : forall p j c, clamp text b <= j -> text !! j = Some c ->
                p c = true -> (forall x, isClosing x = true -> p x = false) ->
                moveToSentenceEnd text a <= j).
      { intros p j c Hj Hc Hp Hcl.
        destruct (decide (moveToSentenceEnd text a <= j)); [assumption|].
        rewrite (Hcl c) in Hp; [discriminate|]. apply (Hclose j c); (lia || assumption). }
      destruct (snap_cases text b)
        as [[Hb _]|[(j & Hj & Hrun')|[(_ & j & Hj & Hkb)|(_ & _ & Hkb)]]]; simpl in *.
      * lia.
      * destruct Hj as (Hj & (c & Hc & Hp) & _). destruct Hrun' as (Hr' & _).
        pose proof (Hplain isTerminator j c Hj Hc Hp
                      (fun x Hx => proj1 (closing_is_plain x Hx))). lia.
      * destruct Hj as (Hj & (c & Hc & Hp) & _).
        pose proof (Hplain isNewline j c Hj Hc Hp
                      (fun x Hx => proj2 (closing_is_plain x Hx))). lia.
      * lia.
  - pose proof (noneFrom_later _ _ _ _ Hn Hs) as Hn'.
    destruct (snap_cases text b)
      as [[Hb Hkb]|[(j & Hj & _)|[(_ & j & Hj & Hkb)|(_ & _ & Hkb)]]]; simpl in *.
    + lia.
    + destruct (firstFrom_noneFrom _ _ _ _ Hj Hn').
    + destruct (decide (clamp text b <= i)) as [Hle|Hgt].
      * pose proof (firstFrom_later _ _ _ _ _ Hi (conj Hs Hle)) as Hi'.
        rewrite (firstFrom_unique _ _ _ _ _ Hi' Hj) in Hka. lia.
      * destruct Hj as (Hj & _). lia.
    + lia.
  - pose proof (noneFrom_later _ _ _ _ Hn Hs) as Hn'.
    pose proof (noneFrom_later _ _ _ _ Hnl Hs) as Hnl'.
    destruct (snap_cases text b)
      as [[Hb Hkb]|[(j & Hj & _)|[(_ & j & Hj & Hkb)|(_ & _ & Hkb)]]]; simpl in *.
    + lia.
    + destruct (firstFrom_noneFrom _ _ _ _ Hj Hn').
    + destruct (firstFrom_noneFrom _ _ _ _ Hj Hnl').
    + lia.
Qed.

(** X12. The snapped offset lies between the clamped request offset and
    the end of the text, so a marker never moves backwards and the slices
    of the renderer are within the text; and snapping keeps the order of
    offsets: a request at a larger offset never snaps before a request at
    a smaller one. *)
Theorem snapped_offset_bounds text :
  (forall atChar,
      clamp text atChar <= moveToSentenceEnd text atChar <= length text)
  /\ (forall a b, (a <= b)%Z -> moveToSentenceEnd text a <= moveToSentenceEnd text b).
Proof. split; [apply snap_bounds | apply snap_monotone]. Qed.

(** *** Where the markers land *)

Lemma foldr_insertMarker_weave (markers : list (nat * list N)) : forall pre t,
  StronglySorted le (map fst markers) ->
  Forall (fun a => length pre <= a <= length pre + length t) (map fst markers) ->
  foldr insertMarker (pre ++ t) markers = pre ++ weave (length pre) t markers.
Proof.
  induction markers as [|[a m] rest IH]; intros pre t Hs Hb; [reflexivity|].
  simpl in Hs, Hb. apply StronglySorted_inv in Hs as [Hs Hall].
  apply Forall_cons in Hb as [Ha Hb]. simpl in Ha.
  set (c := length pre) in *.
  assert (Hlen : length (pre ++ take (a - c) t) = a).
  { rewrite length_app, length_take. fold c. lia. }
  simpl foldr.
  rewrite <- (take_drop (a - c) t) at 1. rewrite app_assoc.
  rewrite (IH (pre ++ take (a - c) t) (drop (a - c) t) Hs).
  - rewrite Hlen. unfold insertMarker. simpl fst. simpl snd.
    rewrite take_app_length', drop_app_length' by (symmetry; exact Hlen).
    simpl weave. fold c. rewrite <- !app_assoc. reflexivity.
  - rewrite Hlen, length_drop. rewrite Forall_forall in Hall, Hb |- *.
    intros x Hx. specialize (Hall x Hx). specialize (Hb x Hx). lia.
Qed.

Lemma weave_sublist (markers : list (nat * list N)) : forall c t,
  t `sublist_of` weave c t markers.
Proof.
  induction markers as [|[a m] rest IH]; intros c t; simpl; [reflexivity|].
  rewrite <- (take_drop (a - c) t) at 1.
  apply sublist_app; [reflexivity|]. apply sublist_inserts_l, IH.
Qed.

Lemma insertMarkersOf_keys groups atChars : forall refNumber,
  map fst (insertMarkersOf (numberGroups atChars groups refNumber)) = atChars.
Proof.
  induction atChars as [|a atChars IH]; intros r; simpl; [reflexivity|].
  destruct (numberInserts (groupsGet a groups) r) as [numbered next]. simpl.
  unfold insertMarkersOf in IH. rewrite IH. reflexivity.
Qed.

Lemma groupPush_keys key ins groups k :
  k ∈ map fst (groupPush key ins groups) -> k = key \/ k ∈ map fst groups.
Proof.
  rewrite keys_push. case_decide as Hd; [auto|].
  intros [Hk|Hk%list_elem_of_singleton]%elem_of_app; auto.
Qed.

Lemma buildGroups_keys baseText inserts : forall groups k,
  k ∈ map fst (foldl (fun groups ins =>
                        groupPush (moveToSentenceEnd baseText (at_ ins)) ins groups)
                     groups inserts) ->
  k ∈ map fst groups \/ exists ins, ins ∈ inserts /\ snapOf baseText ins = k.
Proof.
  induction inserts as [|ins inserts IH]; intros groups k; simpl; [auto|].
  intros [H|(x & Hx & Hk)]%IH.
  - apply groupPush_keys in H as [->|H]; [|auto].
    right. exists ins. split; [apply list_elem_of_here | reflexivity].
  - right. exists x. split; [apply list_elem_of_further, Hx | exact Hk].
Qed.

Lemma sortedKeys_facts baseText inserts :
  let keys := sortedKeys (buildGroups baseText inserts) in
  StronglySorted le keys /\ NoDup keys
  /\ Forall (fun a => a <= length baseText) keys.
Proof.
  intros keys. unfold keys, sortedKeys.
  split; [apply StronglySorted_merge_sort; apply _|].
  destruct (keys_foldl baseText inserts [] (NoDup_nil_2)) as (Hnd & _ & _).
  fold (buildGroups baseText inserts) in Hnd.
  split; [rewrite merge_sort_Permutation; exact Hnd|].
  apply Forall_forall. intros k Hk. rewrite merge_sort_Permutation in Hk.
  apply buildGroups_keys in Hk as [Hk|(ins & _ & <-)]; [inversion Hk|].
  apply snap_bounds.
Qed.

(** X13. Inserting the markers from the last one to the first one puts
    every marker where it was snapped to: the rendered text is the entry
    text cut at the marker offsets, which are distinct, ascending and
    within the text, with each marker between two consecutive pieces.
    Nothing of the entry text is lost or reordered. *)
Theorem markers_are_woven_in entry :
  let markers := markersOf entry in
  outText (applyWikipediaFootnotes entry) = weave 0 (text entry) markers
  /\ StronglySorted le (map fst markers)
  /\ NoDup (map fst markers)
  /\ Forall (fun a => a <= length (text entry)) (map fst markers)
  /\ text entry `sublist_of` outText (applyWikipediaFootnotes entry).
Proof.
  intros markers.
  destruct (sortedKeys_facts (text entry)
              (omap (normalizeInsert (text entry)) (citationInserts entry)))
    as (Hs & Hnd & Hb).
  assert (Hkeys : map fst markers
                  = sortedKeys (buildGroups (text entry)
                      (omap (normalizeInsert (text entry)) (citationInserts entry))))
    by apply insertMarkersOf_keys.
  assert (Hw : outText (applyWikipediaFootnotes entry) = weave 0 (text entry) markers).
  { unfold applyWikipediaFootnotes. simpl. fold (markersOf entry). fold markers.
    apply (foldr_insertMarker_weave markers [] (text entry)).
    - rewrite Hkeys. exact Hs.
    - rewrite Hkeys. eapply Forall_impl; [exact Hb|]. simpl. intros; lia. }
  rewrite Hkeys. split; [exact Hw|]. split; [exact Hs|]. split; [exact Hnd|].
  split; [exact Hb|]. rewrite Hw. apply weave_sublist.
Qed.

(** *** The footnote table *)

Lemma uniqFrom_spec (ids : list (list N)) : forall seen,
  NoDup (uniqFrom seen ids)
  /\ (forall x, x ∈ uniqFrom seen ids <-> x ∈ ids /\ x ∉ seen)
  /\ uniqFrom seen ids `sublist_of` ids.
Proof.
  induction ids as [|y ids IH]; intros seen; simpl.
  - split; [constructor|]. split; [|reflexivity].
    intros x. rewrite elem_of_nil. tauto.
  - destruct (decide (y ∈ seen)) as [Hy|Hy].
    + destruct (IH seen) as (Hnd & Hin & Hsub).
      split; [exact Hnd|]. split; [|apply sublist_cons, Hsub].
      intros x. rewrite Hin, elem_of_cons. split; [tauto|].
      intros [[->|Hx] Hn]; [contradiction | tauto].
    + destruct (IH (y :: seen)) as (Hnd & Hin & Hsub).
      split; [|split; [|apply sublist_skip, Hsub]].
      * apply NoDup_cons. split; [|exact Hnd].
        rewrite Hin. intros [_ Hn]. apply Hn, list_elem_of_here.
      * intros x. rewrite !elem_of_cons, Hin, not_elem_of_cons.
        destruct (decide (x = y)) as [->|Hne]; tauto.
Qed.

Lemma length_omap_normalize baseText (requests : list CitationInsert) :
  length (omap (normalizeInsert baseText) requests)
  = length (filter (fun ins => validAtChar baseText ins = true) requests).
Proof.
  induction requests as [|ins requests IH]; [reflexivity|].
  change (omap (normalizeInsert baseText) (ins :: requests))
    with (match normalizeInsert baseText ins with
          | Some y => y :: omap (normalizeInsert baseText) requests
          | None => omap (normalizeInsert baseText) requests
          end).
  unfold normalizeInsert at 1.
  destruct (validAtChar baseText ins) eqn:E.
  - rewrite filter_cons_True by exact E.
    unfold validAtChar in E. destruct (atChar ins); [|discriminate].
    simpl. rewrite IH. reflexivity.
  - rewrite filter_cons_False by (rewrite E; discriminate).
    destruct (atChar ins); exact IH.
Qed.

Lemma normalizeInsert_ids baseText ins norm :
  normalizeInsert baseText ins = Some norm ->
  Forall (fun m => m <> [] /\ trim m = m) (messageIds norm).
Proof.
  unfold normalizeInsert. destruct (atChar ins); [|discriminate].
  destruct (validAtChar baseText ins); [|discriminate]. intros [= <-]. simpl.
  apply Forall_forall. intros m [Hm Hin]%list_elem_of_filter.
  split; [exact Hm|].
  apply list_elem_of_In, in_map_iff in Hin as (s & <- & _). apply trim_idempotent.
Qed.

(** The numbered inserts: the numbers are 1, 2, 3 and so on, and the
    inserts are the supplied ones in some order. *)
Lemma assigned_shape baseText inserts :
  map fst (assigned baseText inserts) = seq 1 (length inserts)
  /\ Permutation (map snd (assigned baseText inserts)) inserts.
Proof.
  set (snap := snapOf baseText).
  set (groups := buildGroups baseText inserts).
  set (atChars := sortedKeys groups).
  destruct (keys_foldl baseText inserts [] (NoDup_nil_2)) as (Hnd & Hcover & _).
  fold (buildGroups baseText inserts) in Hnd, Hcover. fold groups in Hnd, Hcover.
  assert (Hget : forall k, groupsGet k groups
                           = filter (fun ins => snap ins = k) inserts)
    by (intros k; apply (groupsGet_foldl baseText inserts [] k)).
  assert (Hperm : Permutation atChars (map fst groups))
    by apply merge_sort_Permutation.
  set (listed := concat (map (fun a => filter (fun ins => snap ins = a) inserts)
                             atChars)).
  assert (Hzip : assigned baseText inserts = zip (seq 1 (length listed)) listed).
  { unfold assigned, numbering. fold groups. fold atChars.
    rewrite numberGroups_zip. unfold listed.
    rewrite (map_ext _ _ Hget). reflexivity. }
  assert (Hlisted : Permutation listed inserts).
  { apply listed_Permutation; [rewrite Hperm; exact Hnd|].
    intros ins Hin. rewrite Hperm. apply Hcover, Hin. }
  pose proof (Permutation_length Hlisted) as Hlen.
  rewrite Hzip. split.
  - rewrite <- Hlen. change (map fst ?l) with (fst <$> l).
    apply fst_zip. rewrite length_seq. lia.
  - change (map snd ?l) with (snd <$> l).
    rewrite snd_zip by (rewrite length_seq; lia). exact Hlisted.
Qed.

Lemma footnote_table_numbers entry :
  map fst (footnotes (applyWikipediaFootnotes entry))
  = seq 1 (length (filter (fun ins => validAtChar (text entry) ins = true)
                          (citationInserts entry))).
Proof.
  set (inserts := omap (normalizeInsert (text entry)) (citationInserts entry)).
  destruct (assigned_shape (text entry) inserts) as [Hnum _].
  change (footnotes (applyWikipediaFootnotes entry))
    with (map (fun p : nat * Insert => (p.1, uniq (messageIds p.2)))
              (assigned (text entry) inserts)).
  rewrite map_map. simpl.
  change (map (fun x : nat * Insert => x.1) ?l) with (map fst l).
  rewrite Hnum. unfold inserts. rewrite length_omap_normalize. reflexivity.
Qed.

(** X14. The footnote table of a rendered entry has one row per valid
    request, numbered 1, 2, 3 and so on without a gap; the sources of a
    row are pairwise distinct, none of them is empty, and all of them are
    trimmed. *)
Theorem footnote_table_shape entry :
  let valid := filter (fun ins => validAtChar (text entry) ins = true)
                      (citationInserts entry) in
  let table := footnotes (applyWikipediaFootnotes entry) in
  map fst table = seq 1 (length valid)
  /\ Forall (fun row => NoDup row.2
                        /\ Forall (fun m => m <> [] /\ trim m = m) row.2) table.
Proof.
  intros valid table.
  set (inserts := omap (normalizeInsert (text entry)) (citationInserts entry)).
  destruct (assigned_shape (text entry) inserts) as [_ Hperm].
  assert (Htable : table = map (fun p => (p.1, uniq (messageIds p.2)))
                               (assigned (text entry) inserts)) by reflexivity.
  split; [apply footnote_table_numbers|].
  rewrite Htable. apply Forall_forall. intros row Hrow.
  apply list_elem_of_In, in_map_iff in Hrow as (p & <- & Hp). simpl.
  destruct (uniqFrom_spec (messageIds p.2) []) as (Hnd & Hin & _).
  split; [exact Hnd|].
  assert (Hins : p.2 ∈ inserts).
  { rewrite <- Hperm. apply list_elem_of_In, in_map, Hp. }
  apply list_elem_of_omap in Hins as (raw & _ & Hraw).
  pose proof (normalizeInsert_ids _ _ _ Hraw) as Hids.
  rewrite Forall_forall in Hids |- *.
  intros m Hm. apply Hids. apply Hin in Hm. tauto.
Qed.

(** *** Counting defects *)

Lemma badSources_zero {A} (messageById : gmap (list N) A) (sources : list (list N)) :
  badSources messageById sources = 0
  <-> forall s, s ∈ sources -> is_Some (messageById !! s).
Proof.
  induction sources as [|s sources IH]; simpl.
  - split; [intros _ s Hs; inversion Hs | reflexivity].
  - destruct (messageById !! s) as [v|] eqn:E.
    + rewrite IH. split.
      * intros H x [->|Hx]%elem_of_cons; [rewrite E; eauto | auto].
      * intros H x Hx. apply H, list_elem_of_further, Hx.
    + split; [discriminate|]. intros H.
      destruct (H s (list_elem_of_here _ _)) as [v Hv]. congruence.
Qed.

Lemma badInserts_zero {A} (messageById : gmap (list N) A) (baseText : list N)
    (inserts : list CitationInsert) :
  badInserts messageById baseText inserts = 0
  <-> forall ins, ins ∈ inserts ->
        validRequest baseText ins
        /\ forall s, s ∈ sources ins -> is_Some (messageById !! s).
Proof.
  induction inserts as [|ins inserts IH]; simpl.
  - split; [intros _ x Hx; inversion Hx | reflexivity].
  - split.
    + intros H x [->|Hx]%elem_of_cons.
      * split; [apply validAtChar_validRequest; destruct (validAtChar baseText ins);
                [reflexivity | lia]|].
        apply badSources_zero. lia.
      * apply IH; [lia | exact Hx].
    + intros H.
      destruct (H ins (list_elem_of_here _ _)) as [Hv Hs].
      apply validAtChar_validRequest in Hv. rewrite Hv.
      apply badSources_zero in Hs. rewrite Hs. simpl.
      apply IH. intros x Hx. apply H, list_elem_of_further, Hx.
Qed.

Lemma badInserts_dropped {A} (messageById : gmap (list N) A) (baseText : list N)
    (inserts : list CitationInsert) :
  length inserts
  <= length (filter (fun ins => validAtChar baseText ins = true) inserts)
     + badInserts messageById baseText inserts.
Proof.
  induction inserts as [|ins inserts IH]; simpl; [lia|].
  destruct (validAtChar baseText ins) eqn:E.
  - rewrite filter_cons_True by exact E. simpl. lia.
  - rewrite filter_cons_False by (rewrite E; discriminate). lia.
Qed.

Lemma validateBatchCitations_entry {A} (messageById : gmap (list N) A)
    (entries : list Entry) (e : Entry) :
  e ∈ entries ->
  badInserts messageById (text e) (citationInserts e)
  <= validateBatchCitations entries messageById.
Proof.
  induction entries as [|e' entries IH]; intros Hin; [inversion Hin|].
  simpl. apply elem_of_cons in Hin as [->|Hin]; [lia|]. specialize (IH Hin). lia.
Qed.

(** X15. The defect count of a batch is zero exactly when every request
    of every entry has an integer offset within its text and only
    sources with a known message identifier; and for each entry the
    number of requests that get no footnote is at most the defect count,
    so with no defect every request is rendered. *)
Theorem validation_counts_dropped_requests {A} (entries : list Entry)
    (messageById : gmap (list N) A) :
  (validateBatchCitations entries messageById = 0
   <-> forall e ins, e ∈ entries -> ins ∈ citationInserts e ->
         validRequest (text e) ins
         /\ forall s, s ∈ sources ins -> is_Some (messageById !! s))
  /\ (forall e, e ∈ entries ->
        length (footnotes (applyWikipediaFootnotes e)) <= length (citationInserts e)
        /\ length (citationInserts e)
           <= length (footnotes (applyWikipediaFootnotes e))
              + validateBatchCitations entries messageById).
Proof.
  split.
  - induction entries as [|e entries IH]; simpl.
    + split; [intros _ e ins He; inversion He | reflexivity].
    + split.
      * intros H x ins [->|Hx]%elem_of_cons Hins.
        -- apply (badInserts_zero messageById (text e) (citationInserts e));
             [lia | exact Hins].
        -- apply IH; [lia | exact Hx | exact Hins].
      * intros H.
        assert (H1 : badInserts messageById (text e) (citationInserts e) = 0).
        { apply badInserts_zero. intros ins Hins.
          apply (H e ins); [apply list_elem_of_here | exact Hins]. }
        rewrite H1. simpl. apply IH. intros x ins Hx.
        apply H, list_elem_of_further, Hx.
  - intros e He.
    assert (Hlen : length (footnotes (applyWikipediaFootnotes e))
                   = length (filter (fun ins => validAtChar (text e) ins = true)
                                    (citationInserts e))).
    { rewrite <- (length_map fst), footnote_table_numbers, length_seq. reflexivity. }
    rewrite Hlen. split; [apply length_filter|].
    pose proof (badInserts_dropped messageById (text e) (citationInserts e)).
    pose proof (validateBatchCitations_entry messageById entries e He). lia.
Qed.

End FootnotesMore.

(** ** Facts on topics *)

Module TopicsFacts.
Import Topics TopicsProps JsStringFacts.

(** *** Slugs *)

Lemma slugChar_not_hyphen c : isSlugChar c = true -> c <> HYPHEN.
Proof.
  unfold isSlugChar, HYPHEN. rewrite orb_true_iff, !andb_true_iff, !N.leb_le. lia.
Qed.

Lemma replaceRuns_nonSlug s : forall inRun,
  hyphenated (replaceRuns (fun c => negb (isSlugChar c)) inRun s)
  /\ (inRun = true ->
      head (replaceRuns (fun c => negb (isSlugChar c)) inRun s) <> Some HYPHEN).
Proof.
  induction s as [|c s IH]; intros inRun; simpl; [split; [exact I | discriminate]|].
  destruct (isSlugChar c) eqn:E; simpl.
  - destruct (IH false) as [Hh _]. split; [split; [left; exact E | exact Hh]|].
    intros _ [= H]. apply (slugChar_not_hyphen c E H).
  - destruct (IH true) as [Hh Hhead]. destruct inRun; simpl.
    + split; [exact Hh | intros _; apply Hhead; reflexivity].
    + split; [|discriminate]. split; [right; split; [reflexivity | auto] | exact Hh].
Qed.

Lemma replaceRuns_hyphen_fixed s : forall inRun,
  hyphenated s -> (inRun = true -> head s <> Some HYPHEN) ->
  replaceRuns (fun c => (c =? HYPHEN)%N) inRun s = s.
Proof.
  induction s as [|c s IH]; intros inRun Hh Hhead; simpl; [reflexivity|].
  destruct Hh as [Hc Hh].
  destruct (N.eqb_spec c HYPHEN) as [->|Hne].
  - destruct inRun; [destruct (Hhead eq_refl); reflexivity|].
    destruct Hc as [Hc|[_ Hc]]; [discriminate|].
    rewrite (IH true Hh); [reflexivity | intros _; exact Hc].
  - rewrite (IH false Hh); [reflexivity | discriminate].
Qed.

Lemma stripLeadingHyphen_shape s :
  hyphenated s ->
  hyphenated (stripLeadingHyphen s) /\ head (stripLeadingHyphen s) <> Some HYPHEN.
Proof.
  destruct s as [|c s]; simpl; [intros _; split; [exact I | discriminate]|].
  intros [Hc Hh]. destruct (N.eqb_spec c HYPHEN) as [->|Hne].
  - destruct Hc as [Hc|[_ Hc]]; [discriminate|]. split; assumption.
  - split; [split; assumption|]. simpl. congruence.
Qed.

Lemma stripTrailingHyphen_shape s :
  hyphenated s ->
  hyphenated (stripTrailingHyphen s)
  /\ last (stripTrailingHyphen s) <> Some HYPHEN
  /\ (head s <> Some HYPHEN -> head (stripTrailingHyphen s) <> Some HYPHEN).
Proof.
  induction s as [|c s IH]; [intros _; simpl; repeat split; discriminate|].
  intros [Hc Hh]. destruct s as [|d s].
  - simpl. destruct (N.eqb_spec c HYPHEN) as [->|Hne]; simpl.
    + repeat split; discriminate.
    + split; [split; [|exact I]|split; [congruence|auto]].
      destruct Hc as [Hc|[Hc _]]; [left; exact Hc | contradiction].
  - destruct (IH Hh) as (Hh' & Hlast & Hhead).
    change (stripTrailingHyphen (c :: d :: s)) with (c :: stripTrailingHyphen (d :: s)).
    split; [|split; [|auto]].
    + split; [|exact Hh']. destruct Hc as [Hc|[Hc Hn]]; [left; exact Hc|].
      right. split; [exact Hc | apply Hhead, Hn].
    + destruct (stripTrailingHyphen (d :: s)) as [|e r] eqn:Es; [|exact Hlast].
      simpl. intros [= Heq]. destruct Hc as [Hc|[_ Hn]].
      * apply (slugChar_not_hyphen c Hc Heq).
      * destruct s as [|f s]; simpl in Es; [|discriminate].
        destruct (N.eqb_spec d HYPHEN) as [Hd|]; [|discriminate].
        apply Hn. simpl. congruence.
Qed.

Lemma hyphenated_alphabet s :
  hyphenated s ->
  Forall (fun c => isSlugChar c = true \/ c = HYPHEN) s
  /\ (forall i, s !! i = Some HYPHEN -> s !! (i + 1) <> Some HYPHEN).
Proof.
  induction s as [|c s IH]; simpl.
  - intros _. split; [constructor|]. intros i. rewrite lookup_nil. discriminate.
  - intros [Hc Hh]. destruct (IH Hh) as [Ha Hn]. split.
    + constructor; [tauto | exact Ha].
    + intros [|i]; simpl.
      * intros [= ->]. destruct Hc as [Hc|[_ Hc]]; [discriminate|].
        destruct s; [discriminate | exact Hc].
      * apply Hn.
Qed.

(** X16. Whatever the header and whatever [toLowerCase] does, the slug
    of a topic is not empty, holds only the characters a to z, 0 to 9
    and the hyphen, has no two hyphens in a row, and neither starts nor
    ends with a hyphen. *)
Theorem slug_is_safe toLowerCase topicHeader :
  let slug := slugifyTopic toLowerCase topicHeader in
  slug <> []
  /\ Forall (fun c => isSlugChar c = true \/ c = HYPHEN) slug
  /\ (forall i, slug !! i = Some HYPHEN -> slug !! (i + 1) <> Some HYPHEN)
  /\ head slug <> Some HYPHEN
  /\ last slug <> Some HYPHEN.
Proof.
  intros slug. unfold slug, slugifyTopic.
  set (norm := replaceAmpersands (toLowerCase (trim (stripHashes (trim topicHeader))))).
  destruct (replaceRuns_nonSlug norm false) as [H1 _].
  rewrite (replaceRuns_hyphen_fixed _ false H1) by discriminate.
  destruct (stripLeadingHyphen_shape _ H1) as [H2 Hhead].
  destruct (stripTrailingHyphen_shape _ H2) as (H3 & Hlast & Hhead').
  unfold stripEdgeHyphens.
  destruct (stripTrailingHyphen _) as [|c r] eqn:E.
  - split; [discriminate|]. split; [repeat constructor; left; reflexivity|].
    split; [|split; discriminate].
    intros i. do 7 (destruct i as [|i]; [discriminate|]). discriminate.
  - destruct (hyphenated_alphabet _ H3) as [Ha Hn].
    split; [discriminate|]. split; [exact Ha|]. split; [exact Hn|].
    split; [apply Hhead', Hhead | exact Hlast].
Qed.

Example slug_sample :
  slugifyTopic asciiLower (js "## Food & Dining (Jedzenie)") = js "food-and-dining-jedzenie"
  /\ slugifyTopic asciiLower (js "## ---") = js "unknown".
Proof. split; reflexivity. Qed.

(** *** Grouping by topic *)

Lemma groupMessagesByTopic_snoc messages m :
  groupMessagesByTopic (messages ++ [m]) = groupStep (groupMessagesByTopic messages) m.
Proof. unfold groupMessagesByTopic. apply foldl_snoc. Qed.

Lemma uniqFrom_snoc (l : list (list N)) (h : list N) : forall seen,
  Footnotes.uniqFrom seen (l ++ [h])
  = Footnotes.uniqFrom seen l ++ (if decide (h ∈ seen ++ l) then [] else [h]).
Proof.
  induction l as [|x l IH]; intros seen; simpl.
  - rewrite app_nil_r. destruct (decide (h ∈ seen)); reflexivity.
  - destruct (decide (x ∈ seen)) as [Hx|Hx].
    + rewrite IH. f_equal. apply decide_ext.
      rewrite !elem_of_app, elem_of_cons. split; [tauto|].
      intros [H|[->|H]]; tauto.
    + rewrite IH. simpl. f_equal. f_equal. apply decide_ext.
      repeat (rewrite elem_of_app || rewrite elem_of_cons). tauto.
Qed.

(** X17. Grouping messages by topic lists every topic header once, in
    the order of its first message; a header is a key of the map exactly
    when it is listed, and its group holds the messages with that header,
    all of them, in the order they were given. A message without a header
    is filed under the header Uncategorized. *)
Theorem topics_partition_messages (messages : list ParsedMessage) :
  let '(groups, order) := groupMessagesByTopic messages in
  order = Footnotes.uniq (map headerOf messages)
  /\ NoDup order
  /\ (forall h, h ∈ order <-> exists m, m ∈ messages /\ headerOf m = h)
  /\ (forall h, groups !! h
                = if decide (h ∈ order)
                  then Some (filter (fun m => headerOf m = h) messages)
                  else None).
Proof.
  assert (Hmain : (groupMessagesByTopic messages).2
                  = Footnotes.uniq (map headerOf messages)
                  /\ forall h, (groupMessagesByTopic messages).1 !! h
                      = if decide (h ∈ map headerOf messages)
                        then Some (filter (fun m => headerOf m = h) messages)
                        else None).
  { induction messages as [|m messages [IHo IHm]] using rev_ind.
    - split; [reflexivity|]. intros h. simpl. unfold groupMessagesByTopic. simpl.
      rewrite lookup_empty. reflexivity.
    - rewrite groupMessagesByTopic_snoc. unfold groupStep.
      destruct (groupMessagesByTopic messages) as [groups order] eqn:Eg.
      simpl in IHo, IHm. pose proof (IHm (headerOf m)) as Hm.
      rewrite map_app. simpl map. unfold Footnotes.uniq.
      rewrite uniqFrom_snoc. simpl app. fold (Footnotes.uniq (map headerOf messages)).
      destruct (decide (headerOf m ∈ map headerOf messages)) as [Hin|Hout].
      + rewrite Hm. simpl. split; [rewrite app_nil_r; exact IHo|].
        intros h. rewrite filter_app.
        destruct (decide (headerOf m = h)) as [<-|Hne].
        * rewrite lookup_insert_eq, filter_cons_True by reflexivity.
          rewrite decide_True by (apply elem_of_app; auto). reflexivity.
        * rewrite lookup_insert_ne by exact Hne. rewrite IHm.
          rewrite (filter_cons_False _ m) by exact Hne. rewrite app_nil_r.
          apply decide_ext. rewrite elem_of_app, list_elem_of_singleton.
          split; [tauto|]. intros [H|H]; [exact H | congruence].
      + rewrite Hm. simpl. split; [rewrite IHo; reflexivity|].
        intros h. rewrite filter_app.
        destruct (decide (headerOf m = h)) as [<-|Hne].
        * rewrite lookup_insert_eq, filter_cons_True by reflexivity.
          rewrite decide_True by (apply elem_of_app; right; apply list_elem_of_here).
          rewrite FootnotesFacts.filter_none; [reflexivity|].
          intros x Hx Heq. apply Hout. rewrite <- Heq.
          apply list_elem_of_In, in_map, list_elem_of_In, Hx.
        * rewrite lookup_insert_ne by exact Hne. rewrite IHm.
          rewrite (filter_cons_False _ m) by exact Hne. rewrite app_nil_r.
          apply decide_ext. rewrite elem_of_app, list_elem_of_singleton.
          split; [tauto|]. intros [H|H]; [exact H | congruence]. }
  destruct (groupMessagesByTopic messages) as [groups order]. simpl in Hmain.
  destruct Hmain as [Ho Hm].
  destruct (FootnotesMore.uniqFrom_spec (map headerOf messages) []) as (Hnd & Hin & _).
  fold (Footnotes.uniq (map headerOf messages)) in Hnd, Hin. rewrite <- Ho in Hnd, Hin.
  assert (Hmem : forall h, h ∈ order <-> h ∈ map headerOf messages).
  { intros h. rewrite Hin. split; [tauto|]. intros H. split; [exact H|].
    apply not_elem_of_nil. }
  split; [exact Ho|]. split; [exact Hnd|]. split.
  - intros h. rewrite Hmem. rewrite list_elem_of_In, in_map_iff.
    split; intros (m & H1 & H2); exists m; rewrite ?list_elem_of_In in *; tauto.
  - intros h. rewrite Hm.
    destruct (decide (h ∈ map headerOf messages)) as [H1|H1];
      destruct (decide (h ∈ order)) as [H2|H2]; try reflexivity.
    + destruct H2. apply Hmem, H1.
    + destruct H1. apply Hmem, H2.
Qed.

(** *** Parsed messages *)

Lemma dropWhile_keeps p (s : list N) x :
  x ∈ s -> p x = false -> x ∈ dropWhile p s.
Proof.
  induction s as [|c s IH]; intros Hin Hx; [inversion Hin|]. simpl.
  destruct (p c) eqn:E; [|exact Hin].
  apply elem_of_cons in Hin as [->|Hin]; [congruence | apply IH; assumption].
Qed.

Lemma trim_nonempty (s : list N) x : x ∈ s -> isWhiteSpace x = false -> trim s <> [].
Proof.
  intros Hin Hx. unfold trim.
  assert (H : x ∈ dropWhile isWhiteSpace (rev (dropWhile isWhiteSpace s))).
  { apply dropWhile_keeps; [|exact Hx].
    apply list_elem_of_In, in_rev. rewrite rev_involutive.
    apply list_elem_of_In, dropWhile_keeps; assumption. }
  intros E. apply (f_equal (@rev N)) in E. rewrite rev_involutive in E. simpl in E.
  rewrite E in H. inversion H.
Qed.

Lemma startsWith_prefix (p s : list N) :
  startsWith p s = true -> exists rest, s = p ++ rest.
Proof.
  revert s. induction p as [|a p IH]; intros s H; [exists s; reflexivity|].
  destruct s as [|b s]; [discriminate|].
  cbn [startsWith] in H. apply andb_true_iff in H as [Hab H].
  apply N.eqb_eq in Hab. subst b.
  destruct (IH _ H) as [rest ->]. exists rest. reflexivity.
Qed.

(** The name of a section line is not empty. *)
Lemma section_name_nonempty line :
  isSectionLine line = true -> trim (drop 3 (trimEnd line)) <> [].
Proof.
  unfold isSectionLine, trimEnd.
  destruct (dropWhile isWhiteSpace (rev line)) as [|x u] eqn:E; [discriminate|].
  pose proof (dropWhile_head _ _ _ _ E) as Hx. simpl rev.
  intros Hs. apply startsWith_prefix in Hs as [rest Hs].
  rewrite Hs. change (drop 3 (js "## " ++ rest)) with rest.
  apply (trim_nonempty rest x); [|exact Hx].
  assert (Hlast : last (js "## " ++ rest) = Some x)
    by (rewrite <- Hs; apply last_snoc).
  destruct rest as [|r0 rest].
  - vm_compute in Hlast. injection Hlast as <-. discriminate.
  - change (last (js "## " ++ r0 :: rest)) with (last (r0 :: rest)) in Hlast.
    apply last_Some_elem_of, Hlast.
Qed.

Lemma matchIdAtLineEnd_digits line cleaned id :
  matchIdAtLineEnd line = Some (cleaned, id) ->
  10 <= length id /\ Forall (fun c => isDigit c = true) id.
Proof.
  unfold matchIdAtLineEnd.
  destruct (dropWhile isWhiteSpace (rev line)) as [|c r]; [discriminate|].
  destruct (c =? RBRACKET)%N; [|discriminate].
  destruct (dropWhile isDigit r) as [|o before]; [discriminate|].
  destruct (o =? LBRACKET)%N; [|discriminate]. rewrite andb_true_l.
  destruct (10 <=? length (takeWhile isDigit r)) eqn:Hl; [|discriminate].
  apply Nat.leb_le in Hl.
  intros [= _ <-]. rewrite length_rev. split; [exact Hl|].
  apply Forall_rev, ApplierMore.takeWhile_Forall.
Qed.

Lemma parseLine_invariant st line :
  parseInvariant st ->
  parseInvariant (parseLine st line)
  /\ length (messages (parseLine st line))
     = length (messages st) + (if decide (completesMessage line) then 1 else 0).
Proof.
  intros (Hidx & Hids & Hsec & Hcur & Hbuf).
  assert (Hgrow : (if decide (completesMessage line) then 1 else 0)
                  = if isSectionLine line then 0
                    else match matchIdAtLineEnd line with Some _ => 1 | None => 0 end).
  { destruct (decide (completesMessage line)) as [[Hs [x Hx]]|Hc].
    - rewrite Hs, Hx. reflexivity.
    - destruct (isSectionLine line) eqn:Es; [reflexivity|].
      destruct (matchIdAtLineEnd line) eqn:Em; [|reflexivity].
      exfalso. apply Hc. split; [exact Es | rewrite Em; eauto]. }
  rewrite Hgrow. clear Hgrow.
  unfold parseLine. fold (isSectionLine line).
  destruct (isSectionLine line) eqn:Es.
  - split.
    + repeat split; try assumption. simpl. intros [= H].
      apply (section_name_nonempty line Es H).
    + simpl. lia.
  - assert (Hbuf' : match buf st with [] => currentSection st | _ => bufSection st end
                    <> Some []) by (destruct (buf st); assumption).
    destruct (matchIdAtLineEnd line) as [[cleaned id]|] eqn:Em.
    + split.
      * repeat split; simpl; try assumption; try discriminate.
        -- rewrite map_app, length_app, Hidx. simpl. rewrite seq_app. reflexivity.
        -- apply Forall_app. split; [exact Hids|]. constructor; [|constructor].
           simpl. eapply matchIdAtLineEnd_digits, Em.
        -- apply Forall_app. split; [exact Hsec|]. constructor; [|constructor].
           simpl.
           destruct (match buf st with [] => currentSection st | _ => bufSection st end)
             as [[|c s]|]; [congruence | split; [discriminate | reflexivity] |].
           destruct (currentSection st) as [[|c s]|];
             [congruence | split; [discriminate | reflexivity] | reflexivity].
      * simpl. rewrite length_app. reflexivity.
    + split.
      * repeat split; simpl; assumption.
      * simpl. lia.
Qed.

(** X18. The messages parsed from a compendium carry the indices 0, 1, 2
    and so on; every identifier has ten or more characters, all digits;
    a message with a section has a non-empty section name and the header
    made of two hashes, a space and that name, and a message without one
    has the header Uncategorized; and there is one message per line that
    is no section line and ends with a bracketed identifier of ten or
    more digits, so the lines after the last such line are dropped. *)
Theorem parsed_messages_shape markdown :
  let parsed := parseCompendiumMessages markdown in
  map index parsed = seq 0 (length parsed)
  /\ Forall (fun m => 10 <= length (messageId m)
                      /\ Forall (fun c => isDigit c = true) (messageId m)) parsed
  /\ Forall (fun m => match section m with
                      | Some s => s <> [] /\ sectionHeader m = js "## " ++ s
                      | None => sectionHeader m = UNCATEGORIZED
                      end) parsed
  /\ length parsed = length (filter completesMessage (splitCrLf markdown)).
Proof.
  intros parsed. unfold parsed, parseCompendiumMessages.
  assert (Hgen : forall ls st, parseInvariant st ->
            parseInvariant (foldl parseLine st ls)
            /\ length (messages (foldl parseLine st ls))
               = length (messages st) + length (filter completesMessage ls)).
  { induction ls as [|l ls IH]; intros st Hst; simpl; [split; [exact Hst | lia]|].
    destruct (parseLine_invariant st l Hst) as [Hinv Hlen].
    destruct (IH _ Hinv) as [Hinv' Hlen']. split; [exact Hinv'|].
    rewrite Hlen', Hlen. destruct (decide (completesMessage l)) as [Hc|Hc].
    - rewrite filter_cons_True by exact Hc. simpl. lia.
    - rewrite filter_cons_False by exact Hc. lia. }
  destruct (Hgen (splitCrLf markdown)
              {| currentSection := None; buf := []; bufSection := None; messages := [] |})
    as [(H1 & H2 & H3 & _) H4].
  - repeat split; simpl; try constructor; discriminate.
  - simpl in H4. auto.
Qed.

End TopicsFacts.

(** ** Facts on the split script *)

Module SplitterFacts.
Import Splitter.

Section Parts.
Context {A : Type} (isObject : A -> bool) (fixPaths : A -> A).

Lemma onData_invariant values st value :
  splitInvariant isObject fixPaths values st ->
  splitInvariant isObject fixPaths (values ++ [value]) (onData isObject fixPaths st value).
Proof.
  intros (q & Htot & Hlt & Hpart & Hidx & Hlen & Hcat).
  unfold splitInvariant, onData. rewrite List.filter_app. cbn [List.filter].
  destruct (isObject value) eqn:Eo; [|rewrite app_nil_r; exists q; repeat split; assumption].
  cbv zeta. rewrite map_app. cbn [map].
  set (buffer := messageBuffer st ++ [fixPaths value]).
  assert (Hb : length buffer = length (messageBuffer st) + 1)
    by (unfold buffer; rewrite length_app; reflexivity).
  destruct (MESSAGES_PER_FILE <=? length buffer) eqn:El;
    [apply Nat.leb_le in El | apply Nat.leb_gt in El];
    cbn [messageBuffer partIndex totalMessages written].
  - exists (q + 1). repeat split.
    + unfold MESSAGES_PER_FILE in *. cbn [length]. lia.
    + unfold MESSAGES_PER_FILE. cbn [length]. lia.
    + lia.
    + rewrite map_app, Hidx, seq_app. cbn [map fst seq]. rewrite Hpart.
      replace (1 + q) with (q + 1) by lia. reflexivity.
    + rewrite map_app, Hlen. cbn [map snd].
      replace (q + 1) with (S q) by lia. rewrite replicate_S_end.
      f_equal. f_equal. unfold MESSAGES_PER_FILE in *. lia.
    + rewrite map_app, concat_app. cbn [map snd concat]. rewrite !app_nil_r.
      unfold buffer. rewrite <- Hcat, app_assoc. reflexivity.
  - exists q. repeat split; try assumption.
    + lia.
    + unfold buffer. rewrite <- Hcat, app_assoc. reflexivity.
Qed.

Lemma foldl_onData_invariant values :
  splitInvariant isObject fixPaths values
    (foldl (onData isObject fixPaths)
       {| messageBuffer := []; partIndex := 1; totalMessages := 0; written := [] |}
       values).
Proof.
  induction values as [|value values IH] using rev_ind.
  - exists 0. simpl. unfold MESSAGES_PER_FILE. repeat split; lia.
  - rewrite foldl_snoc. apply onData_invariant, IH.
Qed.

(** X19. The parts written for a file hold the fixed object values of
    the stream, all of them, once and in order; they are numbered from 1;
    every part holds a hundred messages but the last, which holds the
    rest when the total is no multiple of a hundred; and the number of
    parts that is logged is the quotient of the total by a hundred plus
    one, which is one more than the parts written when the total is a
    multiple of a hundred. *)
Theorem parts_partition_the_messages (values : list A) :
  let '(files, (total, logged)) := processFile isObject fixPaths values in
  concat (map snd files) = map fixPaths (List.filter isObject values)
  /\ map fst files = seq 1 (length files)
  /\ total = length (List.filter isObject values)
  /\ map (fun p => length (snd p)) files
     = replicate (total / 100) 100
       ++ (if total mod 100 =? 0 then [] else [total mod 100])
  /\ logged = total / 100 + 1
  /\ length files = if total mod 100 =? 0 then logged - 1 else logged.
Proof.
  unfold processFile, onEnd.
  destruct (foldl_onData_invariant values) as (q & Htot & Hlt & Hpart & Hidx & Hlen & Hcat).
  set (st := foldl _ _ values) in *.
  unfold MESSAGES_PER_FILE in *.
  assert (Hq : totalMessages st / 100 = q)
    by (symmetry; apply (Nat.div_unique _ 100 q (length (messageBuffer st))); lia).
  assert (Hr : totalMessages st mod 100 = length (messageBuffer st))
    by (symmetry; apply (Nat.mod_unique _ 100 q (length (messageBuffer st))); lia).
  assert (Hw : length (written st) = q)
    by (rewrite <- (length_map fst), Hidx; apply length_seq).
  assert (Htotal : totalMessages st = length (List.filter isObject values)).
  { rewrite <- (length_map fixPaths), <- Hcat, length_app, Htot. f_equal.
    clear -Hlen. revert q Hlen.
    induction (written st) as [|p w IH]; intros [|q] Hlen; try discriminate.
    - reflexivity.
    - simpl in *. injection Hlen as Hp Hlen. rewrite length_app, Hp, <- (IH q Hlen). lia. }
  rewrite Hq, Hr.
  destruct (messageBuffer st) as [|m buffer] eqn:Eb.
  - simpl. rewrite app_nil_r in *. rewrite Hw. repeat split; try assumption; lia.
  - simpl length. change (S (length buffer) =? 0) with false.
    rewrite !map_app, concat_app, length_app, Hw. simpl. rewrite app_nil_r.
    repeat split; try assumption; try lia.
    + rewrite Hidx, Hpart. rewrite (seq_app q 1 1). simpl.
      replace (q + 1) with (S q) by lia. reflexivity.
    + rewrite Hlen. reflexivity.
Qed.

End Parts.

End SplitterFacts.

(** ** Facts on the retry loops *)

Module RetryFacts.
Import Retry.

Section Loop.
Context {T E : Type} (generateContent : nat -> Outcome T E).
Context (isRetryableError : E -> bool) (maxAttempts : Z).

Lemma retry_from fuel attempt :
  1 <= fuel -> Z.to_nat maxAttempts + 2 <= fuel + attempt ->
  exists r n,
    generateTextWithRetry generateContent isRetryableError maxAttempts fuel attempt
      = Some (r, seq attempt (S n))
    /\ r = generateContent (attempt + n)
    /\ (forall k, k < n -> exists e, generateContent (attempt + k) = Thrown e
                                    /\ isRetryableError e = true)
    /\ (0 < n -> attempt + n <= Z.to_nat maxAttempts + 1)
    /\ match r with
       | Returned _ => True
       | Thrown e => isRetryableError e = false \/ (maxAttempts < Z.of_nat (attempt + n))%Z
       end.
Proof.
  revert attempt. induction fuel as [|fuel IH]; intros attempt Hf Hfuel; [lia|].
  simpl. destruct (generateContent attempt) as [text|error] eqn:Eg.
  - exists (Returned text), 0. rewrite Nat.add_0_r. repeat split; auto; lia.
  - destruct (Z.ltb_spec maxAttempts (Z.of_nat attempt)) as [Hmax|Hmax].
    + exists (Thrown error), 0. rewrite Nat.add_0_r. repeat split; auto; lia.
    + destruct (isRetryableError error) eqn:Er.
      * destruct (IH (attempt + 1)) as (r & n & Hrun & Hr & Hearlier & Hbound & Hstop);
          [lia | lia |].
        exists r, (S n). rewrite Hrun.
        replace (attempt + 1 + n) with (attempt + S n) in * by lia.
        repeat split.
        -- simpl. replace (attempt + 1) with (S attempt) by lia. reflexivity.
        -- exact Hr.
        -- intros [|k] Hk.
           ++ exists error. rewrite Nat.add_0_r. auto.
           ++ destruct (Hearlier k) as (e & He & Hre); [lia|].
              exists e. replace (attempt + S k) with (attempt + 1 + k) by lia. auto.
        -- intros _. destruct n as [|n]; [lia|]. apply Hbound. lia.
        -- exact Hstop.
      * exists (Thrown error), 0. rewrite Nat.add_0_r. repeat split; auto; lia.
Qed.

(** X20. With fuel for one attempt more than the maximum, the retry loop
    started at attempt 1 ends: it makes the attempts 1 to n for some n of
    at most the maximum plus one, so one more than the maximum that the
    log lines announce; every attempt but the last threw an error that
    can be retried; the result is what the last attempt did; and an
    error is only passed on when it cannot be retried or the attempt
    number is beyond the maximum. *)
Theorem retry_loop_attempts fuel :
  Z.to_nat maxAttempts + 1 <= fuel ->
  exists r n,
    generateTextWithRetry generateContent isRetryableError maxAttempts fuel 1
      = Some (r, seq 1 n)
    /\ 1 <= n <= Z.to_nat maxAttempts + 1
    /\ r = generateContent n
    /\ (forall k, 1 <= k < n -> exists e, generateContent k = Thrown e
                                         /\ isRetryableError e = true)
    /\ match r with
       | Returned _ => True
       | Thrown e => isRetryableError e = false \/ (maxAttempts < Z.of_nat n)%Z
       end.
Proof.
  intros Hfuel.
  destruct (retry_from fuel 1) as (r & n & Hrun & Hr & Hearlier & Hbound & Hstop); [lia..|].
  exists r, (S n). repeat split; try assumption; try lia.
  intros k Hk. destruct (Hearlier (k - 1)) as (e & He & Hre); [lia|].
  exists e. replace (1 + (k - 1)) with k in He by lia. auto.
Qed.

End Loop.

Lemma retry_loop_attempts_witness :
  exists r n,
    generateTextWithRetry
      (fun k => if k <? 3 then Thrown 503 else Returned k) (fun e => 500 <=? e) 30 31 1
      = Some (r, seq 1 n)
    /\ 1 <= n <= Z.to_nat 30 + 1
    /\ r = (fun k => if k <? 3 then Thrown 503 else Returned k) n
    /\ (forall k, 1 <= k < n ->
          exists e, (fun k => if k <? 3 then Thrown 503 else Returned k) k = Thrown e
                    /\ (fun e => 500 <=? e) e = true)
    /\ match r with
       | Returned _ => True
       | Thrown e => (fun e => 500 <=? e) e = false \/ (30 < Z.of_nat n)%Z
       end.
Proof.
  apply (retry_loop_attempts
           (fun k => if k <? 3 then Thrown 503 else Returned k) (fun e => 500 <=? e) 30 31).
  simpl. lia.
Defined.


End RetryFacts.
